(** * Active Brownian particle simulations: trajectory and MSD estimator

    A shallow embedding of the four Python programs of the repository
    ([sim_updated.py], [sim.py], [simulation.py], [script.py]) and the
    properties of their trajectory generator and mean-squared-displacement
    estimator.

    Numbers.  Python floats are read as real numbers ([R]); [np.cos],
    [np.sin] and [np.exp] are the functions of the Standard Library's
    [Reals].  Rounding is therefore not part of the model: every statement
    below is about the arithmetic the code writes down, carried out exactly.
    Nor is overflow: where Python raises [OverflowError] (the square of a
    float beyond about 1.3e154) the model computes on, so what is said
    about numbers typed into the entry fields is said about numbers of
    modest magnitude.

    Objects.  NumPy arrays are mutable and shared by reference.  Every array
    the programs build for a position or a displacement has shape [(2,)]; it
    lives in a heap of such arrays and is named by its address.  In-place
    updates ([+=] on an array, [a[0] = ...]) are writes to the heap; [copy],
    arithmetic between arrays and [np.array] allocate.

    Randomness.  [np.random.uniform(low, high)] returns
    [low + (high - low) * u] for the next sample [u] of the generator's
    stream of unit-interval samples.  The stream is part of the world and a
    counter records how many samples have been consumed. *)

From Stdlib Require Import Reals Lra Lia List Arith Bool ZArith.
Import ListNotations.
Local Open Scope R_scope.

(** ** Heap of [(2,)] arrays, exceptions, and the monad of programs *)

(** A [(2,)] array of floats. *)
Abbreviation vec2 := (R * R)%type (only parsing).
(** Addresses on the heap. *)
Abbreviation loc := nat (only parsing).

Inductive exn : Type :=
| ValueError
| ZeroDivisionError
| IndexError
| DanglingReference.

Inductive result (A : Type) : Type :=
| Ok (a : A)
| Raise (e : exn).
Arguments Ok {A} a.
Arguments Raise {A} e.

Record world (Obj : Type) : Type := World {
  self : Obj;
  heap : list vec2;
  drawn : nat;
  unit_samples : nat -> R
}.
Arguments World {Obj} _ _ _ _.
Arguments self {Obj} _.
Arguments heap {Obj} _.
Arguments drawn {Obj} _.
Arguments unit_samples {Obj} _.

(** A program takes a world to an outcome and a world: what a statement
    did before it raised stays done. *)
Definition M (Obj A : Type) : Type := world Obj -> result A * world Obj.

Definition ret {Obj A : Type} (a : A) : M Obj A := fun w => (Ok a, w).

Definition bind {Obj A B : Type} (m : M Obj A) (k : A -> M Obj B) : M Obj B :=
  fun w => match m w with
           | (Ok a, w') => k a w'
           | (Raise e, w') => (Raise e, w')
           end.

Definition raise {Obj A : Type} (e : exn) : M Obj A := fun w => (Raise e, w).

Definition lift {Obj A : Type} (r : result A) : M Obj A := fun w => (r, w).

(** [try: body except e: handler] *)
Definition try_except {Obj A : Type} (body : M Obj A) (e : exn)
  (handler : M Obj A) : M Obj A :=
  fun w => match body w with
           | (Ok a, w') => (Ok a, w')
           | (Raise e', w') =>
               if match e, e' with
                  | ValueError, ValueError
                  | ZeroDivisionError, ZeroDivisionError
                  | IndexError, IndexError
                  | DanglingReference, DanglingReference => true
                  | _, _ => false
                  end
               then handler w' else (Raise e', w')
           end.

Declare Scope prog_scope.
Delimit Scope prog_scope with prog.
Notation "x <- c ;; k" := (bind c (fun x => k))
  (at level 61, c at next level, right associativity) : prog_scope.
Notation "' p <- c ;; k" := (bind c (fun p => k))
  (at level 61, p pattern, c at next level, right associativity) : prog_scope.
Notation "c ;;; k" := (bind c (fun _ => k))
  (at level 61, right associativity) : prog_scope.
Local Open Scope prog_scope.

Definition get_self {Obj : Type} : M Obj Obj := fun w => (Ok (self w), w).

Definition set_self {Obj : Type} (f : Obj -> Obj) : M Obj unit :=
  fun w => (Ok tt, World (f (self w)) (heap w) (drawn w) (unit_samples w)).

Definition alloc {Obj : Type} (v : vec2) : M Obj loc :=
  fun w => (Ok (length (heap w)),
            World (self w) (heap w ++ [v]) (drawn w) (unit_samples w)).

Definition load {Obj : Type} (l : loc) : M Obj vec2 :=
  fun w => match nth_error (heap w) l with
           | Some v => (Ok v, w)
           | None => (Raise DanglingReference, w)
           end.

Fixpoint update (h : list vec2) (l : loc) (v : vec2) : list vec2 :=
  match h, l with
  | [], _ => []
  | _ :: h', O => v :: h'
  | c :: h', S l' => c :: update h' l' v
  end.

Definition store {Obj : Type} (l : loc) (v : vec2) : M Obj unit :=
  fun w => if (l <? length (heap w))%nat
           then (Ok tt, World (self w) (update (heap w) l v) (drawn w)
                               (unit_samples w))
           else (Raise DanglingReference, w).

(** [for x in xs: acc = body(x, acc)] *)
Fixpoint for_ {Obj A St : Type} (xs : list A) (body : A -> St -> M Obj St)
  (acc : St) : M Obj St :=
  match xs with
  | [] => ret acc
  | x :: xs' => acc' <- body x acc ;; for_ xs' body acc'
  end.

(** [range(a, b)] *)
Definition range (a b : nat) : list nat := seq a (b - a).

(** [xs[i]] on a Python list or a one-dimensional array *)
Definition index {Obj A : Type} (xs : list A) (i : nat) : M Obj A :=
  match nth_error xs i with
  | Some x => ret x
  | None => raise IndexError
  end.

(** ** NumPy operations on [(2,)] arrays *)

(** [a.copy()] *)
Definition ndarray_copy {Obj : Type} (a : loc) : M Obj loc :=
  v <- load a ;; alloc v.

(** [np.array(rows)] for a list of [(2,)] arrays: a fresh [(n, 2)] array,
    given by the addresses of its rows ([positions[i]] is a view of row
    [i]). *)
Fixpoint np_array {Obj : Type} (rows : list loc) : M Obj (list loc) :=
  match rows with
  | [] => ret []
  | r :: rows' =>
      r' <- ndarray_copy r ;;
      rest <- np_array rows' ;;
      ret (r' :: rest)
  end.

(** [a - b]: a fresh array *)
Definition np_sub {Obj : Type} (a b : loc) : M Obj loc :=
  va <- load a ;; vb <- load b ;;
  alloc (fst va - fst vb, snd va - snd vb).

(** [a[i]] *)
Definition getitem {Obj : Type} (a : loc) (i : nat) : M Obj R :=
  v <- load a ;;
  match i with
  | O => ret (fst v)
  | S O => ret (snd v)
  | _ => raise IndexError
  end.

(** [a[i] = x] *)
Definition setitem {Obj : Type} (a : loc) (i : nat) (x : R) : M Obj unit :=
  v <- load a ;;
  match i with
  | O => store a (x, snd v)
  | S O => store a (fst v, x)
  | _ => raise IndexError
  end.

(** [np.array([x, y])]: a fresh array *)
Definition np_array2 {Obj : Type} (x y : R) : M Obj loc := alloc (x, y).

(** [a * c] for a scalar [c]: a fresh array *)
Definition np_scale {Obj : Type} (a : loc) (c : R) : M Obj loc :=
  v <- load a ;; alloc (fst v * c, snd v * c).

(** [a += b]: in place *)
Definition np_iadd {Obj : Type} (a b : loc) : M Obj unit :=
  va <- load a ;; vb <- load b ;;
  store a (fst va + fst vb, snd va + snd vb).

(** [a ** 2]: a fresh array *)
Definition np_square {Obj : Type} (a : loc) : M Obj loc :=
  v <- load a ;; alloc (fst v ^ 2, snd v ^ 2).

(** [np.sum(a)] *)
Definition np_sum {Obj : Type} (a : loc) : M Obj R :=
  v <- load a ;; ret (fst v + snd v).

(** [np.mean(xs)] of a non-empty Python list of floats *)
Definition np_mean (xs : list R) : R :=
  fold_right Rplus 0 xs / INR (length xs).

(** [np.random.uniform(low, high)] *)
Definition np_random_uniform {Obj : Type} (low high : R) : M Obj R :=
  fun w => (Ok (low + (high - low) * unit_samples w (drawn w)),
            World (self w) (heap w) (S (drawn w)) (unit_samples w)).

(** Python's [x / y] on floats *)
Definition py_div (x y : R) : result R :=
  if Req_dec_T y 0 then Raise ZeroDivisionError else Ok (x / y).

(** [if c: body] *)
Definition when {Obj : Type} (c : bool) (body : M Obj unit) : M Obj unit :=
  if c then body else ret tt.

Definition Rgtb (x y : R) : bool := if Rgt_dec x y then true else false.
Definition Rltb (x y : R) : bool := if Rlt_dec x y then true else false.
Definition Rgeb (x y : R) : bool := if Rge_dec x y then true else false.
Definition Rleb (x y : R) : bool := if Rle_dec x y then true else false.

(** A one-dimensional array of floats that a function builds and keeps to
    itself is a list; [a[i] = v] replaces entry [i]. *)
Fixpoint set_nth (xs : list R) (i : nat) (v : R) : list R :=
  match xs, i with
  | [], _ => []
  | _ :: xs', O => v :: xs'
  | x :: xs', S i' => x :: set_nth xs' i' v
  end.

Definition setitem1d {Obj : Type} (xs : list R) (i : nat) (v : R)
  : M Obj (list R) :=
  if (i <? length xs)%nat then ret (set_nth xs i v) else raise IndexError.

(** [float(text)] of an entry field: the text either reads as a number or
    [float] raises [ValueError]. *)
Definition float_ {Obj : Type} (entry : option R) : M Obj R :=
  match entry with
  | Some x => ret x
  | None => raise ValueError
  end.

(** ** [sim_updated.py]: periodic domain, MSD estimator, closed-form MSD *)

Module SimUpdated.

(** The attributes of [ParticleSimulation] that the simulation reads and
    writes (widgets, canvas items and the plot window are left out).
    [epsilon] and [next_noise_update] are in milliseconds, [current_time] and
    [dt] in seconds, as in the source. *)
Record ParticleSimulation : Type := {
  width : R;
  height : R;
  radius : R;
  dt : R;
  v : R;
  eta : R;
  epsilon : R;
  Dr_theoretical : R;
  position : loc;
  theta : R;
  angular_velocity : R;
  positions_history : list loc;
  time_points : list R;
  current_time : R;
  update_counter : nat;
  next_noise_update : R;
  running : bool
}.

Definition Prog : Type -> Type := M ParticleSimulation.

Definition set_v (x : R) (s : ParticleSimulation) : ParticleSimulation :=
  {| width := width s; height := height s; radius := radius s; dt := dt s;
     v := x; eta := eta s; epsilon := epsilon s;
     Dr_theoretical := Dr_theoretical s; position := position s;
     theta := theta s; angular_velocity := angular_velocity s;
     positions_history := positions_history s; time_points := time_points s;
     current_time := current_time s; update_counter := update_counter s;
     next_noise_update := next_noise_update s; running := running s |}.

Definition set_eta (x : R) (s : ParticleSimulation) : ParticleSimulation :=
  {| width := width s; height := height s; radius := radius s; dt := dt s;
     v := v s; eta := x; epsilon := epsilon s;
     Dr_theoretical := Dr_theoretical s; position := position s;
     theta := theta s; angular_velocity := angular_velocity s;
     positions_history := positions_history s; time_points := time_points s;
     current_time := current_time s; update_counter := update_counter s;
     next_noise_update := next_noise_update s; running := running s |}.

Definition set_epsilon (x : R) (s : ParticleSimulation) : ParticleSimulation :=
  {| width := width s; height := height s; radius := radius s; dt := dt s;
     v := v s; eta := eta s; epsilon := x;
     Dr_theoretical := Dr_theoretical s; position := position s;
     theta := theta s; angular_velocity := angular_velocity s;
     positions_history := positions_history s; time_points := time_points s;
     current_time := current_time s; update_counter := update_counter s;
     next_noise_update := next_noise_update s; running := running s |}.

Definition set_Dr_theoretical (x : R) (s : ParticleSimulation)
  : ParticleSimulation :=
  {| width := width s; height := height s; radius := radius s; dt := dt s;
     v := v s; eta := eta s; epsilon := epsilon s;
     Dr_theoretical := x; position := position s;
     theta := theta s; angular_velocity := angular_velocity s;
     positions_history := positions_history s; time_points := time_points s;
     current_time := current_time s; update_counter := update_counter s;
     next_noise_update := next_noise_update s; running := running s |}.

Definition set_position (x : loc) (s : ParticleSimulation)
  : ParticleSimulation :=
  {| width := width s; height := height s; radius := radius s; dt := dt s;
     v := v s; eta := eta s; epsilon := epsilon s;
     Dr_theoretical := Dr_theoretical s; position := x;
     theta := theta s; angular_velocity := angular_velocity s;
     positions_history := positions_history s; time_points := time_points s;
     current_time := current_time s; update_counter := update_counter s;
     next_noise_update := next_noise_update s; running := running s |}.

Definition set_theta (x : R) (s : ParticleSimulation) : ParticleSimulation :=
  {| width := width s; height := height s; radius := radius s; dt := dt s;
     v := v s; eta := eta s; epsilon := epsilon s;
     Dr_theoretical := Dr_theoretical s; position := position s;
     theta := x; angular_velocity := angular_velocity s;
     positions_history := positions_history s; time_points := time_points s;
     current_time := current_time s; update_counter := update_counter s;
     next_noise_update := next_noise_update s; running := running s |}.

Definition set_angular_velocity (x : R) (s : ParticleSimulation)
  : ParticleSimulation :=
  {| width := width s; height := height s; radius := radius s; dt := dt s;
     v := v s; eta := eta s; epsilon := epsilon s;
     Dr_theoretical := Dr_theoretical s; position := position s;
     theta := theta s; angular_velocity := x;
     positions_history := positions_history s; time_points := time_points s;
     current_time := current_time s; update_counter := update_counter s;
     next_noise_update := next_noise_update s; running := running s |}.

Definition set_positions_history (x : list loc) (s : ParticleSimulation)
  : ParticleSimulation :=
  {| width := width s; height := height s; radius := radius s; dt := dt s;
     v := v s; eta := eta s; epsilon := epsilon s;
     Dr_theoretical := Dr_theoretical s; position := position s;
     theta := theta s; angular_velocity := angular_velocity s;
     positions_history := x; time_points := time_points s;
     current_time := current_time s; update_counter := update_counter s;
     next_noise_update := next_noise_update s; running := running s |}.

Definition set_time_points (x : list R) (s : ParticleSimulation)
  : ParticleSimulation :=
  {| width := width s; height := height s; radius := radius s; dt := dt s;
     v := v s; eta := eta s; epsilon := epsilon s;
     Dr_theoretical := Dr_theoretical s; position := position s;
     theta := theta s; angular_velocity := angular_velocity s;
     positions_history := positions_history s; time_points := x;
     current_time := current_time s; update_counter := update_counter s;
     next_noise_update := next_noise_update s; running := running s |}.

Definition set_current_time (x : R) (s : ParticleSimulation)
  : ParticleSimulation :=
  {| width := width s; height := height s; radius := radius s; dt := dt s;
     v := v s; eta := eta s; epsilon := epsilon s;
     Dr_theoretical := Dr_theoretical s; position := position s;
     theta := theta s; angular_velocity := angular_velocity s;
     positions_history := positions_history s; time_points := time_points s;
     current_time := x; update_counter := update_counter s;
     next_noise_update := next_noise_update s; running := running s |}.

Definition set_update_counter (x : nat) (s : ParticleSimulation)
  : ParticleSimulation :=
  {| width := width s; height := height s; radius := radius s; dt := dt s;
     v := v s; eta := eta s; epsilon := epsilon s;
     Dr_theoretical := Dr_theoretical s; position := position s;
     theta := theta s; angular_velocity := angular_velocity s;
     positions_history := positions_history s; time_points := time_points s;
     current_time := current_time s; update_counter := x;
     next_noise_update := next_noise_update s; running := running s |}.

Definition set_next_noise_update (x : R) (s : ParticleSimulation)
  : ParticleSimulation :=
  {| width := width s; height := height s; radius := radius s; dt := dt s;
     v := v s; eta := eta s; epsilon := epsilon s;
     Dr_theoretical := Dr_theoretical s; position := position s;
     theta := theta s; angular_velocity := angular_velocity s;
     positions_history := positions_history s; time_points := time_points s;
     current_time := current_time s; update_counter := update_counter s;
     next_noise_update := x; running := running s |}.

Definition set_running (x : bool) (s : ParticleSimulation)
  : ParticleSimulation :=
  {| width := width s; height := height s; radius := radius s; dt := dt s;
     v := v s; eta := eta s; epsilon := epsilon s;
     Dr_theoretical := Dr_theoretical s; position := position s;
     theta := theta s; angular_velocity := angular_velocity s;
     positions_history := positions_history s; time_points := time_points s;
     current_time := current_time s; update_counter := update_counter s;
     next_noise_update := next_noise_update s; running := x |}.

(** [self.x] *)
Definition attr {A : Type} (f : ParticleSimulation -> A) : Prog A :=
  s <- get_self ;; ret (f s).

(** The periodic boundary rule on coordinate [i] of [self.position]:
    [if position[i] < 0: position[i] += size]
    [elif position[i] > size: position[i] -= size] *)
Definition wrap_axis (i : nat) (size : R) : Prog unit :=
  p <- attr position ;;
  x <- getitem p i ;;
  if Rltb x 0 then setitem p i (x + size)
  else if Rgtb x size then setitem p i (x - size)
  else ret tt.

(** The value that rule leaves in a coordinate that held [x]. *)
Definition wrapped (size x : R) : R :=
  if Rlt_dec x 0 then x + size
  else if Rgt_dec x size then x - size
  else x.

Definition update_position : Prog unit :=
  p <- attr position ;;
  prev_position <- ndarray_copy p ;;
  set_self (fun s => set_theta (theta s + angular_velocity s * dt s) s) ;;;
  s <- get_self ;;
  velocity <- np_array2 (v s * cos (theta s)) (v s * sin (theta s)) ;;
  step <- np_scale velocity (dt s) ;;
  np_iadd p step ;;;
  wrap_axis 0 (width s) ;;;
  wrap_axis 1 (height s).

(** One firing of the [animate] callback.  The callback re-arms itself with
    [root.after(10, self.animate)]; the event loop's next call is the next
    application of [animate]. *)
Definition animate : Prog unit :=
  s <- get_self ;;
  if negb (running s) then ret tt
  else
    update_position ;;;
    set_self (fun s => set_current_time (current_time s + dt s) s) ;;;
    set_self (fun s => set_update_counter (update_counter s + 1) s) ;;;
    s <- get_self ;;
    when (update_counter s mod 10 =? 0)%nat
      (c <- ndarray_copy (position s) ;;
       set_self (fun s =>
         set_positions_history (positions_history s ++ [c]) s) ;;;
       set_self (fun s =>
         set_time_points (time_points s ++ [current_time s]) s)) ;;;
    s <- get_self ;;
    when (Rgeb (current_time s * 1000) (next_noise_update s))
      (a <- np_random_uniform (- eta s) (eta s) ;;
       set_self (set_angular_velocity a) ;;;
       set_self (fun s =>
         set_next_noise_update (next_noise_update s + epsilon s) s)).

(** [start_simulation], given what [float] makes of the three entry fields:
    a number, or [ValueError].  ([OverflowError] from [self.eta**2] on an
    entry beyond the range of floats is outside the model; see
    [modest_entry].) *)
Definition start_simulation (v_entry eta_entry delay_entry : option R)
  : Prog unit :=
  try_except
    (x <- float_ v_entry ;;
     set_self (set_v x) ;;;
     x <- float_ eta_entry ;;
     set_self (set_eta x) ;;;
     x <- float_ delay_entry ;;
     set_self (set_epsilon (x * 1000)) ;;;
     set_self (fun s => set_Dr_theoretical (eta s ^ 2 / 6) s) ;;;
     s <- get_self ;;
     p <- np_array2 (width s / 2) (height s / 2) ;;
     set_self (set_position p) ;;;
     set_self (set_theta 0) ;;;
     a <- np_random_uniform (- eta s) (eta s) ;;
     set_self (set_angular_velocity a) ;;;
     c <- ndarray_copy p ;;
     set_self (set_positions_history [c]) ;;;
     set_self (set_time_points [0]) ;;;
     set_self (set_current_time 0) ;;;
     set_self (set_update_counter 0) ;;;
     set_self (fun s => set_next_noise_update (epsilon s) s) ;;;
     set_self (set_running true) ;;;
     animate)
    ValueError
    (ret tt).

Definition stop_simulation : Prog unit := set_self (set_running false).

Definition calculate_theoretical_msd (times : list R) : Prog (list R) :=
  s <- get_self ;;
  let v := v s in
  let Dr := Dr_theoretical s in
  a <- lift (py_div (v ^ 2) Dr) ;;
  b <- lift (py_div 1 Dr) ;;
  ret (map (fun t => 2 * a * (t + b * (exp (- Dr * t) - 1))) times).

(** The body of the inner loop of [calculate_msd] for the pair of rows at
    [i + tau_idx] and [i]: the squared displacement appended to
    [squared_displacements]. *)
Definition squared_displacement (positions : list loc) (tau_idx i : nat)
  : Prog R :=
  a <- index positions (i + tau_idx) ;;
  b <- index positions i ;;
  disp <- np_sub a b ;;
  s <- get_self ;;
  d0 <- getitem disp 0 ;;
  when (Rgtb (Rabs d0) (width s / 2))
    (setitem disp 0 (width s - Rabs d0)) ;;;
  d1 <- getitem disp 1 ;;
  when (Rgtb (Rabs d1) (height s / 2))
    (setitem disp 1 (height s - Rabs d1)) ;;;
  sq <- np_square disp ;;
  np_sum sq.

Definition calculate_msd : Prog (list R * list R) :=
  s <- get_self ;;
  positions <- np_array (positions_history s) ;;
  let times := time_points s in
  let n_points := length positions in
  let max_tau_idx := Nat.min n_points 1000 in
  for_ (range 1 max_tau_idx)
    (fun tau_idx acc =>
       let '(tau_values, msd_values) := acc in
       t_k <- index times tau_idx ;;
       t_0 <- index times 0 ;;
       let tau := t_k - t_0 in
       squared_displacements <-
         for_ (range 0 (n_points - tau_idx))
           (fun i sds =>
              sd <- squared_displacement positions tau_idx i ;;
              ret (sds ++ [sd]))
           [] ;;
       match squared_displacements with
       | [] => ret (tau_values, msd_values)
       | _ :: _ =>
           let msd := np_mean squared_displacements in
           ret (tau_values ++ [tau], msd_values ++ [msd])
       end)
    ([], []).

End SimUpdated.

(** ** [sim.py]: walled domain, the run stops at a wall *)

Module Sim.

(** [current_time] counts steps (an [int] in the source). *)
Record ParticleSimulation : Type := {
  width : R;
  height : R;
  radius : R;
  position : loc;
  initial_position : loc;
  positions_history : list loc;
  time_steps : list nat;
  current_time : nat;
  msd_values : list R;
  theta : R;
  neta : R;
  angular_velocity : R;
  speed : R;
  velocity : loc;
  running : bool
}.

Definition Prog : Type -> Type := M ParticleSimulation.

Definition set_theta (x : R) (s : ParticleSimulation) : ParticleSimulation :=
  {| width := width s; height := height s; radius := radius s;
     position := position s; initial_position := initial_position s;
     positions_history := positions_history s; time_steps := time_steps s;
     current_time := current_time s; msd_values := msd_values s;
     theta := x; neta := neta s; angular_velocity := angular_velocity s;
     speed := speed s; velocity := velocity s; running := running s |}.

Definition set_angular_velocity (x : R) (s : ParticleSimulation)
  : ParticleSimulation :=
  {| width := width s; height := height s; radius := radius s;
     position := position s; initial_position := initial_position s;
     positions_history := positions_history s; time_steps := time_steps s;
     current_time := current_time s; msd_values := msd_values s;
     theta := theta s; neta := neta s; angular_velocity := x;
     speed := speed s; velocity := velocity s; running := running s |}.

Definition set_speed (x : R) (s : ParticleSimulation) : ParticleSimulation :=
  {| width := width s; height := height s; radius := radius s;
     position := position s; initial_position := initial_position s;
     positions_history := positions_history s; time_steps := time_steps s;
     current_time := current_time s; msd_values := msd_values s;
     theta := theta s; neta := neta s; angular_velocity := angular_velocity s;
     speed := x; velocity := velocity s; running := running s |}.

Definition set_velocity (x : loc) (s : ParticleSimulation)
  : ParticleSimulation :=
  {| width := width s; height := height s; radius := radius s;
     position := position s; initial_position := initial_position s;
     positions_history := positions_history s; time_steps := time_steps s;
     current_time := current_time s; msd_values := msd_values s;
     theta := theta s; neta := neta s; angular_velocity := angular_velocity s;
     speed := speed s; velocity := x; running := running s |}.

Definition set_running (x : bool) (s : ParticleSimulation)
  : ParticleSimulation :=
  {| width := width s; height := height s; radius := radius s;
     position := position s; initial_position := initial_position s;
     positions_history := positions_history s; time_steps := time_steps s;
     current_time := current_time s; msd_values := msd_values s;
     theta := theta s; neta := neta s; angular_velocity := angular_velocity s;
     speed := speed s; velocity := velocity s; running := x |}.

Definition set_current_time (x : nat) (s : ParticleSimulation)
  : ParticleSimulation :=
  {| width := width s; height := height s; radius := radius s;
     position := position s; initial_position := initial_position s;
     positions_history := positions_history s; time_steps := time_steps s;
     current_time := x; msd_values := msd_values s;
     theta := theta s; neta := neta s; angular_velocity := angular_velocity s;
     speed := speed s; velocity := velocity s; running := running s |}.

Definition set_positions_history (x : list loc) (s : ParticleSimulation)
  : ParticleSimulation :=
  {| width := width s; height := height s; radius := radius s;
     position := position s; initial_position := initial_position s;
     positions_history := x; time_steps := time_steps s;
     current_time := current_time s; msd_values := msd_values s;
     theta := theta s; neta := neta s; angular_velocity := angular_velocity s;
     speed := speed s; velocity := velocity s; running := running s |}.

Definition set_time_steps (x : list nat) (s : ParticleSimulation)
  : ParticleSimulation :=
  {| width := width s; height := height s; radius := radius s;
     position := position s; initial_position := initial_position s;
     positions_history := positions_history s; time_steps := x;
     current_time := current_time s; msd_values := msd_values s;
     theta := theta s; neta := neta s; angular_velocity := angular_velocity s;
     speed := speed s; velocity := velocity s; running := running s |}.

Definition set_msd_values (x : list R) (s : ParticleSimulation)
  : ParticleSimulation :=
  {| width := width s; height := height s; radius := radius s;
     position := position s; initial_position := initial_position s;
     positions_history := positions_history s; time_steps := time_steps s;
     current_time := current_time s; msd_values := x;
     theta := theta s; neta := neta s; angular_velocity := angular_velocity s;
     speed := speed s; velocity := velocity s; running := running s |}.

(** The wall test of [update_position], on the coordinates of
    [self.position]. *)
Definition at_wall (s : ParticleSimulation) (x y : R) : bool :=
  (Rleb (x - radius s) 0 || Rgeb (x + radius s) (width s))
  || (Rleb (y - radius s) 0 || Rgeb (y + radius s) (height s)).

(** The second half of [update_position]: "Update MSD calculation data" and
    "Calculate current MSD". *)
Definition record_step : Prog unit :=
  set_self (fun s => set_current_time (current_time s + 1) s) ;;;
  s <- get_self ;;
  c <- ndarray_copy (position s) ;;
  set_self (fun s => set_positions_history (positions_history s ++ [c]) s) ;;;
  set_self (fun s => set_time_steps (time_steps s ++ [current_time s]) s) ;;;
  s <- get_self ;;
  displacement <- np_sub (position s) (initial_position s) ;;
  sq <- np_square displacement ;;
  squared_displacement <- np_sum sq ;;
  set_self (fun s => set_msd_values (msd_values s ++ [squared_displacement]) s).

Definition update_position : Prog unit :=
  s <- get_self ;;
  prev_position <- ndarray_copy (position s) ;;
  set_self (fun s => set_theta (theta s + angular_velocity s) s) ;;;
  s <- get_self ;;
  vel <- np_array2 (speed s * cos (theta s)) (speed s * sin (theta s)) ;;
  set_self (set_velocity vel) ;;;
  np_iadd (position s) vel ;;;
  x <- getitem (position s) 0 ;;
  y <- getitem (position s) 1 ;;
  when (at_wall s x y)
    (setitem vel 0 0 ;;;
     setitem vel 1 0 ;;;
     set_self (set_angular_velocity 0) ;;;
     set_self (set_speed 0) ;;;
     set_self (set_running false)) ;;;
  record_step.

Definition animate : Prog unit :=
  s <- get_self ;;
  if running s then update_position else ret tt.

Definition update_angular_velocity : Prog unit :=
  s <- get_self ;;
  if running s
  then (a <- np_random_uniform (- neta s) (neta s) ;;
        set_self (set_angular_velocity a))
  else ret tt.

Definition toggle_simulation : Prog unit :=
  set_self (fun s => set_running (negb (running s)) s) ;;;
  s <- get_self ;;
  if running s then animate else ret tt.

(** [__init__]: the attributes, then the first [animate].  (The canvas, the
    buttons and the timer that [root.after] arms are left out.) *)
Definition new : Prog unit :=
  p <- np_array2 (600 / 2) (400 / 2) ;;
  ip <- ndarray_copy p ;;
  c <- ndarray_copy p ;;
  a <- np_random_uniform (- (1 / 10)) (1 / 10) ;;
  vel <- np_array2 (4 / 10 * cos 0) (4 / 10 * sin 0) ;;
  set_self (fun _ =>
    {| width := 600; height := 400; radius := 5;
       position := p; initial_position := ip;
       positions_history := [c]; time_steps := [0%nat];
       current_time := 0%nat; msd_values := [0];
       theta := 0; neta := 1 / 10; angular_velocity := a;
       speed := 4 / 10; velocity := vel; running := true |}) ;;;
  animate.

(** [calculate_msd]: the squared distance of every recorded position from
    the first one. *)
Definition calculate_msd : Prog (list nat * list R) :=
  s <- get_self ;;
  let time_points := time_steps s in
  positions <- np_array (positions_history s) ;;
  let msd := repeat 0 (length time_points) in
  msd <-
    for_ (combine (seq 0 (length time_points)) time_points)
      (fun it msd =>
         let '(i, t) := it in
         if (i =? 0)%nat
         then setitem1d msd i 0
         else
           a <- index positions i ;;
           b <- index positions 0 ;;
           displacement <- np_sub a b ;;
           sq <- np_square displacement ;;
           sd <- np_sum sq ;;
           setitem1d msd i sd)
      msd ;;
  ret (time_points, msd).

(** What the event loop can call on the object. *)
Inductive event : Type :=
| Animate
| UpdateAngularVelocity
| ToggleSimulation.

Definition handle (e : event) : Prog unit :=
  match e with
  | Animate => animate
  | UpdateAngularVelocity => update_angular_velocity
  | ToggleSimulation => toggle_simulation
  end.

Definition run (es : list event) : Prog unit :=
  for_ es (fun e _ => handle e) tt.

End Sim.

(** ** [simulation.py]: walled domain, no run flag *)

Module Simulation.

Record ParticleSimulation : Type := {
  width : R;
  height : R;
  radius : R;
  position : loc;
  theta : R;
  neta : R;
  angular_velocity : R;
  speed : R;
  velocity : loc
}.

Definition Prog : Type -> Type := M ParticleSimulation.

Definition set_theta (x : R) (s : ParticleSimulation) : ParticleSimulation :=
  {| width := width s; height := height s; radius := radius s;
     position := position s; theta := x; neta := neta s;
     angular_velocity := angular_velocity s; speed := speed s;
     velocity := velocity s |}.

Definition set_angular_velocity (x : R) (s : ParticleSimulation)
  : ParticleSimulation :=
  {| width := width s; height := height s; radius := radius s;
     position := position s; theta := theta s; neta := neta s;
     angular_velocity := x; speed := speed s; velocity := velocity s |}.

Definition set_speed (x : R) (s : ParticleSimulation) : ParticleSimulation :=
  {| width := width s; height := height s; radius := radius s;
     position := position s; theta := theta s; neta := neta s;
     angular_velocity := angular_velocity s; speed := x;
     velocity := velocity s |}.

Definition set_velocity (x : loc) (s : ParticleSimulation)
  : ParticleSimulation :=
  {| width := width s; height := height s; radius := radius s;
     position := position s; theta := theta s; neta := neta s;
     angular_velocity := angular_velocity s; speed := speed s;
     velocity := x |}.

Definition at_wall (s : ParticleSimulation) (x y : R) : bool :=
  (Rleb (x - radius s) 0 || Rgeb (x + radius s) (width s))
  || Rleb (y - radius s) 0 || Rgeb (y + radius s) (height s).

Definition update_position : Prog unit :=
  s <- get_self ;;
  prev_position <- ndarray_copy (position s) ;;
  set_self (fun s => set_theta (theta s + angular_velocity s) s) ;;;
  s <- get_self ;;
  vel <- np_array2 (speed s * cos (theta s)) (speed s * sin (theta s)) ;;
  set_self (set_velocity vel) ;;;
  np_iadd (position s) vel ;;;
  x <- getitem (position s) 0 ;;
  y <- getitem (position s) 1 ;;
  when (at_wall s x y)
    (setitem vel 0 0 ;;;
     setitem vel 1 0 ;;;
     set_self (set_angular_velocity 0) ;;;
     set_self (set_speed 0)).

Definition animate : Prog unit := update_position.

Definition update_angular_velocity : Prog unit :=
  s <- get_self ;;
  a <- np_random_uniform (- neta s) (neta s) ;;
  set_self (set_angular_velocity a).

Inductive event : Type :=
| Animate
| UpdateAngularVelocity.

Definition handle (e : event) : Prog unit :=
  match e with
  | Animate => animate
  | UpdateAngularVelocity => update_angular_velocity
  end.

Definition run (es : list event) : Prog unit :=
  for_ es (fun e _ => handle e) tt.

End Simulation.

(** ** [script.py]: the stand-alone trajectory loop *)

Module Script.

Definition activity : R := 3.
Definition neta : R := 3.
Definition epsilon : R := 5 / 10.

(** [int(x)] on a float: truncation towards zero *)
Definition py_int (x : R) : Z :=
  if Rle_dec 0 x then Int_part x else (- Int_part (- x))%Z.

(** [x % y] on floats: the remainder of the floored quotient *)
Definition py_mod (x y : R) : result R :=
  if Req_dec_T y 0 then Raise ZeroDivisionError
  else Ok (x - y * IZR (Int_part (x / y))).

(** [np.linspace(start, stop, num)]: [num] evenly spaced samples, the last
    one set to [stop]. *)
Definition np_linspace (start stop : R) (num : nat) : list R :=
  match num with
  | O => []
  | S O => [start]
  | _ =>
      removelast
        (map (fun i => start + INR i * ((stop - start) / INR (num - 1)))
           (seq 0 num))
      ++ [stop]
  end.

(** What one round of the first loop concatenates to [time]:
    [np.linspace(i, i*10, int(number))[:-1]] *)
Definition time_segment (i : R) : list R :=
  let number := if Rge_dec i epsilon then i * 10 / epsilon else 10 in
  removelast (np_linspace i (i * 10) (Z.to_nat (py_int number))).

Definition time : list R :=
  fold_left (fun time i => time ++ time_segment i)
    [1 / 100; 1 / 10; 1; 10] []
  ++ [100].

(** The module-level variables of the second loop. *)
Record Globals : Type := {
  theta : R;
  angluar_velocity : R;
  x : list R;
  y : list R;
  msd : list R;
  prevTime : R
}.

Definition Prog : Type -> Type := M Globals.

Definition set_angluar_velocity (a : R) (g : Globals) : Globals :=
  {| theta := theta g; angluar_velocity := a; x := x g; y := y g;
     msd := msd g; prevTime := prevTime g |}.

(** The body of [for currTime in time:] *)
Definition step (currTime : R) : Prog unit :=
  g <- get_self ;;
  let dt := currTime - prevTime g in
  r <- lift (py_mod currTime epsilon) ;;
  when (if Req_dec_T r 0 then true else false)
    (a <- np_random_uniform (- neta) neta ;;
     set_self (set_angluar_velocity a)) ;;;
  g <- get_self ;;
  let dtheta := angluar_velocity g * dt in
  let theta' := theta g + dtheta in
  let x_dot := activity * cos theta' in
  let y_dot := activity * sin theta' in
  let dx := x_dot * dt in
  let dy := y_dot * dt in
  x_last <- index (x g) (length (x g) - 1) ;;
  y_last <- index (y g) (length (y g) - 1) ;;
  let x' := x g ++ [x_last + dx] in
  let y' := y g ++ [y_last + dy] in
  x_0 <- index x' 0 ;;
  y_0 <- index y' 0 ;;
  let sq := map (fun p => (fst p - x_0) ^ 2 + (snd p - y_0) ^ 2)
              (combine x' y') in
  set_self (fun _ =>
    {| theta := theta'; angluar_velocity := angluar_velocity g;
       x := x'; y := y'; msd := msd g ++ [np_mean sq];
       prevTime := currTime |}).

(** The second loop over a list of time points *)
Definition loop (times : list R) : Prog unit :=
  for_ times (fun currTime _ => step currTime) tt.

(** The variables as the script sets them before the second loop *)
Definition init : Prog unit :=
  a <- np_random_uniform (- neta) neta ;;
  set_self (fun _ =>
    {| theta := 0; angluar_velocity := a; x := [0]; y := [0]; msd := [];
       prevTime := 0 |}).

Definition main : Prog unit := init ;;; loop time.

End Script.

(** ** [sim_updated.py]: what [plot_msd] puts on the axes *)

Module SimUpdatedPlot.

(** A call that [plot_msd] makes on the matplotlib axes, with the data it
    passes.  Window and canvas set-up, labels, legend, the text beside the
    transition line and the save button are presentation and are left out;
    so is the test [hasattr(self, 'Dr_theoretical')], which holds whenever
    the plot button is enabled. *)
Inductive draw : Type :=
| Loglog (xs ys : list R)
| Axvline (x : R).

(** [np.log10(x)] for positive [x] *)
Definition np_log10 (x : R) : R := ln x / ln 10.

(** [np.logspace(start, stop, num)]: [10 ** np.linspace(start, stop, num)] *)
Definition np_logspace (start stop : R) (num : nat) : list R :=
  map (fun e => Rpower 10 e) (Script.np_linspace start stop num).

(** [xs[-1]] *)
Definition index_last {Obj A : Type} (xs : list A) : M Obj A :=
  index xs (length xs - 1).

(** [plot_msd] from the line after the call of [calculate_msd] on: the
    calls made on the axes, in order. *)
Definition plot_curves (tau_values msd_values : list R)
  : SimUpdated.Prog (list draw) :=
  let calls := [Loglog tau_values msd_values] in
  calls <-
    (if (0 <? length tau_values)%nat
     then
       t_0 <- index tau_values 0 ;;
       t_l <- index_last tau_values ;;
       let theoretical_times :=
         np_logspace (np_log10 t_0) (np_log10 t_l) 100 in
       theoretical_msd <-
         SimUpdated.calculate_theoretical_msd theoretical_times ;;
       ret (calls ++ [Loglog theoretical_times theoretical_msd])
     else ret calls) ;;
  s <- get_self ;;
  transition_time <- lift (py_div 1 (SimUpdated.Dr_theoretical s)) ;;
  t_0 <- index tau_values 0 ;;
  calls <-
    (if Rleb t_0 transition_time
     then
       t_l <- index_last tau_values ;;
       if Rleb transition_time t_l
       then ret (calls ++ [Axvline transition_time])
       else ret calls
     else ret calls) ;;
  t_0 <- index tau_values 0 ;;
  t_l <- index_last tau_values ;;
  let x_ref := [t_0; t_l] in
  calls <-
    (if (2 <? length msd_values)%nat
     then
       m_1 <- index msd_values 1 ;;
       t_1 <- index tau_values 1 ;;
       let ballistic_factor := m_1 / t_1 ^ 2 in
       ret (calls
            ++ [Loglog x_ref (map (fun x => ballistic_factor * x ^ 2) x_ref)])
     else ret calls) ;;
  (if (10 <? length msd_values)%nat
   then
     m_l <- index_last msd_values ;;
     t_l <- index_last tau_values ;;
     let diffusive_factor := m_l / t_l in
     ret (calls ++ [Loglog x_ref (map (fun x => diffusive_factor * x) x_ref)])
   else ret calls).

Definition plot_msd : SimUpdated.Prog (list draw) :=
  curve <- SimUpdated.calculate_msd ;;
  plot_curves (fst curve) (snd curve).

End SimUpdatedPlot.

(** ** The estimator as the specification words it

    These definitions follow the specification's description of [estimate];
    the theorems below compare them with [SimUpdated.calculate_msd]. *)

Module EstimateSpec.

(** "if [|d_axis| > domain_size_axis / 2], replace [d_axis] with
    [domain_size_axis - |d_axis|]" *)
Definition periodic_correction (size d : R) : R :=
  if Rgt_dec (Rabs d) (size / 2) then size - Rabs d else d.

(** The corrected displacement between two recorded positions. *)
Definition corrected_displacement (W H : R) (p q : vec2) : vec2 :=
  (periodic_correction W (fst p - fst q),
   periodic_correction H (snd p - snd q)).

(** "[sum(d_axis²)]" *)
Definition sum_sq (d : vec2) : R := fst d ^ 2 + snd d ^ 2.

(** "[mean(sum(d_axis²))] over all valid [i] for this [k]", the start
    indices being [0 .. n-k-1]. *)
Definition msd_value (W H : R) (ps : list vec2) (k : nat) : R :=
  let n := length ps in
  let terms :=
    map (fun i =>
           sum_sq (corrected_displacement W H
                     (nth (i + k) ps (0, 0)) (nth i ps (0, 0))))
        (seq 0 (n - k)) in
  fold_right Rplus 0 terms / INR (n - k).

(** "[τ_k = time[k] - time[0]]" *)
Definition lag_time (ts : list R) (k : nat) : R := nth k ts 0 - nth 0 ts 0.

End EstimateSpec.

(** ** Worlds *)

(** The same world with another heap. *)
Definition with_heap {Obj : Type} (w : world Obj) (h : list vec2) : world Obj :=
  World (self w) h (drawn w) (unit_samples w).

(** Every address in [ls] holds the corresponding array of [vs]. *)
Definition holds (h : list vec2) (ls : list loc) (vs : list vec2) : Prop :=
  Forall2 (fun l v => nth_error h l = Some v) ls vs.

(** The sample sequence a [sim_updated.py] world has recorded: the times of
    [time_points] paired with the contents of the arrays of
    [positions_history]. *)
Definition records (w : world SimUpdated.ParticleSimulation)
  (samples : list (R * vec2)) : Prop :=
  SimUpdated.time_points (self w) = map fst samples
  /\ holds (heap w) (SimUpdated.positions_history (self w)) (map snd samples).

(** Strictly increasing sequences of reals. *)
Fixpoint increasing (ts : list R) : Prop :=
  match ts with
  | [] => True
  | t :: ts' =>
      match ts' with
      | [] => True
      | t' :: _ => t < t' /\ increasing ts'
      end
  end.



(** ** Worlds used as instances *)

(** A [ParticleSimulation] of [sim_updated.py] as [__init__] leaves it:
    an 800 x 600 canvas, radius 5, [dt = 0.01], no run in progress.  The
    attributes that [__init__] sets to [None] or does not create carry
    placeholders here; [start_simulation] assigns every one of them before
    anything reads it. *)
Definition fresh_object : SimUpdated.ParticleSimulation :=
  {| SimUpdated.width := 800; SimUpdated.height := 600;
     SimUpdated.radius := 5; SimUpdated.dt := 1 / 100;
     SimUpdated.v := 0; SimUpdated.eta := 0; SimUpdated.epsilon := 0;
     SimUpdated.Dr_theoretical := 0; SimUpdated.position := 0%nat;
     SimUpdated.theta := 0; SimUpdated.angular_velocity := 0;
     SimUpdated.positions_history := []; SimUpdated.time_points := [];
     SimUpdated.current_time := 0; SimUpdated.update_counter := 0%nat;
     SimUpdated.next_noise_update := 0; SimUpdated.running := false |}.

Definition fresh_world : world SimUpdated.ParticleSimulation :=
  World fresh_object [] 0%nat (fun _ => 1 / 2).

(** A run of [sim_updated.py] with the default entries, twenty steps in,
    with three recorded samples; the particle has crossed the right and the
    bottom edge. *)
Definition example_samples : list (R * (R * R)) :=
  [(0, (400, 300)); (1 / 10, (799, 598)); (2 / 10, (1, 5))].

Definition example_object : SimUpdated.ParticleSimulation :=
  {| SimUpdated.width := 800; SimUpdated.height := 600;
     SimUpdated.radius := 5; SimUpdated.dt := 1 / 100;
     SimUpdated.v := 3; SimUpdated.eta := 3; SimUpdated.epsilon := 500;
     SimUpdated.Dr_theoretical := 3 ^ 2 / 6; SimUpdated.position := 0%nat;
     SimUpdated.theta := 0; SimUpdated.angular_velocity := 1;
     SimUpdated.positions_history := [1; 2; 3]%nat;
     SimUpdated.time_points := [0; 1 / 10; 2 / 10];
     SimUpdated.current_time := 2 / 10; SimUpdated.update_counter := 20%nat;
     SimUpdated.next_noise_update := 500; SimUpdated.running := true |}.

Definition example_world : world SimUpdated.ParticleSimulation :=
  World example_object [(1, 5); (400, 300); (799, 598); (1, 5)] 1%nat
    (fun _ => 1 / 2).

(** A [sim.py] particle heading straight for the right-hand wall of its
    600 x 400 canvas, one step away from it. *)
Definition sim_example_object : Sim.ParticleSimulation :=
  {| Sim.width := 600; Sim.height := 400; Sim.radius := 5;
     Sim.position := 0%nat; Sim.initial_position := 1%nat;
     Sim.positions_history := [3]%nat; Sim.time_steps := [0]%nat;
     Sim.current_time := 0%nat; Sim.msd_values := [0];
     Sim.theta := 0; Sim.neta := 1 / 10; Sim.angular_velocity := 0;
     Sim.speed := 4 / 10; Sim.velocity := 2%nat; Sim.running := true |}.

Definition sim_example_world : world Sim.ParticleSimulation :=
  World sim_example_object
    [(5949 / 10, 200); (300, 200); (4 / 10, 0); (300, 200)] 1%nat
    (fun _ => 1 / 2).



(** ** Runs of [sim_updated.py] *)

(** [n] firings of [animate], one after the other, as the event loop makes
    them. *)
Definition animate_times (n : nat) : SimUpdated.Prog unit :=
  for_ (seq 0 n) (fun _ _ => SimUpdated.animate) tt.

(** A point of the domain [[0, width] x [0, height]]. *)
Definition in_domain (s : SimUpdated.ParticleSimulation) (p : R * R) : Prop :=
  0 <= fst p <= SimUpdated.width s /\ 0 <= snd p <= SimUpdated.height s.

(** A step is no longer than the domain. *)
Definition modest_step (s : SimUpdated.ParticleSimulation) : Prop :=
  Rabs (SimUpdated.v s * SimUpdated.dt s) <= SimUpdated.width s
  /\ Rabs (SimUpdated.v s * SimUpdated.dt s) <= SimUpdated.height s.

(** What holds of a world in the middle of a run that [start_simulation]
    began when [d0] random samples had been consumed: the run is on; the
    world records [samples], none of them sharing its array with
    [self.position]; the recorded times start at 0, increase strictly and
    do not exceed [current_time]; the counters agree with one another; and
    [next_noise_update] is [epsilon] times the number of draws since the
    run began. *)
Definition run_state (d0 : nat) (w : world SimUpdated.ParticleSimulation)
  (samples : list (R * (R * R))) : Prop :=
  let s := self w in
  SimUpdated.running s = true
  /\ 0 < SimUpdated.dt s
  /\ records w samples
  /\ ~ In (SimUpdated.position s) (SimUpdated.positions_history s)
  /\ (exists pv,
         nth_error (heap w) (SimUpdated.position s) = Some pv
         /\ (modest_step s -> in_domain s pv))
  /\ (modest_step s -> Forall (in_domain s) (map snd samples))
  /\ increasing (map fst samples)
  /\ Forall (fun t => t <= SimUpdated.current_time s) (map fst samples)
  /\ nth_error (map fst samples) 0 = Some 0
  /\ SimUpdated.current_time s
     = INR (SimUpdated.update_counter s) * SimUpdated.dt s
  /\ length samples = (1 + SimUpdated.update_counter s / 10)%nat
  /\ SimUpdated.next_noise_update s
     = INR (drawn w - d0) * SimUpdated.epsilon s
  /\ (d0 < drawn w)%nat.

(** [example_world] with every recorded position moved by (1/2, 1). *)
Definition example_world_shifted : world SimUpdated.ParticleSimulation :=
  World example_object
    [(1, 5); (400 + 1 / 2, 300 + 1); (799 + 1 / 2, 598 + 1);
     (1 + 1 / 2, 5 + 1)] 1%nat (fun _ => 1 / 2).

(** Three samples of a particle that moves by (3, 4) from one sample to the
    next. *)
Definition uniform_samples : list (R * (R * R)) :=
  [(0, (100 + INR 0 * 3, 100 + INR 0 * 4));
   (1 / 10, (100 + INR 1 * 3, 100 + INR 1 * 4));
   (2 / 10, (100 + INR 2 * 3, 100 + INR 2 * 4))].

Definition uniform_world : world SimUpdated.ParticleSimulation :=
  World example_object
    [(100 + INR 2 * 3, 100 + INR 2 * 4);
     (100 + INR 0 * 3, 100 + INR 0 * 4);
     (100 + INR 1 * 3, 100 + INR 1 * 4);
     (100 + INR 2 * 3, 100 + INR 2 * 4)] 1%nat (fun _ => 1 / 2).

(** A run stopped before its tenth step: one sample. *)
Definition one_sample_world : world SimUpdated.ParticleSimulation :=
  World
    (SimUpdated.set_time_points [0]
       (SimUpdated.set_positions_history [1%nat] example_object))
    [(1, 5); (400, 300)] 1%nat (fun _ => 1 / 2).

(** [example_world] for a run started with noise 0. *)
Definition zero_noise_world : world SimUpdated.ParticleSimulation :=
  World (SimUpdated.set_Dr_theoretical 0 example_object)
    [(1, 5); (400, 300); (799, 598); (1, 5)] 1%nat (fun _ => 1 / 2).

(** ** Entries *)

(** A number typed into an entry field whose square, thousandfold and
    double are floats too: magnitude at most 1e100.  (Beyond about 1.3e154
    [self.eta**2] raises [OverflowError], which [start_simulation] does
    not catch.) *)
Definition modest_entry (x : R) : Prop := Rabs x <= 10 ^ 100.

(** ** Runs of [sim.py] *)

(** The squared distance of [p] from [q]. *)
Definition sq_dist (p q : R * R) : R :=
  (fst p - fst q) ^ 2 + (snd p - snd q) ^ 2.

(** What holds of a [sim.py] object between two events: it has recorded the
    positions [v0 :: vs] in arrays of their own, none of them shared with
    [self.position]; [self.initial_position] is an array of its own that
    still holds [v0]; the step numbers recorded are 0, 1, ... up to
    [current_time]; and [msd_values] holds 0 followed by the squared
    distance from [v0] of each later position. *)
Definition sim_history (w : world Sim.ParticleSimulation) (v0 : R * R)
  (vs : list (R * R)) : Prop :=
  let s := self w in
  holds (heap w) (Sim.positions_history s) (v0 :: vs)
  /\ ~ In (Sim.position s) (Sim.positions_history s)
  /\ Sim.position s <> Sim.initial_position s
  /\ (Sim.position s < length (heap w))%nat
  /\ nth_error (heap w) (Sim.initial_position s) = Some v0
  /\ Sim.time_steps s = seq 0 (S (length vs))
  /\ Sim.current_time s = length vs
  /\ Sim.msd_values s = 0 :: map (fun v => sq_dist v v0) vs.

(** The object a program gets from [ParticleSimulation(root)], and what the
    event loop then makes of it. *)
Definition sim_session (es : list Sim.event) : Sim.Prog unit :=
  Sim.new ;;; Sim.run es.

(** * Properties *)

(** ** Running programs *)

Lemma bind_ok {Obj A B : Type} (m : M Obj A) (k : A -> M Obj B) w a w' :
  m w = (Ok a, w') -> bind m k w = k a w'.
Proof. intros E. unfold bind. now rewrite E. Qed.

Lemma nth_error_snoc {A : Type} (h : list A) (v : A) :
  nth_error (h ++ [v]) (length h) = Some v.
Proof. induction h; simpl; auto. Qed.

Lemma nth_error_old {A : Type} (h ext : list A) (l : nat) (v : A) :
  nth_error h l = Some v -> nth_error (h ++ ext) l = Some v.
Proof.
  intros E. rewrite nth_error_app1; auto.
  apply nth_error_Some. congruence.
Qed.

Lemma update_snoc (h : list vec2) (v v' : vec2) :
  update (h ++ [v]) (length h) v' = h ++ [v'].
Proof. induction h; simpl; congruence. Qed.

Lemma update_length (h : list vec2) l v : length (update h l v) = length h.
Proof.
  revert l; induction h; intros [|l]; simpl; auto.
Qed.

Lemma update_same (h : list vec2) l v :
  (l < length h)%nat -> nth_error (update h l v) l = Some v.
Proof.
  revert l; induction h; intros [|l]; simpl; intros; try lia; auto.
  apply IHh. lia.
Qed.

Lemma update_other (h : list vec2) l l' v :
  l <> l' -> nth_error (update h l v) l' = nth_error h l'.
Proof.
  revert l l'; induction h; intros [|l] [|l']; simpl; intros; auto; try lia.
Qed.

Lemma load_ok {Obj : Type} (w : world Obj) l v :
  nth_error (heap w) l = Some v -> load l w = (Ok v, w).
Proof. intros E. unfold load. now rewrite E. Qed.

Lemma store_ok {Obj : Type} (w : world Obj) l v :
  (l < length (heap w))%nat ->
  store l v w = (Ok tt, with_heap w (update (heap w) l v)).
Proof.
  intros L. unfold store.
  destruct (Nat.ltb_spec l (length (heap w))); [reflexivity | lia].
Qed.

Lemma holds_ext h ext ls vs : holds h ls vs -> holds (h ++ ext) ls vs.
Proof.
  unfold holds. induction 1; constructor; auto using nth_error_old.
Qed.

Lemma holds_nth h ls vs i l :
  holds h ls vs -> nth_error ls i = Some l ->
  nth_error h l = Some (nth i vs (0, 0)).
Proof.
  intros Hh. revert i. induction Hh; intros [|i]; simpl; try discriminate.
  - intros [= <-]. assumption.
  - apply IHHh.
Qed.

Lemma holds_length h ls vs : holds h ls vs -> length ls = length vs.
Proof. induction 1; simpl; congruence. Qed.

(** ** Running the primitives *)

Lemma ret_ok {Obj A : Type} (a : A) (w : world Obj) : ret a w = (Ok a, w).
Proof. reflexivity. Qed.

Lemma get_self_ok {Obj : Type} (w : world Obj) : get_self w = (Ok (self w), w).
Proof. reflexivity. Qed.

Lemma alloc_ok {Obj : Type} (w : world Obj) v :
  alloc v w = (Ok (length (heap w)), with_heap w (heap w ++ [v])).
Proof. reflexivity. Qed.

Lemma index_ok {Obj A : Type} (xs : list A) i x (w : world Obj) :
  nth_error xs i = Some x -> index xs i w = (Ok x, w).
Proof. intros E. unfold index. now rewrite E. Qed.

Lemma getitem_ok {Obj : Type} (w : world Obj) l v i :
  nth_error (heap w) l = Some v -> (i < 2)%nat ->
  getitem l i w = (Ok (if (i =? 0)%nat then fst v else snd v), w).
Proof.
  intros E L. unfold getitem. rewrite (bind_ok _ _ _ _ _ (load_ok _ _ _ E)).
  destruct i as [|[|i]]; try lia; reflexivity.
Qed.

Lemma setitem_ok {Obj : Type} (w : world Obj) l v i x :
  nth_error (heap w) l = Some v -> (i < 2)%nat ->
  setitem l i x w
  = (Ok tt, with_heap w (update (heap w) l
                           (if (i =? 0)%nat then (x, snd v) else (fst v, x)))).
Proof.
  intros E L. unfold setitem. rewrite (bind_ok _ _ _ _ _ (load_ok _ _ _ E)).
  assert (l < length (heap w))%nat by (apply nth_error_Some; congruence).
  destruct i as [|[|i]]; try lia; now apply store_ok.
Qed.

Lemma np_sub_ok {Obj : Type} (w : world Obj) a b va vb :
  nth_error (heap w) a = Some va -> nth_error (heap w) b = Some vb ->
  np_sub a b w
  = (Ok (length (heap w)),
     with_heap w (heap w ++ [(fst va - fst vb, snd va - snd vb)])).
Proof.
  intros Ea Eb. unfold np_sub.
  rewrite (bind_ok _ _ _ _ _ (load_ok _ _ _ Ea)).
  rewrite (bind_ok _ _ _ _ _ (load_ok _ _ _ Eb)).
  reflexivity.
Qed.

Lemma np_square_ok {Obj : Type} (w : world Obj) a va :
  nth_error (heap w) a = Some va ->
  np_square a w
  = (Ok (length (heap w)), with_heap w (heap w ++ [(fst va ^ 2, snd va ^ 2)])).
Proof.
  intros Ea. unfold np_square.
  now rewrite (bind_ok _ _ _ _ _ (load_ok _ _ _ Ea)).
Qed.

Lemma np_sum_ok {Obj : Type} (w : world Obj) a va :
  nth_error (heap w) a = Some va -> np_sum a w = (Ok (fst va + snd va), w).
Proof.
  intros Ea. unfold np_sum.
  now rewrite (bind_ok _ _ _ _ _ (load_ok _ _ _ Ea)).
Qed.

Ltac heap_lookup :=
  cbn [heap with_heap self drawn unit_samples];
  rewrite ?update_snoc;
  first [ eassumption
        | apply nth_error_snoc
        | apply nth_error_old; eassumption ].

Ltac step_with lem :=
  erewrite bind_ok; [ | solve [ lem ] ].

(** ** The estimator of [sim_updated.py] *)

(** One pair of rows: the displacement array is allocated at the end of the
    heap, corrected in place, squared into a second fresh array and summed.
    Nothing that was on the heap before is written. *)
Lemma squared_displacement_run (w : world SimUpdated.ParticleSimulation)
  (positions : list loc) (k i : nat) (a b : loc) (pa pb : vec2) :
  nth_error positions (i + k) = Some a ->
  nth_error positions i = Some b ->
  nth_error (heap w) a = Some pa ->
  nth_error (heap w) b = Some pb ->
  let d := EstimateSpec.corrected_displacement
             (SimUpdated.width (self w)) (SimUpdated.height (self w)) pa pb in
  SimUpdated.squared_displacement positions k i w
  = (Ok (EstimateSpec.sum_sq d),
     with_heap w (heap w ++ [d; (fst d ^ 2, snd d ^ 2)])).
Proof.
  intros Ea Eb Ha Hb d.
  unfold SimUpdated.squared_displacement.
  rewrite (bind_ok _ _ _ _ _ (index_ok _ _ _ _ Ea)).
  rewrite (bind_ok _ _ _ _ _ (index_ok _ _ _ _ Eb)).
  rewrite (bind_ok _ _ _ _ _ (np_sub_ok _ _ _ _ _ Ha Hb)).
  rewrite (bind_ok _ _ _ _ _ (get_self_ok _)).
  step_with ltac:(apply getitem_ok; [heap_lookup | lia]).
  subst d.
  unfold EstimateSpec.corrected_displacement, EstimateSpec.sum_sq,
    EstimateSpec.periodic_correction, Rgtb, when.
  cbn [self with_heap fst snd Nat.eqb heap].
  set (W := SimUpdated.width (self w)). set (H := SimUpdated.height (self w)).
  destruct (Rgt_dec (Rabs (fst pa - fst pb)) (W / 2));
    [ step_with ltac:(apply setitem_ok; [heap_lookup | lia])
    | rewrite (bind_ok _ _ _ _ _ (ret_ok _ _)) ];
    (step_with ltac:(apply getitem_ok; [heap_lookup | lia]));
    cbn [self with_heap fst snd Nat.eqb heap];
    (destruct (Rgt_dec (Rabs (snd pa - snd pb)) (H / 2));
     [ step_with ltac:(apply setitem_ok; [heap_lookup | lia])
     | rewrite (bind_ok _ _ _ _ _ (ret_ok _ _)) ]);
    (step_with ltac:(apply np_square_ok; heap_lookup));
    (erewrite np_sum_ok by heap_lookup);
    cbn [self with_heap fst snd Nat.eqb heap];
    rewrite ?update_snoc;
    unfold with_heap; cbn [self heap drawn unit_samples];
    rewrite <- ?app_assoc; reflexivity.
Qed.


Lemma nth_error_within {A : Type} (xs : list A) i d :
  (i < length xs)%nat -> nth_error xs i = Some (nth i xs d).
Proof. intros L. now apply nth_error_nth'. Qed.

(** The inner loop over the start indices. *)
Lemma inner_loop_run (positions : list loc) (ps : list vec2) (k : nat)
  (idx : list nat) :
  Forall (fun i => (i + k < length positions)%nat) idx ->
  forall (w : world SimUpdated.ParticleSimulation) (sds : list R),
  holds (heap w) positions ps ->
  exists ext,
    for_ idx
      (fun i sds =>
         sd <- SimUpdated.squared_displacement positions k i ;;
         ret (sds ++ [sd])) sds w
    = (Ok (sds ++
           map (fun i =>
                  EstimateSpec.sum_sq
                    (EstimateSpec.corrected_displacement
                       (SimUpdated.width (self w)) (SimUpdated.height (self w))
                       (nth (i + k) ps (0, 0)) (nth i ps (0, 0)))) idx),
       with_heap w (heap w ++ ext)).
Proof.
  induction 1 as [|i idx Hi _ IH]; intros w sds Hh.
  - exists []. cbn. rewrite !app_nil_r. now destruct w.
  - assert (Li : (i < length positions)%nat) by lia.
    pose proof (nth_error_within positions _ 0%nat Hi) as Ea.
    pose proof (nth_error_within positions _ 0%nat Li) as Eb.
    pose proof (holds_nth _ _ _ _ _ Hh Ea) as Ha.
    pose proof (holds_nth _ _ _ _ _ Hh Eb) as Hb.
    cbn [for_].
    rewrite (bind_ok _ _ _ _ _
               (bind_ok _ _ _ _ _
                  (squared_displacement_run _ _ _ _ _ _ _ _ Ea Eb Ha Hb))).
    match goal with
    | |- context [with_heap w (heap w ++ ?e)] => set (e1 := e)
    end.
    destruct (IH (with_heap w (heap w ++ e1))
                 (sds ++ [EstimateSpec.sum_sq
                            (EstimateSpec.corrected_displacement
                               (SimUpdated.width (self w))
                               (SimUpdated.height (self w))
                               (nth (i + k) ps (0, 0)) (nth i ps (0, 0)))]))
      as [ext E].
    { cbn [heap with_heap]. now apply holds_ext. }
    exists (e1 ++ ext). rewrite E.
    cbn [self heap with_heap map]. rewrite <- !app_assoc. reflexivity.
Qed.

Lemma holds_fresh (ps : list vec2) :
  forall h, holds (h ++ ps) (seq (length h) (length ps)) ps.
Proof.
  induction ps as [|p ps IH]; intros h; cbn.
  - constructor.
  - constructor.
    + rewrite nth_error_app2 by lia. now rewrite Nat.sub_diag.
    + specialize (IH (h ++ [p])).
      rewrite <- app_assoc, length_app in IH. cbn in IH.
      now rewrite Nat.add_1_r in IH.
Qed.

Lemma np_array_run {Obj : Type} (rows : list loc) (ps : list vec2) :
  forall (w : world Obj),
  holds (heap w) rows ps ->
  np_array rows w
  = (Ok (seq (length (heap w)) (length rows)), with_heap w (heap w ++ ps)).
Proof.
  revert ps. induction rows as [|r rows IH]; intros ps w Hh.
  - inversion Hh; subst. cbn. rewrite app_nil_r. now destruct w.
  - inversion Hh as [|? p ? ps' Hr Hrest]; subst.
    cbn [np_array]. unfold ndarray_copy.
    rewrite (bind_ok _ _ _ _ _
               (eq_trans (bind_ok _ _ _ _ _ (load_ok _ _ _ Hr))
                         (alloc_ok _ _))).
    erewrite bind_ok; [ | apply IH; cbn [heap with_heap];
                          apply holds_ext; eassumption ].
    cbn [heap with_heap length seq ret]. unfold ret.
    rewrite length_app, Nat.add_1_r, <- app_assoc. reflexivity.
Qed.


(** The outer loop over the lag indices. *)
Lemma outer_loop_run (positions : list loc) (ps : list vec2) (times : list R)
  (ks : list nat) :
  Forall (fun k => (1 <= k < length positions)%nat
                   /\ (k < length times)%nat) ks ->
  forall (w : world SimUpdated.ParticleSimulation) (acc : list R * list R),
  holds (heap w) positions ps ->
  exists ext,
    for_ ks
      (fun tau_idx acc =>
         let '(tau_values, msd_values) := acc in
         t_k <- index times tau_idx ;;
         t_0 <- index times 0 ;;
         let tau := t_k - t_0 in
         squared_displacements <-
           for_ (range 0 (length positions - tau_idx))
             (fun i sds =>
                sd <- SimUpdated.squared_displacement positions tau_idx i ;;
                ret (sds ++ [sd]))
             [] ;;
         match squared_displacements with
         | [] => ret (tau_values, msd_values)
         | _ :: _ =>
             let msd := np_mean squared_displacements in
             ret (tau_values ++ [tau], msd_values ++ [msd])
         end) acc w
    = (Ok (fst acc ++ map (EstimateSpec.lag_time times) ks,
           snd acc ++
           map (EstimateSpec.msd_value (SimUpdated.width (self w))
                  (SimUpdated.height (self w)) ps) ks),
       with_heap w (heap w ++ ext)).
Proof.
  induction 1 as [|k ks [[Hk1 Hk2] Hk3] _ IH]; intros w [tv mv] Hh.
  - exists []. cbn. rewrite !app_nil_r. now destruct w.
  - cbn [for_ fst snd].
    pose proof (holds_length _ _ _ Hh) as Hlen.
    assert (Forall (fun i => (i + k < length positions)%nat)
              (range 0 (length positions - k))) as Hidx.
    { apply Forall_forall. intros i Hi. unfold range in Hi.
      apply in_seq in Hi. lia. }
    destruct (inner_loop_run positions ps k _ Hidx w [] Hh) as [e1 E1].
    remember (length positions - k)%nat as m eqn:Em.
    destruct m as [|m]; [lia|].
    erewrite bind_ok.
    2:{ rewrite (bind_ok _ _ _ _ _
                   (index_ok _ _ _ _ (nth_error_within times k 0 Hk3))).
        rewrite (bind_ok _ _ _ _ _
                   (index_ok _ _ _ _
                      (nth_error_within times 0%nat 0 ltac:(lia)))).
        rewrite (bind_ok _ _ _ _ _ E1).
        unfold range. rewrite Nat.sub_0_r. cbn [seq map app].
        apply ret_ok. }
    match goal with
    | |- context [for_ ks _ ?a ?w1] =>
        destruct (IH w1 a) as [ext E]
    end.
    { cbn [heap with_heap]. now apply holds_ext. }
    exists (e1 ++ ext). etransitivity; [exact E|].
    cbn [self heap with_heap map fst snd]. rewrite <- !app_assoc.
    unfold EstimateSpec.lag_time at 2.
    unfold EstimateSpec.msd_value at 2.
    rewrite <- Hlen, <- Em.
    unfold np_mean. cbn [app].
    replace (length _) with (S m); [reflexivity|].
    cbn [length]. now rewrite length_map, length_seq.
Qed.

(** The whole estimator. *)
Lemma calculate_msd_run (w : world SimUpdated.ParticleSimulation)
  (samples : list (R * vec2)) :
  records w samples ->
  exists ext,
    SimUpdated.calculate_msd w
    = (Ok (map (EstimateSpec.lag_time (map fst samples))
             (range 1 (Nat.min (length samples) 1000)),
           map (EstimateSpec.msd_value (SimUpdated.width (self w))
                  (SimUpdated.height (self w)) (map snd samples))
             (range 1 (Nat.min (length samples) 1000))),
       with_heap w (heap w ++ ext)).
Proof.
  intros [Ht Hp].
  pose proof (holds_length _ _ _ Hp) as Hlen. rewrite length_map in Hlen.
  unfold SimUpdated.calculate_msd.
  rewrite (bind_ok _ _ _ _ _ (get_self_ok _)).
  rewrite (bind_ok _ _ _ _ _ (np_array_run _ _ _ Hp)).
  cbv zeta. rewrite length_seq, Hlen, Ht.
  set (rows := seq _ _).
  assert (Hrows : @length loc rows = length samples)
    by (unfold rows; apply length_seq).
  destruct (outer_loop_run rows (map snd samples) (map fst samples)
              (range 1 (Nat.min (length samples) 1000)))
    with (w := with_heap w (heap w ++ map snd samples))
         (acc := (@nil R, @nil R)) as [ext E].
  - apply Forall_forall. intros k Hk. unfold range in Hk.
    apply in_seq in Hk. cbv beta. rewrite Hrows, length_map. lia.
  - cbn [heap with_heap]. unfold rows. rewrite <- Hlen.
    replace (length (SimUpdated.positions_history (self w)))
      with (length (map snd samples))
      by (rewrite length_map; lia).
    apply holds_fresh.
  - exists (map snd samples ++ ext).
    rewrite Hrows in E. etransitivity; [exact E|].
    cbn [self heap with_heap fst snd app]. rewrite <- app_assoc.
    reflexivity.
Qed.

(** ** The time grid and the loop body of [script.py] *)

Lemma Int_part_eq (r : R) (z : Z) : IZR z <= r < IZR z + 1 -> Int_part r = z.
Proof.
  intros [H1 H2]. symmetry. apply Int_part_spec. lra.
Qed.

Lemma py_int_20 : Script.py_int (1 * 10 / Script.epsilon) = 20%Z.
Proof.
  unfold Script.py_int, Script.epsilon.
  destruct (Rle_dec 0 (1 * 10 / (5 / 10))) as [_|N].
  - apply Int_part_eq. lra.
  - exfalso. apply N. lra.
Qed.

Lemma segment_1 :
  Script.time_segment 1 = removelast (Script.np_linspace 1 (1 * 10) 20).
Proof.
  unfold Script.time_segment.
  destruct (Rge_dec 1 Script.epsilon) as [_|N].
  - now rewrite py_int_20.
  - exfalso. apply N. unfold Script.epsilon. lra.
Qed.


Lemma segment_small (i : R) :
  i < Script.epsilon ->
  Script.time_segment i = removelast (Script.np_linspace i (i * 10) 10).
Proof.
  intros L. unfold Script.time_segment.
  destruct (Rge_dec i Script.epsilon) as [G|_]; [lra|].
  replace (Script.py_int 10) with 10%Z; [reflexivity|].
  unfold Script.py_int. destruct (Rle_dec 0 10) as [_|N]; [|lra].
  symmetry. apply Int_part_eq. lra.
Qed.

Lemma time_18_20 :
  nth_error Script.time 18 = Some 1
  /\ nth_error Script.time 19 = Some (1 + 1 * (9 / 19))
  /\ nth_error Script.time 20 = Some (1 + 2 * (9 / 19)).
Proof.
  unfold Script.time. cbn [fold_left app].
  rewrite !segment_small by (unfold Script.epsilon; lra).
  rewrite segment_1.
  repeat split.
  - cbn. f_equal. lra.
  - cbn. f_equal. lra.
  - cbn. f_equal. lra.
Qed.

Lemma index_ret {Obj A : Type} (xs : list A) i a :
  nth_error xs i = Some a -> @index Obj A xs i = ret a.
Proof. intros E. unfold index. now rewrite E. Qed.

Lemma nth_error_last {A : Type} (xs : list A) (d : A) :
  xs <> [] -> nth_error xs (length xs - 1) = Some (last xs d).
Proof.
  induction xs as [|a [|b xs] IH]; intros N; try congruence; [reflexivity|].
  specialize (IH ltac:(congruence)).
  replace (length (a :: b :: xs) - 1)%nat with (S (length (b :: xs) - 1))
    by (cbn [length]; lia).
  exact IH.
Qed.

Lemma nth_error_head_app {A : Type} (xs ys : list A) (d : A) :
  xs <> [] -> nth_error (xs ++ ys) 0 = Some (hd d xs).
Proof. destruct xs; [congruence | reflexivity]. Qed.

Lemma script_step_run (w : world Script.Globals) (t r : R) :
  Script.py_mod t Script.epsilon = Ok r ->
  Script.x (self w) <> [] -> Script.y (self w) <> [] ->
  exists w',
    Script.step t w = (Ok tt, w')
    /\ (r = 0 ->
        drawn w' = S (drawn w)
        /\ Script.angluar_velocity (self w')
           = - Script.neta
             + (Script.neta - - Script.neta) * unit_samples w (drawn w))
    /\ (r <> 0 ->
        drawn w' = drawn w
        /\ Script.angluar_velocity (self w')
           = Script.angluar_velocity (self w)).
Proof.
  intros Hr Hx Hy. unfold Script.step.
  rewrite (bind_ok _ _ _ _ _ (get_self_ok _)).
  unfold lift at 1. unfold bind at 1. rewrite Hr.
  destruct (Req_dec_T r 0) as [Z|NZ]; unfold when;
    cbn -[index];
    rewrite (index_ret _ _ _ (nth_error_last _ 0 Hx));
    rewrite (index_ret _ _ _ (nth_error_last _ 0 Hy));
    cbn -[index];
    rewrite (index_ret _ _ _ (nth_error_head_app _ _ 0 Hx));
    rewrite (index_ret _ _ _ (nth_error_head_app _ _ 0 Hy));
    cbn; eexists; (split; [reflexivity|]); split; intros; try contradiction;
    split; reflexivity.
Qed.

(** ** The trajectory generator of [sim_updated.py] *)

Lemma update_id (h : list vec2) l v :
  nth_error h l = Some v -> update h l v = h.
Proof.
  revert l; induction h as [|c h IH]; intros [|l]; cbn; try congruence.
  intros E. f_equal. now apply IH.
Qed.

Lemma update_update (h : list vec2) l v v' :
  update (update h l v) l v' = update h l v'.
Proof.
  revert l; induction h as [|c h IH]; intros [|l]; cbn; congruence.
Qed.

Lemma update_app (h ext : list vec2) l v :
  (l < length h)%nat -> update (h ++ ext) l v = update h l v ++ ext.
Proof.
  revert l; induction h as [|c h IH]; intros [|l]; cbn; intros; try lia; auto.
  f_equal. apply IH. lia.
Qed.

Lemma with_heap_id {Obj : Type} (w : world Obj) : with_heap w (heap w) = w.
Proof. now destruct w. Qed.

Lemma attr_ok {A : Type} (f : SimUpdated.ParticleSimulation -> A) w :
  SimUpdated.attr f w = (Ok (f (self w)), w).
Proof. reflexivity. Qed.

Lemma np_scale_ok {Obj : Type} (w : world Obj) a va c :
  nth_error (heap w) a = Some va ->
  np_scale a c w
  = (Ok (length (heap w)), with_heap w (heap w ++ [(fst va * c, snd va * c)])).
Proof.
  intros Ea. unfold np_scale.
  now rewrite (bind_ok _ _ _ _ _ (load_ok _ _ _ Ea)).
Qed.

Lemma np_iadd_ok {Obj : Type} (w : world Obj) a b va vb :
  nth_error (heap w) a = Some va -> nth_error (heap w) b = Some vb ->
  np_iadd a b w
  = (Ok tt, with_heap w (update (heap w) a (fst va + fst vb, snd va + snd vb))).
Proof.
  intros Ea Eb. unfold np_iadd.
  rewrite (bind_ok _ _ _ _ _ (load_ok _ _ _ Ea)).
  rewrite (bind_ok _ _ _ _ _ (load_ok _ _ _ Eb)).
  apply store_ok. apply nth_error_Some. congruence.
Qed.

Lemma ndarray_copy_ok {Obj : Type} (w : world Obj) a va :
  nth_error (heap w) a = Some va ->
  ndarray_copy a w = (Ok (length (heap w)), with_heap w (heap w ++ [va])).
Proof.
  intros Ea. unfold ndarray_copy.
  now rewrite (bind_ok _ _ _ _ _ (load_ok _ _ _ Ea)).
Qed.

(** The array [self.position] after the periodic rule on coordinate [i]. *)
Lemma wrap_axis_run (w : world SimUpdated.ParticleSimulation) (i : nat)
  (size : R) (pv : vec2) :
  nth_error (heap w) (SimUpdated.position (self w)) = Some pv ->
  (i < 2)%nat ->
  SimUpdated.wrap_axis i size w
  = (Ok tt,
     with_heap w
       (update (heap w) (SimUpdated.position (self w))
          (if (i =? 0)%nat
           then (SimUpdated.wrapped size (fst pv), snd pv)
           else (fst pv, SimUpdated.wrapped size (snd pv))))).
Proof.
  intros E L. unfold SimUpdated.wrap_axis.
  rewrite (bind_ok _ _ _ _ _ (attr_ok _ _)).
  rewrite (bind_ok _ _ _ _ _ (getitem_ok _ _ _ _ E L)).
  unfold SimUpdated.wrapped, Rltb, Rgtb.
  destruct i as [|[|i]]; try lia; cbn [Nat.eqb fst snd].
  - destruct (Rlt_dec (fst pv) 0); [now rewrite (setitem_ok _ _ _ _ _ E L)|].
    destruct (Rgt_dec (fst pv) size); [now rewrite (setitem_ok _ _ _ _ _ E L)|].
    rewrite <- surjective_pairing, (update_id _ _ _ E), with_heap_id.
    reflexivity.
  - destruct (Rlt_dec (snd pv) 0); [now rewrite (setitem_ok _ _ _ _ _ E L)|].
    destruct (Rgt_dec (snd pv) size); [now rewrite (setitem_ok _ _ _ _ _ E L)|].
    rewrite <- surjective_pairing, (update_id _ _ _ E), with_heap_id.
    reflexivity.
Qed.

(** One call of [update_position]: the heading, the array [self.position]
    written in place, and the three arrays the call allocates. *)
Lemma update_position_run (w : world SimUpdated.ParticleSimulation)
  (pv : vec2) :
  nth_error (heap w) (SimUpdated.position (self w)) = Some pv ->
  let s := self w in
  let th := SimUpdated.theta s
            + SimUpdated.angular_velocity s * SimUpdated.dt s in
  let vel := (SimUpdated.v s * cos th, SimUpdated.v s * sin th) in
  let stp := (fst vel * SimUpdated.dt s, snd vel * SimUpdated.dt s) in
  SimUpdated.update_position w
  = (Ok tt,
     World (SimUpdated.set_theta th s)
       (update (heap w) (SimUpdated.position s)
          (SimUpdated.wrapped (SimUpdated.width s) (fst pv + fst stp),
           SimUpdated.wrapped (SimUpdated.height s) (snd pv + snd stp))
        ++ [pv; vel; stp])
       (drawn w) (unit_samples w)).
Proof.
  intros E s th vel stp.
  assert (L : (SimUpdated.position s < length (heap w))%nat)
    by (apply nth_error_Some; fold s in E; congruence).
  unfold SimUpdated.update_position.
  rewrite (bind_ok _ _ _ _ _ (attr_ok _ _)).
  rewrite (bind_ok _ _ _ _ _ (ndarray_copy_ok _ _ _ E)).
  unfold set_self at 1. unfold bind at 1.
  rewrite (bind_ok _ _ _ _ _ (get_self_ok _)).
  unfold np_array2. rewrite (bind_ok _ _ _ _ _ (alloc_ok _ _)).
  cbn [self heap with_heap drawn unit_samples SimUpdated.set_theta
       SimUpdated.v SimUpdated.theta SimUpdated.dt SimUpdated.width
       SimUpdated.height SimUpdated.position].
  fold s th. fold vel.
  erewrite bind_ok;
    [ | apply np_scale_ok; cbn [heap with_heap]; apply nth_error_snoc ].
  fold stp.
  erewrite bind_ok;
    [ | apply np_iadd_ok; cbn [heap with_heap];
        [ rewrite <- !app_assoc; apply nth_error_old; exact E
        | apply nth_error_snoc ] ].
  cbn [heap with_heap self].
  erewrite bind_ok;
    [ | apply wrap_axis_run;
        [ cbn [heap with_heap self SimUpdated.position SimUpdated.set_theta];
          apply update_same; rewrite !length_app; lia
        | lia ] ].
  erewrite wrap_axis_run;
    [ | cbn [heap with_heap self SimUpdated.position SimUpdated.set_theta];
        apply update_same; rewrite update_length, !length_app; lia
      | lia ].
  cbn [heap with_heap self SimUpdated.position SimUpdated.set_theta Nat.eqb
       fst snd drawn unit_samples].
  rewrite ?update_update, <- ?app_assoc.
  unfold with_heap; cbn [self heap drawn unit_samples].
  rewrite update_app by exact L. reflexivity.
Qed.

(** One firing of [animate] on a running simulation. *)
Lemma animate_run (w : world SimUpdated.ParticleSimulation) (pv : vec2) :
  SimUpdated.running (self w) = true ->
  nth_error (heap w) (SimUpdated.position (self w)) = Some pv ->
  let s := self w in
  let th := SimUpdated.theta s
            + SimUpdated.angular_velocity s * SimUpdated.dt s in
  let t' := SimUpdated.current_time s + SimUpdated.dt s in
  exists w',
    SimUpdated.animate w = (Ok tt, w')
    /\ (SimUpdated.width (self w') = SimUpdated.width s
        /\ SimUpdated.height (self w') = SimUpdated.height s
        /\ SimUpdated.dt (self w') = SimUpdated.dt s
        /\ SimUpdated.v (self w') = SimUpdated.v s
        /\ SimUpdated.eta (self w') = SimUpdated.eta s
        /\ SimUpdated.epsilon (self w') = SimUpdated.epsilon s
        /\ SimUpdated.Dr_theoretical (self w') = SimUpdated.Dr_theoretical s
        /\ SimUpdated.position (self w') = SimUpdated.position s
        /\ SimUpdated.running (self w') = true
        /\ unit_samples w' = unit_samples w)
    /\ SimUpdated.theta (self w') = th
    /\ SimUpdated.current_time (self w') = t'
    /\ SimUpdated.update_counter (self w')
       = (SimUpdated.update_counter s + 1)%nat
    /\ nth_error (heap w') (SimUpdated.position s)
       = Some (SimUpdated.wrapped (SimUpdated.width s)
                 (fst pv + SimUpdated.v s * cos th * SimUpdated.dt s),
               SimUpdated.wrapped (SimUpdated.height s)
                 (snd pv + SimUpdated.v s * sin th * SimUpdated.dt s))
    /\ (t' * 1000 >= SimUpdated.next_noise_update s ->
        SimUpdated.angular_velocity (self w')
        = - SimUpdated.eta s
          + (SimUpdated.eta s - - SimUpdated.eta s) * unit_samples w (drawn w)
        /\ SimUpdated.next_noise_update (self w')
           = SimUpdated.next_noise_update s + SimUpdated.epsilon s
        /\ drawn w' = S (drawn w))
    /\ (~ t' * 1000 >= SimUpdated.next_noise_update s ->
        SimUpdated.angular_velocity (self w') = SimUpdated.angular_velocity s
        /\ SimUpdated.next_noise_update (self w')
           = SimUpdated.next_noise_update s
        /\ drawn w' = drawn w).
Proof.
  intros Hrun E s th t'.
  assert (L : (SimUpdated.position s < length (heap w))%nat)
    by (apply nth_error_Some; fold s in E; congruence).
  unfold SimUpdated.animate.
  rewrite (bind_ok _ _ _ _ _ (get_self_ok _)). rewrite Hrun. cbn [negb].
  rewrite (bind_ok _ _ _ _ _ (update_position_run _ _ E)).
  set (pv' := (SimUpdated.wrapped _ _, SimUpdated.wrapped _ _)).
  assert (Ep : forall ext,
             nth_error ((update (heap w) (SimUpdated.position s) pv' ++ ext))
               (SimUpdated.position s) = Some pv').
  { intros ext. apply nth_error_old. now apply update_same. }
  unfold set_self at 1 2. unfold bind at 1 2.
  rewrite (bind_ok _ _ _ _ _ (get_self_ok _)).
  unfold when, Rgeb.
  cbn [self SimUpdated.update_counter SimUpdated.set_update_counter].
  match goal with
  | |- context [(?a mod 10 =? 0)%nat] => destruct (a mod 10 =? 0)%nat
  end.
  - erewrite bind_ok;
      [ | erewrite bind_ok; [ | apply ndarray_copy_ok; cbn; apply Ep ];
          reflexivity ].
    rewrite (bind_ok _ _ _ _ _ (get_self_ok _)).
    cbn -[update nth_error app pv'].
    fold s. fold t'.
    destruct (Rge_dec (t' * 1000) (SimUpdated.next_noise_update s)) as [G|G];
      eexists; (split; [reflexivity|]);
      cbn -[update nth_error app pv']; rewrite <- ?app_assoc, Ep;
      repeat split; intros; try reflexivity; try contradiction;
      try exact Hrun.
  - rewrite (bind_ok _ _ _ _ _ (ret_ok _ _)).
    rewrite (bind_ok _ _ _ _ _ (get_self_ok _)).
    cbn -[update nth_error app pv'].
    fold s. fold t'.
    destruct (Rge_dec (t' * 1000) (SimUpdated.next_noise_update s)) as [G|G];
      eexists; (split; [reflexivity|]);
      cbn -[update nth_error app pv']; rewrite <- ?app_assoc, Ep;
      repeat split; intros; try reflexivity; try contradiction;
      try exact Hrun.
Qed.

Lemma nth_error_fresh {A : Type} (h rest : list A) (v : A) :
  nth_error (h ++ v :: rest) (length h) = Some v.
Proof. induction h; cbn; auto. Qed.

(** [start_simulation] on entries that read as numbers: no test on their
    sign or size stands between the entries and the first [animate]. *)
Lemma start_simulation_run (w : world SimUpdated.ParticleSimulation)
  (v0 eta0 delay0 : R) :
  let s := self w in
  let p := length (heap w) in
  let av0 := - eta0 + (eta0 - - eta0) * unit_samples w (drawn w) in
  let th := 0 + av0 * SimUpdated.dt s in
  exists w',
    SimUpdated.start_simulation (Some v0) (Some eta0) (Some delay0) w
    = (Ok tt, w')
    /\ SimUpdated.running (self w') = true
    /\ SimUpdated.v (self w') = v0
    /\ SimUpdated.eta (self w') = eta0
    /\ SimUpdated.epsilon (self w') = delay0 * 1000
    /\ SimUpdated.Dr_theoretical (self w') = eta0 ^ 2 / 6
    /\ (SimUpdated.width (self w') = SimUpdated.width s
        /\ SimUpdated.height (self w') = SimUpdated.height s
        /\ SimUpdated.dt (self w') = SimUpdated.dt s)
    /\ SimUpdated.position (self w') = p
    /\ SimUpdated.theta (self w') = th
    /\ nth_error (heap w') p
       = Some (SimUpdated.wrapped (SimUpdated.width s)
                 (SimUpdated.width s / 2 + v0 * cos th * SimUpdated.dt s),
               SimUpdated.wrapped (SimUpdated.height s)
                 (SimUpdated.height s / 2 + v0 * sin th * SimUpdated.dt s)).
Proof.
  intros s p av0 th.
  unfold SimUpdated.start_simulation, try_except.
  unfold float_.
  cbn -[SimUpdated.animate nth_error pow].
  erewrite bind_ok;
    [ | apply ndarray_copy_ok; cbn [heap]; apply nth_error_snoc ].
  cbn -[SimUpdated.animate nth_error pow].
  match goal with
  | |- context [SimUpdated.animate ?w1] =>
      destruct (animate_run w1
                  (SimUpdated.width s / 2, SimUpdated.height s / 2))
        as (w' & E & (Hw & Hh & Hdt & Hv & Heta & Heps & HDr & Hp & Hr & _)
            & Hth & _ & _ & Hpos & _)
  end.
  - reflexivity.
  - cbn -[nth_error]. rewrite <- ?app_assoc. apply nth_error_fresh.
  - rewrite E. exists w'. cbn in *. fold s p av0 th in Hpos, Hth.
    repeat split; assumption || reflexivity.
Qed.

(** ** The trajectory generator of [sim.py] *)

Lemma nth_error_valid {A : Type} (h : list A) (l : nat) :
  (l < length h)%nat -> exists v, nth_error h l = Some v.
Proof.
  intros L. destruct (nth_error h l) eqn:E; eauto.
  apply nth_error_None in E. lia.
Qed.

Lemma record_step_run (w : world Sim.ParticleSimulation) (pv iv : vec2) :
  nth_error (heap w) (Sim.position (self w)) = Some pv ->
  nth_error (heap w) (Sim.initial_position (self w)) = Some iv ->
  exists ph ts ms ext,
    Sim.record_step w
    = (Ok tt,
       World
         (Sim.set_msd_values ms
            (Sim.set_time_steps ts
               (Sim.set_positions_history ph
                  (Sim.set_current_time (Sim.current_time (self w) + 1)
                     (self w)))))
         (heap w ++ ext) (drawn w) (unit_samples w)).
Proof.
  intros E Ei. unfold Sim.record_step.
  unfold set_self at 1. unfold bind at 1.
  rewrite (bind_ok _ _ _ _ _ (get_self_ok _)).
  erewrite bind_ok; [ | apply ndarray_copy_ok; cbn; exact E ].
  unfold set_self at 1 2. unfold bind at 1 2.
  rewrite (bind_ok _ _ _ _ _ (get_self_ok _)).
  erewrite bind_ok;
    [ | apply np_sub_ok; cbn; apply nth_error_old; eassumption ].
  erewrite bind_ok; [ | apply np_square_ok; cbn; apply nth_error_snoc ].
  erewrite bind_ok; [ | apply np_sum_ok; cbn; apply nth_error_snoc ].
  unfold set_self. cbn. rewrite <- !app_assoc.
  do 4 eexists. reflexivity.
Qed.

Lemma sim_update_position_run (w : world Sim.ParticleSimulation)
  (pv iv : vec2) :
  nth_error (heap w) (Sim.position (self w)) = Some pv ->
  nth_error (heap w) (Sim.initial_position (self w)) = Some iv ->
  let s := self w in
  let th := Sim.theta s + Sim.angular_velocity s in
  let pv' := (fst pv + Sim.speed s * cos th, snd pv + Sim.speed s * sin th) in
  exists w',
    Sim.update_position w = (Ok tt, w')
    /\ (Sim.width (self w') = Sim.width s
        /\ Sim.height (self w') = Sim.height s
        /\ Sim.radius (self w') = Sim.radius s
        /\ Sim.neta (self w') = Sim.neta s
        /\ Sim.position (self w') = Sim.position s
        /\ Sim.initial_position (self w') = Sim.initial_position s
        /\ (length (heap w) <= length (heap w'))%nat)
    /\ Sim.theta (self w') = th
    /\ Sim.current_time (self w') = (Sim.current_time s + 1)%nat
    /\ nth_error (heap w') (Sim.position s) = Some pv'
    /\ (Sim.at_wall s (fst pv') (snd pv') = true ->
        nth_error (heap w') (Sim.velocity (self w')) = Some (0, 0)
        /\ Sim.angular_velocity (self w') = 0
        /\ Sim.speed (self w') = 0
        /\ Sim.running (self w') = false)
    /\ (Sim.at_wall s (fst pv') (snd pv') = false ->
        Sim.angular_velocity (self w') = Sim.angular_velocity s
        /\ Sim.speed (self w') = Sim.speed s
        /\ Sim.running (self w') = Sim.running s).
Proof.
  intros E Ei s th pv'.
  assert (L : (Sim.position s < length (heap w))%nat)
    by (apply nth_error_Some; fold s in E; congruence).
  assert (Li : (Sim.initial_position s < length (heap w))%nat)
    by (apply nth_error_Some; fold s in Ei; congruence).
  unfold Sim.update_position.
  rewrite (bind_ok _ _ _ _ _ (get_self_ok _)).
  rewrite (bind_ok _ _ _ _ _ (ndarray_copy_ok _ _ _ E)).
  unfold set_self at 1. unfold bind at 1.
  rewrite (bind_ok _ _ _ _ _ (get_self_ok _)).
  unfold np_array2. rewrite (bind_ok _ _ _ _ _ (alloc_ok _ _)).
  unfold set_self at 1. unfold bind at 1.
  cbn [self heap with_heap drawn unit_samples Sim.set_theta Sim.set_velocity
       Sim.speed Sim.theta Sim.position].
  fold s. fold th.
  set (vel := (Sim.speed s * cos th, Sim.speed s * sin th)).
  set (lv := length (heap w ++ [pv])).
  assert (Hlv : lv = S (length (heap w)))
    by (unfold lv; rewrite length_app; cbn; lia).
  erewrite bind_ok;
    [ | apply np_iadd_ok; cbn [heap];
        [ rewrite <- app_assoc; apply nth_error_old; exact E
        | unfold lv; apply nth_error_snoc ] ].
  cbn [heap with_heap self fst snd].
  change (fst pv + fst vel, snd pv + snd vel) with pv'.
  clearbody lv.
  set (h1 := update ((heap w ++ [pv]) ++ [vel]) (Sim.position s) pv').
  assert (Hp1 : nth_error h1 (Sim.position s) = Some pv').
  { unfold h1. apply update_same. rewrite !length_app. lia. }
  assert (Hv1 : nth_error h1 lv = Some vel).
  { unfold h1. rewrite update_other by lia. rewrite Hlv.
    replace (S (length (heap w))) with (length (heap w ++ [pv]))
      by (rewrite length_app; cbn; lia).
    apply nth_error_snoc. }
  assert (Hl1 : length h1 = S (S (length (heap w)))).
  { unfold h1. rewrite update_length, !length_app. cbn. lia. }
  erewrite bind_ok; [ | apply getitem_ok; [cbn [heap]; exact Hp1 | lia] ].
  erewrite bind_ok; [ | apply getitem_ok; [cbn [heap]; exact Hp1 | lia] ].
  cbn [Nat.eqb fst snd].
  change (Sim.at_wall (Sim.set_theta th s) (fst pv') (snd pv'))
    with (Sim.at_wall s (fst pv') (snd pv')).
  destruct (Sim.at_wall s (fst pv') (snd pv')); unfold when.
  - erewrite bind_ok.
    2:{ erewrite bind_ok;
          [ | apply setitem_ok; [cbn [heap with_heap]; exact Hv1 | lia] ].
        erewrite bind_ok;
          [ | apply setitem_ok;
              [ cbn [heap with_heap]; apply update_same; lia | lia ] ].
        unfold set_self, bind. cbn [Nat.eqb fst snd self heap with_heap
                                    drawn unit_samples].
        rewrite update_update. reflexivity. }
    set (h2 := update h1 lv (0, 0)).
    assert (Hp2 : nth_error h2 (Sim.position s) = Some pv').
    { unfold h2. rewrite update_other by lia. exact Hp1. }
    destruct (nth_error_valid h2 (Sim.initial_position s)) as [iv2 Hi2].
    { unfold h2. rewrite update_length. lia. }
    match goal with
    | |- context [Sim.record_step ?w2] =>
        destruct (record_step_run w2 pv' iv2 Hp2 Hi2)
          as (ph & ts & ms & ext & Er)
    end.
    rewrite Er. eexists. split; [reflexivity|].
    cbn [self heap drawn unit_samples].
    cbn -[h2 nth_error]. rewrite length_app.
    unfold h2 at 1. rewrite update_length, Hl1.
    repeat split; intros; try reflexivity; try discriminate; try lia.
    + apply nth_error_old. exact Hp2.
    + apply nth_error_old. unfold h2. apply update_same. lia.
  - rewrite (bind_ok _ _ _ _ _ (ret_ok _ _)).
    destruct (nth_error_valid h1 (Sim.initial_position s)) as [iv2 Hi2];
      [lia|].
    match goal with
    | |- context [Sim.record_step ?w2] =>
        destruct (record_step_run w2 pv' iv2 Hp1 Hi2)
          as (ph & ts & ms & ext & Er)
    end.
    rewrite Er. eexists. split; [reflexivity|].
    cbn -[h1 nth_error]. rewrite length_app, Hl1.
    repeat split; intros; try reflexivity; try discriminate; try lia.
    apply nth_error_old. exact Hp1.
Qed.




(** ** The trajectory generator of [simulation.py] *)




(** ** What the estimator returns *)

Lemma nth_error_map_range {A : Type} (f : nat -> A) (m k : nat) :
  (1 <= k < m)%nat -> nth_error (map f (range 1 m)) (k - 1) = Some (f k).
Proof.
  intros Hk. unfold range.
  rewrite nth_error_map.
  rewrite (nth_error_nth' _ 0%nat) by (rewrite length_seq; lia).
  rewrite seq_nth by lia. cbn. f_equal. f_equal. lia.
Qed.

Lemma increasing_tail (t : R) (ts : list R) :
  increasing (t :: ts) -> increasing ts.
Proof. destruct ts; cbn; tauto. Qed.

Lemma increasing_head (ts : list R) :
  forall (t : R) (j : nat),
  increasing (t :: ts) -> (j < length ts)%nat -> t < nth j ts 0.
Proof.
  induction ts as [|t' ts IH]; intros t j Hinc Hj; cbn in Hj; [lia|].
  destruct Hinc as [Ht Hinc]. destruct j as [|j]; cbn; [exact Ht|].
  apply Rlt_trans with t'; [exact Ht|]. apply IH; [exact Hinc | lia].
Qed.

Lemma increasing_nth (ts : list R) :
  forall i j : nat,
  increasing ts -> (i < j < length ts)%nat -> nth i ts 0 < nth j ts 0.
Proof.
  induction ts as [|t ts IH]; intros i j Hinc Hij; cbn in Hij; [lia|].
  destruct j as [|j]; [lia|]. destruct i as [|i]; cbn.
  - apply increasing_head; [exact Hinc | lia].
  - apply IH; [now apply increasing_tail in Hinc | lia].
Qed.

Lemma increasing_lags (ts : list R) (c : R) (m : nat) :
  increasing ts ->
  forall a : nat, (a + m <= length ts)%nat ->
  increasing (map (fun k => nth k ts 0 - c) (seq a m)).
Proof.
  intros Hinc. induction m as [|m IH]; intros a Ha; [exact I|].
  cbn [seq map]. destruct m as [|m]; [exact I|].
  cbn [seq map]. split.
  - apply Rplus_lt_compat_r. apply increasing_nth; [exact Hinc | lia].
  - apply (IH (S a)). lia.
Qed.

Lemma sum_nonneg (xs : list R) :
  Forall (fun x => 0 <= x) xs -> 0 <= fold_right Rplus 0 xs.
Proof.
  induction 1; cbn; [lra|]. lra.
Qed.

Lemma sum_sq_nonneg (d : R * R) : 0 <= EstimateSpec.sum_sq d.
Proof.
  unfold EstimateSpec.sum_sq.
  pose proof (pow2_ge_0 (fst d)). pose proof (pow2_ge_0 (snd d)). lra.
Qed.

Lemma msd_value_nonneg (W H : R) (ps : list (R * R)) (k : nat) :
  (k < length ps)%nat -> 0 <= EstimateSpec.msd_value W H ps k.
Proof.
  intros Hk. unfold EstimateSpec.msd_value.
  apply Rmult_le_pos.
  - apply sum_nonneg. apply Forall_forall. intros x Hx.
    apply in_map_iff in Hx. destruct Hx as (i & <- & _).
    apply sum_sq_nonneg.
  - left. apply Rinv_0_lt_compat. apply lt_0_INR. lia.
Qed.

(** C1.  For a recorded sample sequence and every lag index [k] from 1 to
    [min(n, 1000) - 1], [calculate_msd] returns, at position [k - 1] of its
    two arrays, the lag time [time[k] - time[0]] and the mean over the start
    indices [i = 0 .. n-k-1] of the sum of the squared, periodic-corrected
    components of [position[i+k] - position[i]].  (Such a [k] exists only
    when [n >= 2]; the order of the times plays no part.) *)
Theorem calculate_msd_lag_entries (w : world SimUpdated.ParticleSimulation)
  (samples : list (R * (R * R))) (k : nat) :
  records w samples ->
  (1 <= k <= Nat.min (length samples) 1000 - 1)%nat ->
  exists tau_values msd_values w',
    SimUpdated.calculate_msd w = (Ok (tau_values, msd_values), w')
    /\ nth_error tau_values (k - 1)
       = Some (EstimateSpec.lag_time (map fst samples) k)
    /\ nth_error msd_values (k - 1)
       = Some (EstimateSpec.msd_value (SimUpdated.width (self w))
                 (SimUpdated.height (self w)) (map snd samples) k).
Proof.
  intros Hrec Hk.
  destruct (calculate_msd_run w samples Hrec) as [ext E].
  do 3 eexists. split; [exact E|].
  split; apply nth_error_map_range; lia.
Qed.

(** C9.  On every recorded sample sequence with strictly increasing times,
    of any length, [calculate_msd] returns normally; its lag times are
    strictly increasing and positive, its MSD values are non-negative, there
    are as many of the ones as of the others, at most [min(n, 1000) - 1] of
    them (none for the empty sequence, where [range(1, 0)] is empty), and
    with fewer than 2 samples both arrays are empty. *)
Theorem calculate_msd_curve_shape (w : world SimUpdated.ParticleSimulation)
  (samples : list (R * (R * R))) :
  records w samples ->
  increasing (map fst samples) ->
  exists tau_values msd_values w',
    SimUpdated.calculate_msd w = (Ok (tau_values, msd_values), w')
    /\ length msd_values = length tau_values
    /\ increasing tau_values
    /\ Forall (fun tau => 0 < tau) tau_values
    /\ Forall (fun msd => 0 <= msd) msd_values
    /\ (length tau_values <= Nat.min (length samples) 1000 - 1)%nat
    /\ ((length samples < 2)%nat -> tau_values = [] /\ msd_values = []).
Proof.
  intros Hrec Hinc.
  destruct (calculate_msd_run w samples Hrec) as [ext E].
  do 3 eexists. split; [exact E|].
  set (m := Nat.min (length samples) 1000).
  assert (Hm : (m <= length samples)%nat) by (unfold m; lia).
  repeat split.
  - now rewrite !length_map.
  - unfold range, EstimateSpec.lag_time.
    destruct (Nat.eq_dec m 0) as [Z|NZ]; [now rewrite Z|].
    apply increasing_lags; [exact Hinc | rewrite length_map; lia].
  - apply Forall_forall. intros tau Htau.
    apply in_map_iff in Htau. destruct Htau as (k & <- & Hk).
    unfold range in Hk. apply in_seq in Hk.
    unfold EstimateSpec.lag_time.
    apply Rlt_0_minus. apply increasing_nth; [exact Hinc|].
    rewrite length_map. lia.
  - apply Forall_forall. intros msd Hmsd.
    apply in_map_iff in Hmsd. destruct Hmsd as (k & <- & Hk).
    unfold range in Hk. apply in_seq in Hk.
    apply msd_value_nonneg. rewrite length_map. lia.
  - rewrite length_map. unfold range. rewrite length_seq. lia.
  - unfold range. replace (m - 1)%nat with 0%nat by lia. reflexivity.
  - unfold range. replace (m - 1)%nat with 0%nat by lia. reflexivity.
Qed.

(** C10.  [calculate_msd] leaves the object and everything that was on the
    heap as they were: it writes only to arrays it has allocated itself, so
    the world records the same sample sequence after the call as before. *)
Theorem calculate_msd_preserves_samples
  (w : world SimUpdated.ParticleSimulation) (samples : list (R * (R * R))) :
  records w samples ->
  exists r w',
    SimUpdated.calculate_msd w = (r, w')
    /\ self w' = self w
    /\ (forall l, (l < length (heap w))%nat ->
                  nth_error (heap w') l = nth_error (heap w) l)
    /\ drawn w' = drawn w
    /\ records w' samples.
Proof.
  intros Hrec.
  destruct (calculate_msd_run w samples Hrec) as [ext E].
  do 2 eexists. split; [exact E|].
  cbn [self heap drawn with_heap]. repeat split.
  - intros l Hl. now apply nth_error_app1.
  - apply Hrec.
  - apply holds_ext. apply Hrec.
Qed.

Lemma periodic_correction_bound (size d : R) :
  Rabs d <= size -> Rabs (EstimateSpec.periodic_correction size d) <= size / 2.
Proof.
  intros Hd. unfold EstimateSpec.periodic_correction.
  destruct (Rgt_dec (Rabs d) (size / 2)) as [G|G].
  - rewrite Rabs_pos_eq; lra.
  - lra.
Qed.

Lemma displacement_within (size x y : R) :
  0 <= x <= size -> 0 <= y <= size -> Rabs (x - y) <= size.
Proof. intros Hx Hy. apply Rabs_le. lra. Qed.

(** C2.  For a pair of rows whose coordinates lie in [[0, width]] and
    [[0, height]], the displacement array that the inner loop of
    [calculate_msd] builds holds, once corrected, on each axis the raw
    component [d] itself, or [size - |d|] when [|d| > size / 2]; either way
    its absolute value is at most [size / 2]. *)
Theorem periodic_correction_bounded
  (w : world SimUpdated.ParticleSimulation) (positions : list nat)
  (k i a b : nat) (pa pb : R * R) :
  let W := SimUpdated.width (self w) in
  let H := SimUpdated.height (self w) in
  nth_error positions (i + k) = Some a ->
  nth_error positions i = Some b ->
  nth_error (heap w) a = Some pa ->
  nth_error (heap w) b = Some pb ->
  0 <= fst pa <= W -> 0 <= fst pb <= W ->
  0 <= snd pa <= H -> 0 <= snd pb <= H ->
  exists sd w' d,
    SimUpdated.squared_displacement positions k i w = (Ok sd, w')
    /\ nth_error (heap w') (length (heap w)) = Some d
    /\ fst d = (if Rgt_dec (Rabs (fst pa - fst pb)) (W / 2)
                then W - Rabs (fst pa - fst pb) else fst pa - fst pb)
    /\ snd d = (if Rgt_dec (Rabs (snd pa - snd pb)) (H / 2)
                then H - Rabs (snd pa - snd pb) else snd pa - snd pb)
    /\ Rabs (fst d) <= W / 2
    /\ Rabs (snd d) <= H / 2
    /\ sd = fst d ^ 2 + snd d ^ 2.
Proof.
  intros W H Ea Eb Ha Hb Hxa Hxb Hya Hyb.
  do 3 eexists. split.
  - apply (squared_displacement_run w positions k i a b pa pb Ea Eb Ha Hb).
  - cbn [heap with_heap]. split; [apply nth_error_fresh|].
    cbn [fst snd EstimateSpec.corrected_displacement].
    repeat split.
    + apply periodic_correction_bound. now apply displacement_within.
    + apply periodic_correction_bound. now apply displacement_within.
Qed.

Lemma calculate_msd_lag_entries_witness :
  exists tau_values msd_values w',
    SimUpdated.calculate_msd example_world = (Ok (tau_values, msd_values), w')
    /\ nth_error tau_values 1
       = Some (EstimateSpec.lag_time (map fst example_samples) 2)
    /\ nth_error msd_values 1
       = Some (EstimateSpec.msd_value 800 600 (map snd example_samples) 2).
Proof.
  apply (calculate_msd_lag_entries example_world example_samples 2).
  - split; [reflexivity | repeat constructor].
  - cbn. lia.
Defined.

Lemma periodic_correction_bounded_witness :
  exists sd w' d,
    SimUpdated.squared_displacement [1; 2; 3]%nat 1 0 example_world
    = (Ok sd, w')
    /\ nth_error (heap w') 4 = Some d
    /\ fst d = (if Rgt_dec (Rabs (799 - 400)) (800 / 2)
                then 800 - Rabs (799 - 400) else 799 - 400)
    /\ snd d = (if Rgt_dec (Rabs (598 - 300)) (600 / 2)
                then 600 - Rabs (598 - 300) else 598 - 300)
    /\ Rabs (fst d) <= 800 / 2
    /\ Rabs (snd d) <= 600 / 2
    /\ sd = fst d ^ 2 + snd d ^ 2.
Proof.
  apply (periodic_correction_bounded example_world [1; 2; 3]%nat 1 0 2 1
           (799, 598) (400, 300));
    try reflexivity; cbn; lra.
Defined.

Lemma calculate_msd_curve_shape_witness :
  exists tau_values msd_values w',
    SimUpdated.calculate_msd example_world = (Ok (tau_values, msd_values), w')
    /\ length msd_values = length tau_values
    /\ increasing tau_values
    /\ Forall (fun tau => 0 < tau) tau_values
    /\ Forall (fun msd => 0 <= msd) msd_values
    /\ (length tau_values <= 2)%nat
    /\ ((3 < 2)%nat -> tau_values = [] /\ msd_values = []).
Proof.
  apply (calculate_msd_curve_shape example_world example_samples).
  - split; [reflexivity | repeat constructor].
  - cbn. lra.
Defined.

Lemma calculate_msd_preserves_samples_witness :
  exists r w',
    SimUpdated.calculate_msd example_world = (r, w')
    /\ self w' = example_object
    /\ (forall l, (l < 4)%nat ->
                  nth_error (heap w') l = nth_error (heap example_world) l)
    /\ drawn w' = 1%nat
    /\ records w' example_samples.
Proof.
  apply (calculate_msd_preserves_samples example_world example_samples).
  split; [reflexivity | repeat constructor].
Defined.

(** ** The noise refresh *)

(** [animate] of [sim_updated.py] redraws the angular velocity exactly when
    the elapsed time, in milliseconds, has reached [next_noise_update]; the
    threshold then moves on by [epsilon]; a step draws at most once, and
    what it draws lies in [[-eta, eta]]. *)
Lemma animate_noise_refresh (w : world SimUpdated.ParticleSimulation)
  (pv : R * R) :
  SimUpdated.running (self w) = true ->
  nth_error (heap w) (SimUpdated.position (self w)) = Some pv ->
  let s := self w in
  let elapsed := (SimUpdated.current_time s + SimUpdated.dt s) * 1000 in
  let u := unit_samples w (drawn w) in
  exists w',
    SimUpdated.animate w = (Ok tt, w')
    /\ (elapsed >= SimUpdated.next_noise_update s ->
        SimUpdated.angular_velocity (self w')
        = - SimUpdated.eta s + (SimUpdated.eta s - - SimUpdated.eta s) * u
        /\ SimUpdated.next_noise_update (self w')
           = SimUpdated.next_noise_update s + SimUpdated.epsilon s
        /\ drawn w' = S (drawn w)
        /\ (0 <= SimUpdated.eta s -> 0 <= u < 1 ->
            - SimUpdated.eta s <= SimUpdated.angular_velocity (self w')
            <= SimUpdated.eta s))
    /\ (elapsed < SimUpdated.next_noise_update s ->
        SimUpdated.angular_velocity (self w') = SimUpdated.angular_velocity s
        /\ SimUpdated.next_noise_update (self w')
           = SimUpdated.next_noise_update s
        /\ drawn w' = drawn w)
    /\ (drawn w' <= S (drawn w))%nat.
Proof.
  intros Hrun E s elapsed u.
  destruct (animate_run w pv Hrun E)
    as (w' & Ew & _ & _ & _ & _ & _ & Hge & Hlt).
  exists w'. split; [exact Ew|].
  fold s in Hge, Hlt. fold elapsed in Hge, Hlt. repeat split.
  - now apply Hge.
  - now apply Hge.
  - now apply Hge.
  - destruct (Hge H) as (-> & _). fold u. nra.
  - destruct (Hge H) as (-> & _). fold u. nra.
  - apply Hlt. lra.
  - apply Hlt. lra.
  - apply Hlt. lra.
  - destruct (Rge_dec elapsed (SimUpdated.next_noise_update s)) as [G|G].
    + destruct (Hge G) as (_ & _ & ->). lia.
    + destruct (Hlt G) as (_ & _ & ->). lia.
Qed.

Lemma py_mod_epsilon (t : R) (z : Z) :
  IZR z <= t / Script.epsilon < IZR z + 1 ->
  Script.py_mod t Script.epsilon = Ok (t - Script.epsilon * IZR z).
Proof.
  intros Hz. unfold Script.py_mod.
  destruct (Req_dec_T Script.epsilon 0) as [Z|_].
  - unfold Script.epsilon in Z. lra.
  - now rewrite (Int_part_eq _ _ Hz).
Qed.

(** C3, [script.py].  The loop of [script.py] tests [currTime % epsilon ==
    0.0].  Its time grid holds [1] at index 18, [1 + 9/19] at index 19 and
    [1 + 18/19] at index 20.  At [currTime = 1] the body draws a new angular
    velocity; at the next two grid points it draws nothing and leaves the
    angular velocity as it was, although by the second of them the elapsed
    time has passed [1 + epsilon]. *)
Theorem script_noise_refresh_skips_threshold :
  nth_error Script.time 18 = Some 1
  /\ nth_error Script.time 19 = Some (1 + 1 * (9 / 19))
  /\ nth_error Script.time 20 = Some (1 + 2 * (9 / 19))
  /\ 1 + Script.epsilon <= 1 + 2 * (9 / 19)
  /\ forall (g : Script.Globals) (x0 y0 : R) (xs ys : list R)
            (h : list (R * R)) (n : nat) (u : nat -> R),
       let w := World {| Script.theta := Script.theta g;
                         Script.angluar_velocity := Script.angluar_velocity g;
                         Script.x := x0 :: xs; Script.y := y0 :: ys;
                         Script.msd := Script.msd g;
                         Script.prevTime := Script.prevTime g |} h n u in
       (exists w1, Script.step 1 w = (Ok tt, w1) /\ drawn w1 = S n)
       /\ (exists w2,
              Script.step (1 + 1 * (9 / 19)) w = (Ok tt, w2)
              /\ drawn w2 = n
              /\ Script.angluar_velocity (self w2)
                 = Script.angluar_velocity g)
       /\ (exists w3,
              Script.step (1 + 2 * (9 / 19)) w = (Ok tt, w3)
              /\ drawn w3 = n
              /\ Script.angluar_velocity (self w3)
                 = Script.angluar_velocity g).
Proof.
  destruct time_18_20 as (T18 & T19 & T20).
  do 4 (split; [first [assumption | unfold Script.epsilon; lra]|]).
  intros g x0 y0 xs ys h n u w. split; [|split].
  - destruct (script_step_run w 1 (1 - Script.epsilon * IZR 2))
      as (w1 & E1 & Hz & _).
    + apply py_mod_epsilon. unfold Script.epsilon. lra.
    + discriminate.
    + discriminate.
    + exists w1. split; [exact E1|]. apply Hz. unfold Script.epsilon. lra.
  - destruct (script_step_run w (1 + 1 * (9 / 19))
                (1 + 1 * (9 / 19) - Script.epsilon * IZR 2))
      as (w2 & E2 & _ & Hnz).
    + apply py_mod_epsilon. unfold Script.epsilon. lra.
    + discriminate.
    + discriminate.
    + exists w2. split; [exact E2|]. apply Hnz. unfold Script.epsilon. lra.
  - destruct (script_step_run w (1 + 2 * (9 / 19))
                (1 + 2 * (9 / 19) - Script.epsilon * IZR 3))
      as (w3 & E3 & _ & Hnz).
    + apply py_mod_epsilon. unfold Script.epsilon. lra.
    + discriminate.
    + discriminate.
    + exists w3. split; [exact E3|]. apply Hnz. unfold Script.epsilon. lra.
Qed.

(** ** The heading *)

(** C4.  One call of [update_position] adds [angular_velocity * dt] to the
    heading and does nothing else to it, whatever the heading is: no
    reduction modulo [2 pi] takes place.  In [sim_updated.py] [dt] is the
    attribute of that name; [sim.py] has no such attribute, its steps are
    one unit of [current_time] long, and it adds [angular_velocity] times
    that unit. *)
Theorem heading_increment
  (w : world SimUpdated.ParticleSimulation) (pv : R * R)
  (w0 : world Sim.ParticleSimulation) (pv0 iv0 : R * R) :
  nth_error (heap w) (SimUpdated.position (self w)) = Some pv ->
  nth_error (heap w0) (Sim.position (self w0)) = Some pv0 ->
  nth_error (heap w0) (Sim.initial_position (self w0)) = Some iv0 ->
  (exists w',
      SimUpdated.update_position w = (Ok tt, w')
      /\ SimUpdated.theta (self w')
         = SimUpdated.theta (self w)
           + SimUpdated.angular_velocity (self w) * SimUpdated.dt (self w))
  /\ (exists w0',
         Sim.update_position w0 = (Ok tt, w0')
         /\ Sim.current_time (self w0') = (Sim.current_time (self w0) + 1)%nat
         /\ Sim.theta (self w0')
            = Sim.theta (self w0)
              + Sim.angular_velocity (self w0)
                * (INR (Sim.current_time (self w0'))
                   - INR (Sim.current_time (self w0)))).
Proof.
  intros E E0 Ei0. split.
  - eexists. split; [apply (update_position_run w pv E)|]. reflexivity.
  - destruct (sim_update_position_run w0 pv0 iv0 E0 Ei0)
      as (w0' & Ew & _ & Hth & Hct & _).
    exists w0'. split; [exact Ew|]. split; [exact Hct|].
    rewrite Hth, Hct, plus_INR. cbn [INR]. ring.
Qed.

Lemma heading_increment_witness :
  (exists w',
      SimUpdated.update_position example_world = (Ok tt, w')
      /\ SimUpdated.theta (self w') = 0 + 1 * (1 / 100))
  /\ (exists w0',
         Sim.update_position sim_example_world = (Ok tt, w0')
         /\ Sim.current_time (self w0') = 1%nat
         /\ Sim.theta (self w0')
            = 0 + 0 * (INR (Sim.current_time (self w0')) - INR 0)).
Proof.
  apply (heading_increment example_world (1, 5) sim_example_world
           (5949 / 10, 200) (300, 200)); reflexivity.
Defined.

(** ** The periodic domain *)

Lemma wrapped_within (size x : R) :
  - size <= x <= 2 * size -> 0 <= SimUpdated.wrapped size x <= size.
Proof.
  intros Hx. unfold SimUpdated.wrapped.
  destruct (Rlt_dec x 0); [lra|].
  destruct (Rgt_dec x size); lra.
Qed.

Lemma stride_bound (v c dt : R) :
  -1 <= c <= 1 -> Rabs (v * c * dt) <= Rabs (v * dt).
Proof.
  intros Hc. replace (v * c * dt) with (v * dt * c) by ring.
  rewrite Rabs_mult.
  assert (Rabs c <= 1) by (apply Rabs_le; lra).
  pose proof (Rabs_pos (v * dt)). nra.
Qed.

Lemma step_lands_in_domain (size p v c dt : R) :
  0 <= p <= size -> Rabs (v * dt) <= size -> -1 <= c <= 1 ->
  0 <= SimUpdated.wrapped size (p + v * c * dt) <= size.
Proof.
  intros Hp Hv Hc. apply wrapped_within.
  pose proof (stride_bound v c dt Hc) as Hs.
  assert (Hd : Rabs (v * c * dt) <= size) by lra.
  unfold Rabs in Hd. destruct (Rcase_abs (v * c * dt)); lra.
Qed.

(** C5, as the code has it.  One step of a running [sim_updated.py]
    simulation applies the periodic rule once to each coordinate: [size] is
    added to a coordinate below 0, subtracted from one above [size].  When
    the coordinates were in [[0, width]] and [[0, height]] before the step
    and the step is no longer than the domain ([|v * dt|] at most [width]
    and [height]), they are there after it; and the step leaves the
    simulation running. *)
Theorem periodic_step_stays_in_domain
  (w : world SimUpdated.ParticleSimulation) (pv : R * R) :
  let s := self w in
  let th := SimUpdated.theta s
            + SimUpdated.angular_velocity s * SimUpdated.dt s in
  SimUpdated.running s = true ->
  nth_error (heap w) (SimUpdated.position s) = Some pv ->
  0 <= fst pv <= SimUpdated.width s ->
  0 <= snd pv <= SimUpdated.height s ->
  Rabs (SimUpdated.v s * SimUpdated.dt s) <= SimUpdated.width s ->
  Rabs (SimUpdated.v s * SimUpdated.dt s) <= SimUpdated.height s ->
  exists w' pv',
    SimUpdated.animate w = (Ok tt, w')
    /\ nth_error (heap w') (SimUpdated.position (self w')) = Some pv'
    /\ fst pv' = SimUpdated.wrapped (SimUpdated.width s)
                   (fst pv + SimUpdated.v s * cos th * SimUpdated.dt s)
    /\ snd pv' = SimUpdated.wrapped (SimUpdated.height s)
                   (snd pv + SimUpdated.v s * sin th * SimUpdated.dt s)
    /\ 0 <= fst pv' <= SimUpdated.width s
    /\ 0 <= snd pv' <= SimUpdated.height s
    /\ SimUpdated.running (self w') = true.
Proof.
  intros s th Hrun E Hx Hy Hvx Hvy.
  destruct (animate_run w pv Hrun E)
    as (w' & Ew & (_ & _ & _ & _ & _ & _ & _ & Hp & Hr & _) & _ & _ & _
        & Hpos & _).
  fold s th in Hpos. fold s in Hp.
  eexists. eexists. split; [exact Ew|].
  rewrite Hp. split; [exact Hpos|]. cbn [fst snd].
  split; [reflexivity|]. split; [reflexivity|].
  split; [|split; [|exact Hr]].
  - apply step_lands_in_domain; [assumption | assumption | apply COS_bound].
  - apply step_lands_in_domain; [assumption | assumption | apply SIN_bound].
Qed.

Lemma periodic_step_stays_in_domain_witness :
  exists w' pv',
    SimUpdated.animate example_world = (Ok tt, w')
    /\ nth_error (heap w') (SimUpdated.position (self w')) = Some pv'
    /\ fst pv' = SimUpdated.wrapped 800
                   (1 + 3 * cos (0 + 1 * (1 / 100)) * (1 / 100))
    /\ snd pv' = SimUpdated.wrapped 600
                   (5 + 3 * sin (0 + 1 * (1 / 100)) * (1 / 100))
    /\ 0 <= fst pv' <= 800
    /\ 0 <= snd pv' <= 600
    /\ SimUpdated.running (self w') = true.
Proof.
  apply (periodic_step_stays_in_domain example_world (1, 5));
    try reflexivity; cbn;
    try (rewrite Rabs_pos_eq; lra); lra.
Defined.

(** C5, the claim as stated fails.  Speed 200000 and noise 0 typed into the
    entry fields: [start_simulation] puts the particle at (400, 300) with
    heading 0 and takes the first step; the raw position is (2400, 300), one
    subtraction of the width leaves 1600, outside [[0, 800]]. *)
Lemma periodic_wrap_overshoot :
  exists w' x y,
    SimUpdated.start_simulation (Some 200000) (Some 0) (Some (1 / 2))
      fresh_world = (Ok tt, w')
    /\ nth_error (heap w') (SimUpdated.position (self w')) = Some (x, y)
    /\ SimUpdated.width (self w') = 800
    /\ x = 1600
    /\ ~ (0 <= x <= SimUpdated.width (self w')).
Proof.
  destruct (start_simulation_run fresh_world 200000 0 (1 / 2))
    as (w' & E & _ & _ & _ & _ & _ & (Hw & _ & _) & Hp & _ & Hpos).
  cbn in Hw, Hp, Hpos.
  replace (0 + (- 0 + (0 - - 0) * (1 / 2)) * (1 / 100)) with 0 in Hpos
    by lra.
  rewrite cos_0, sin_0 in Hpos.
  assert (Hx : SimUpdated.wrapped 800 (800 / 2 + 200000 * 1 * (1 / 100))
               = 1600).
  { unfold SimUpdated.wrapped.
    destruct (Rlt_dec _ 0); [lra|]. destruct (Rgt_dec _ 800); lra. }
  exists w'. eexists. eexists. split; [exact E|].
  rewrite Hp, Hw. split; [exact Hpos|]. split; [reflexivity|].
  split; [exact Hx|]. rewrite Hx. lra.
Qed.

(** ** The closed-form MSD *)

(** C6, the claim as stated fails: it speaks of every [Dr], and at
    [Dr = 0] (a run started with noise 0) [calculate_theoretical_msd]
    returns no value for any [tau]; its first division raises
    [ZeroDivisionError]. *)
Lemma theoretical_msd_raises_at_zero_Dr :
  SimUpdated.Dr_theoretical (self zero_noise_world) = 0
  /\ SimUpdated.calculate_theoretical_msd [1 / 2; 1] zero_noise_world
     = (Raise ZeroDivisionError, zero_noise_world).
Proof.
  split; [reflexivity|].
  unfold SimUpdated.calculate_theoretical_msd.
  rewrite (bind_ok _ _ _ _ _ (get_self_ok _)). cbv zeta.
  unfold py_div, lift, bind.
  change (SimUpdated.Dr_theoretical (self zero_noise_world)) with 0.
  destruct (Req_dec_T 0 0) as [_|N]; [reflexivity | contradiction].
Qed.

(** C6, amended.  With [Dr_theoretical] other than zero,
    [calculate_theoretical_msd] returns, for every [tau] of [times] and at
    the same index, exactly
    [2 * (v^2 / Dr) * (tau + (1 / Dr) * (exp (- Dr * tau) - 1))], and
    nothing else; the object and the heap are left alone. *)
Theorem theoretical_msd_formula (w : world SimUpdated.ParticleSimulation)
  (times : list R) :
  let v := SimUpdated.v (self w) in
  let Dr := SimUpdated.Dr_theoretical (self w) in
  Dr <> 0 ->
  exists msd,
    SimUpdated.calculate_theoretical_msd times w = (Ok msd, w)
    /\ length msd = length times
    /\ forall (i : nat) (tau : R),
         nth_error times i = Some tau ->
         nth_error msd i
         = Some (2 * (v ^ 2 / Dr) * (tau + (1 / Dr) * (exp (- Dr * tau) - 1))).
Proof.
  intros v Dr HDr.
  unfold SimUpdated.calculate_theoretical_msd.
  rewrite (bind_ok _ _ _ _ _ (get_self_ok _)). cbv zeta. fold v Dr.
  unfold py_div, lift, bind.
  destruct (Req_dec_T Dr 0) as [Z|_]; [contradiction|].
  eexists. split; [reflexivity|]. split; [apply length_map|].
  intros i tau Hi. rewrite nth_error_map, Hi. reflexivity.
Qed.

Lemma theoretical_msd_formula_witness :
  exists msd,
    SimUpdated.calculate_theoretical_msd [1 / 2; 1] example_world
    = (Ok msd, example_world)
    /\ length msd = 2%nat
    /\ forall (i : nat) (tau : R),
         nth_error [1 / 2; 1] i = Some tau ->
         nth_error msd i
         = Some (2 * (3 ^ 2 / (3 ^ 2 / 6))
                 * (tau + (1 / (3 ^ 2 / 6))
                          * (exp (- (3 ^ 2 / 6) * tau) - 1))).
Proof.
  apply (theoretical_msd_formula example_world [1 / 2; 1]).
  cbn. lra.
Defined.

(** ** Configuration *)

(** C7, the claim as stated fails.  Speed -3 typed into the entry field is
    accepted: [start_simulation] returns normally and the run is on, at
    speed -3. *)
Lemma negative_speed_is_accepted :
  exists w',
    SimUpdated.start_simulation (Some (-3)) (Some 3) (Some (1 / 2))
      fresh_world = (Ok tt, w')
    /\ SimUpdated.running (self w') = true
    /\ SimUpdated.v (self w') = -3.
Proof.
  destruct (start_simulation_run fresh_world (-3) 3 (1 / 2))
    as (w' & E & Hr & Hv & _).
  exists w'. auto.
Qed.

Lemma modest_entry_small (x : R) : Rabs x <= 10 -> modest_entry x.
Proof.
  intros H. unfold modest_entry.
  apply Rle_trans with (10 ^ 1); [now rewrite pow_1|].
  apply Rle_pow; [lra | lia].
Qed.

(** C7, as the code has it.  [start_simulation] puts no test of sign or
    range on its entries: three numbers of modest magnitude, positive or
    not, are accepted, and it returns normally with the run started on
    them, [epsilon] being the delay in milliseconds and [Dr_theoretical]
    being [eta^2 / 6]; [dt] and the size of the domain are not inputs and
    stay as they were.  An entry that does not read as a number raises
    [ValueError], which [start_simulation] catches itself, without
    starting a run.  With [Dr_theoretical = 0] and a speed of modest
    magnitude, [calculate_theoretical_msd] raises [ZeroDivisionError] at
    its first division. *)
Theorem configuration_is_not_validated :
  (forall (w : world SimUpdated.ParticleSimulation) (v0 eta0 delay0 : R),
      modest_entry v0 -> modest_entry eta0 -> modest_entry delay0 ->
      exists w',
        SimUpdated.start_simulation (Some v0) (Some eta0) (Some delay0) w
        = (Ok tt, w')
        /\ SimUpdated.running (self w') = true
        /\ SimUpdated.v (self w') = v0
        /\ SimUpdated.eta (self w') = eta0
        /\ SimUpdated.epsilon (self w') = delay0 * 1000
        /\ SimUpdated.Dr_theoretical (self w') = eta0 ^ 2 / 6
        /\ SimUpdated.dt (self w') = SimUpdated.dt (self w)
        /\ SimUpdated.width (self w') = SimUpdated.width (self w)
        /\ SimUpdated.height (self w') = SimUpdated.height (self w))
  /\ (forall (w : world SimUpdated.ParticleSimulation)
             (eta_entry delay_entry : option R),
         SimUpdated.start_simulation None eta_entry delay_entry w
         = (Ok tt, w))
  /\ (forall (w : world SimUpdated.ParticleSimulation) (v0 eta0 : R)
             (delay_entry : option R),
         exists w1 w2,
           SimUpdated.start_simulation (Some v0) None delay_entry w
           = (Ok tt, w1)
           /\ SimUpdated.running (self w1) = SimUpdated.running (self w)
           /\ SimUpdated.start_simulation (Some v0) (Some eta0) None w
              = (Ok tt, w2)
           /\ SimUpdated.running (self w2) = SimUpdated.running (self w))
  /\ (forall (s : SimUpdated.ParticleSimulation) (h : list (R * R))
             (n : nat) (u : nat -> R) (times : list R),
         modest_entry (SimUpdated.v s) ->
         let w := World (SimUpdated.set_Dr_theoretical 0 s) h n u in
         SimUpdated.calculate_theoretical_msd times w
         = (Raise ZeroDivisionError, w)).
Proof.
  split; [|split; [|split]].
  - intros w v0 eta0 delay0 _ _ _.
    destruct (start_simulation_run w v0 eta0 delay0)
      as (w' & E & Hr & Hv & He & Hd & HDr & (Hw & Hh & Hdt) & _).
    exists w'. repeat split; assumption.
  - intros w eta_entry delay_entry. reflexivity.
  - intros w v0 eta0 delay_entry. do 2 eexists.
    split; [reflexivity|]. split; [reflexivity|].
    split; reflexivity.
  - intros s h n u times _ w.
    unfold SimUpdated.calculate_theoretical_msd.
    rewrite (bind_ok _ _ _ _ _ (get_self_ok _)). cbv zeta.
    unfold py_div, lift, bind.
    change (SimUpdated.Dr_theoretical (self w)) with 0.
    destruct (Req_dec_T 0 0) as [_|N]; [reflexivity | contradiction].
Qed.

Lemma configuration_is_not_validated_witness :
  (modest_entry (- (1 / 2)) /\ modest_entry 0 /\ modest_entry (-2))
  /\ exists w',
       SimUpdated.start_simulation (Some (- (1 / 2))) (Some 0) (Some (-2))
         fresh_world = (Ok tt, w')
       /\ SimUpdated.running (self w') = true
       /\ SimUpdated.v (self w') = - (1 / 2)
       /\ SimUpdated.eta (self w') = 0
       /\ SimUpdated.epsilon (self w') = -2 * 1000
       /\ SimUpdated.Dr_theoretical (self w') = 0 ^ 2 / 6
       /\ SimUpdated.dt (self w') = SimUpdated.dt (self fresh_world)
       /\ SimUpdated.width (self w') = SimUpdated.width (self fresh_world)
       /\ SimUpdated.height (self w') = SimUpdated.height (self fresh_world).
Proof.
  assert (H1 : modest_entry (- (1 / 2))).
  { apply modest_entry_small. unfold Rabs.
    destruct (Rcase_abs (- (1 / 2))); lra. }
  assert (H2 : modest_entry 0).
  { apply modest_entry_small. rewrite Rabs_R0. lra. }
  assert (H3 : modest_entry (-2)).
  { apply modest_entry_small. unfold Rabs.
    destruct (Rcase_abs (-2)); lra. }
  split; [split; [exact H1 | split; [exact H2 | exact H3]]|].
  exact (proj1 configuration_is_not_validated fresh_world
           (- (1 / 2)) 0 (-2) H1 H2 H3).
Defined.

(** ** The walls *)





(** * Further properties *)

(** ** The estimator: what the curve depends on *)

Lemma msd_value_ext (W H : R) (ps qs : list (R * R)) (k : nat) :
  length ps = length qs ->
  (forall i, (i + k < length ps)%nat ->
     EstimateSpec.corrected_displacement W H
       (nth (i + k) ps (0, 0)) (nth i ps (0, 0))
     = EstimateSpec.corrected_displacement W H
         (nth (i + k) qs (0, 0)) (nth i qs (0, 0))) ->
  EstimateSpec.msd_value W H ps k = EstimateSpec.msd_value W H qs k.
Proof.
  intros Hlen Hd. unfold EstimateSpec.msd_value. rewrite <- Hlen.
  f_equal. f_equal. apply map_ext_in. intros i Hi.
  apply in_seq in Hi. rewrite Hd by lia. reflexivity.
Qed.

Lemma nth_shift (cx cy : R) (ps : list (R * R)) (i : nat) :
  (i < length ps)%nat ->
  nth i (map (fun p => (fst p + cx, snd p + cy)) ps) (0, 0)
  = (fst (nth i ps (0, 0)) + cx, snd (nth i ps (0, 0)) + cy).
Proof.
  intros Hi.
  rewrite (nth_indep _ (0, 0) (fst (0, 0) + cx, snd (0, 0) + cy))
    by (rewrite length_map; exact Hi).
  apply (map_nth (fun p => (fst p + cx, snd p + cy))).
Qed.

(** The MSD curve depends on the recorded positions only through their
    differences: two worlds of the same domain size whose recorded samples
    differ by one constant offset of every position get the same curve from
    [calculate_msd]. *)
Theorem calculate_msd_translation_invariant
  (w1 w2 : world SimUpdated.ParticleSimulation)
  (samples : list (R * (R * R))) (cx cy : R) :
  records w1 samples ->
  records w2 (map (fun s => (fst s, (fst (snd s) + cx, snd (snd s) + cy)))
                samples) ->
  SimUpdated.width (self w2) = SimUpdated.width (self w1) ->
  SimUpdated.height (self w2) = SimUpdated.height (self w1) ->
  exists curve w1' w2',
    SimUpdated.calculate_msd w1 = (Ok curve, w1')
    /\ SimUpdated.calculate_msd w2 = (Ok curve, w2').
Proof.
  intros H1 H2 HW HH.
  destruct (calculate_msd_run w1 _ H1) as [e1 E1].
  destruct (calculate_msd_run w2 _ H2) as [e2 E2].
  do 3 eexists. split; [exact E1|]. rewrite E2. f_equal. f_equal.
  rewrite length_map, !map_map. cbn [fst snd]. rewrite HW, HH. f_equal.
  apply map_ext_in. intros k Hk. unfold range in Hk. apply in_seq in Hk.
  rewrite <- (map_map snd (fun p => (fst p + cx, snd p + cy))).
  apply msd_value_ext; [now rewrite !length_map|].
  intros i Hi. rewrite length_map in Hi.
  rewrite !nth_shift by lia.
  unfold EstimateSpec.corrected_displacement. cbn [fst snd].
  f_equal; f_equal; ring.
Qed.

Lemma sum_const {A : Type} (f : A -> R) (c : R) (l : list A) :
  (forall x, In x l -> f x = c) ->
  fold_right Rplus 0 (map f l) = INR (length l) * c.
Proof.
  induction l as [|a l IH]; intros Hc.
  - cbn. ring.
  - cbn [map fold_right length]. rewrite S_INR, IH, (Hc a).
    + ring.
    + now left.
    + intros x Hx. apply Hc. now right.
Qed.

Lemma periodic_correction_small (size d : R) :
  Rabs d <= size / 2 -> EstimateSpec.periodic_correction size d = d.
Proof.
  intros Hd. unfold EstimateSpec.periodic_correction.
  destruct (Rgt_dec (Rabs d) (size / 2)); [lra | reflexivity].
Qed.

(** Uniform motion gives an exactly quadratic curve.  When the recorded
    positions advance by the same step [(dx, dy)] from one sample to the
    next and [k] steps span at most half the domain on each axis, the MSD
    value that [calculate_msd] returns for lag index [k] is
    [k^2 * (dx^2 + dy^2)]; for a particle at rest it is 0. *)
Theorem calculate_msd_uniform_motion
  (w : world SimUpdated.ParticleSimulation) (samples : list (R * (R * R)))
  (x0 y0 dx dy : R) (k : nat) :
  records w samples ->
  (forall i, (i < length samples)%nat ->
     nth i (map snd samples) (0, 0) = (x0 + INR i * dx, y0 + INR i * dy)) ->
  (1 <= k <= Nat.min (length samples) 1000 - 1)%nat ->
  Rabs (INR k * dx) <= SimUpdated.width (self w) / 2 ->
  Rabs (INR k * dy) <= SimUpdated.height (self w) / 2 ->
  exists tau_values msd_values w' msd,
    SimUpdated.calculate_msd w = (Ok (tau_values, msd_values), w')
    /\ nth_error msd_values (k - 1) = Some msd
    /\ msd = INR k ^ 2 * (dx ^ 2 + dy ^ 2).
Proof.
  intros Hrec Hpos Hk Hx Hy.
  destruct (calculate_msd_run w samples Hrec) as [ext E].
  do 4 eexists. split; [exact E|].
  split; [apply nth_error_map_range; lia|].
  unfold EstimateSpec.msd_value. rewrite length_map.
  set (n := length samples) in *.
  rewrite (sum_const _ (INR k ^ 2 * (dx ^ 2 + dy ^ 2))).
  - rewrite length_seq. field. apply not_0_INR. lia.
  - intros i Hi. apply in_seq in Hi.
    rewrite !Hpos by (fold n; lia).
    unfold EstimateSpec.corrected_displacement, EstimateSpec.sum_sq.
    cbn [fst snd]. rewrite plus_INR.
    replace (x0 + (INR i + INR k) * dx - (x0 + INR i * dx))
      with (INR k * dx) by ring.
    replace (y0 + (INR i + INR k) * dy - (y0 + INR i * dy))
      with (INR k * dy) by ring.
    rewrite !periodic_correction_small by assumption. ring.
Qed.

(** The corrected component is the shorter way round.  For two recorded
    positions inside the domain, the displacement array that the inner loop
    of [calculate_msd] sums holds on each axis a value whose magnitude is
    the smaller of [|d|] and [size - |d|], [d] being the raw difference. *)
Theorem periodic_correction_is_minimum_image
  (w : world SimUpdated.ParticleSimulation) (positions : list nat)
  (k i a b : nat) (pa pb : R * R) :
  let W := SimUpdated.width (self w) in
  let H := SimUpdated.height (self w) in
  nth_error positions (i + k) = Some a ->
  nth_error positions i = Some b ->
  nth_error (heap w) a = Some pa ->
  nth_error (heap w) b = Some pb ->
  0 <= fst pa <= W -> 0 <= fst pb <= W ->
  0 <= snd pa <= H -> 0 <= snd pb <= H ->
  exists sd w' d,
    SimUpdated.squared_displacement positions k i w = (Ok sd, w')
    /\ nth_error (heap w') (length (heap w)) = Some d
    /\ Rabs (fst d)
       = Rmin (Rabs (fst pa - fst pb)) (W - Rabs (fst pa - fst pb))
    /\ Rabs (snd d)
       = Rmin (Rabs (snd pa - snd pb)) (H - Rabs (snd pa - snd pb)).
Proof.
  intros W H Ea Eb Ha Hb Hxa Hxb Hya Hyb.
  do 3 eexists. split;
    [apply (squared_displacement_run w positions k i a b pa pb Ea Eb Ha Hb)|].
  cbn [heap with_heap]. split; [apply nth_error_fresh|].
  cbn [fst snd EstimateSpec.corrected_displacement].
  unfold EstimateSpec.periodic_correction. fold W H.
  pose proof (displacement_within W _ _ Hxa Hxb) as Bx.
  pose proof (displacement_within H _ _ Hya Hyb) as By.
  split.
  - destruct (Rgt_dec (Rabs (fst pa - fst pb)) (W / 2)).
    + rewrite Rabs_pos_eq by lra. rewrite Rmin_right; lra.
    + rewrite Rmin_left; lra.
  - destruct (Rgt_dec (Rabs (snd pa - snd pb)) (H / 2)).
    + rewrite Rabs_pos_eq by lra. rewrite Rmin_right; lra.
    + rewrite Rmin_left; lra.
Qed.

(** ** Steps of [sim_updated.py] and what they keep *)

Lemma animate_effect (w : world SimUpdated.ParticleSimulation) (pv : R * R) :
  SimUpdated.running (self w) = true ->
  nth_error (heap w) (SimUpdated.position (self w)) = Some pv ->
  let s := self w in
  let t' := SimUpdated.current_time s + SimUpdated.dt s in
  exists w' pv' c,
    SimUpdated.animate w = (Ok tt, w')
    /\ nth_error (heap w') (SimUpdated.position s) = Some pv'
    /\ (forall l, (l < length (heap w))%nat -> l <> SimUpdated.position s ->
          nth_error (heap w') l = nth_error (heap w) l)
    /\ (length (heap w) <= c)%nat
    /\ (((SimUpdated.update_counter s + 1) mod 10 =? 0)%nat = true ->
        SimUpdated.positions_history (self w')
        = SimUpdated.positions_history s ++ [c]
        /\ SimUpdated.time_points (self w')
           = SimUpdated.time_points s ++ [t']
        /\ nth_error (heap w') c = Some pv')
    /\ (((SimUpdated.update_counter s + 1) mod 10 =? 0)%nat = false ->
        SimUpdated.positions_history (self w')
        = SimUpdated.positions_history s
        /\ SimUpdated.time_points (self w') = SimUpdated.time_points s).
Proof.
  intros Hrun E s t'.
  assert (L : (SimUpdated.position (self w) < length (heap w))%nat)
    by (apply nth_error_Some; congruence).
  set (b := ((SimUpdated.update_counter s + 1) mod 10 =? 0)%nat).
  unfold SimUpdated.animate.
  rewrite (bind_ok _ _ _ _ _ (get_self_ok _)). rewrite Hrun. cbn [negb].
  rewrite (bind_ok _ _ _ _ _ (update_position_run _ _ E)).
  set (pv' := (SimUpdated.wrapped _ _, SimUpdated.wrapped _ _)).
  set (ext := [pv; _; _]).
  assert (Ep : forall more,
             nth_error (update (heap w) (SimUpdated.position s) pv' ++ more)
               (SimUpdated.position s) = Some pv').
  { intros more. apply nth_error_old. now apply update_same. }
  assert (Ef : forall more l, (l < length (heap w))%nat ->
             l <> SimUpdated.position s ->
             nth_error (update (heap w) (SimUpdated.position s) pv' ++ more) l
             = nth_error (heap w) l).
  { intros more l Hl Hne.
    rewrite nth_error_app1 by (rewrite update_length; exact Hl).
    apply update_other. congruence. }
  unfold set_self at 1 2. unfold bind at 1 2.
  rewrite (bind_ok _ _ _ _ _ (get_self_ok _)).
  unfold when, Rgeb.
  cbn [self SimUpdated.update_counter SimUpdated.set_update_counter].
  match goal with
  | |- context [if (?a mod 10 =? 0)%nat then _ else _] =>
      change (a mod 10 =? 0)%nat with b
  end.
  clearbody b. destruct b.
  - erewrite bind_ok;
      [ | erewrite bind_ok;
          [ | apply ndarray_copy_ok; cbn; apply Ep ];
          reflexivity ].
    rewrite (bind_ok _ _ _ _ _ (get_self_ok _)).
    cbn -[update nth_error app pv' ext length].
    fold s. fold t'.
    destruct (Rge_dec (t' * 1000) (SimUpdated.next_noise_update s)) as [G|G];
      eexists; exists pv';
      exists (length (update (heap w) (SimUpdated.position s) pv' ++ ext));
      (split; [reflexivity|]);
      cbn -[update nth_error app pv' ext length];
      (split; [rewrite <- app_assoc; apply Ep|]);
      (split; [intros l Hl Hne; rewrite <- app_assoc; now apply Ef|]);
      (split; [rewrite length_app, update_length; lia|]);
      (split; [intros _; split; [reflexivity|];
               split; [reflexivity | apply nth_error_snoc]
             | discriminate]).
  - rewrite (bind_ok _ _ _ _ _ (ret_ok _ _)).
    rewrite (bind_ok _ _ _ _ _ (get_self_ok _)).
    cbn -[update nth_error app pv' ext length].
    fold s. fold t'.
    destruct (Rge_dec (t' * 1000) (SimUpdated.next_noise_update s)) as [G|G];
      eexists; exists pv'; exists (length (heap w));
      (split; [reflexivity|]);
      cbn -[update nth_error app pv' ext length];
      (split; [apply Ep|]);
      (split; [intros l Hl Hne; now apply Ef|]);
      (split; [lia|]);
      (split; [discriminate | intros _; split; reflexivity]).
Qed.

Lemma holds_frame (h h' : list (R * R)) (ls : list nat) (vs : list (R * R))
  (p : nat) :
  holds h ls vs -> ~ In p ls ->
  (forall l, (l < length h)%nat -> l <> p -> nth_error h' l = nth_error h l) ->
  holds h' ls vs.
Proof.
  intros Hh Hp Hf. induction Hh as [|l v ls vs Hl _ IH]; constructor.
  - rewrite Hf; [exact Hl | apply nth_error_Some; congruence |].
    intros ->. apply Hp. now left.
  - apply IH. intros Hin. apply Hp. now right.
Qed.

Lemma holds_snoc (h : list (R * R)) (ls : list nat) (vs : list (R * R))
  (c : nat) (v : R * R) :
  holds h ls vs -> nth_error h c = Some v -> holds h (ls ++ [c]) (vs ++ [v]).
Proof.
  intros Hh Hc. apply Forall2_app; [exact Hh|]. constructor; [exact Hc|].
  constructor.
Qed.

Lemma holds_valid (h : list (R * R)) (ls : list nat) (vs : list (R * R)) :
  holds h ls vs -> Forall (fun l => (l < length h)%nat) ls.
Proof.
  induction 1; constructor; auto. apply nth_error_Some. congruence.
Qed.

Lemma increasing_snoc (ts : list R) (t : R) :
  increasing ts -> Forall (fun x => x < t) ts -> increasing (ts ++ [t]).
Proof.
  induction ts as [|a ts IH]; intros Hinc Hlt; [exact I|].
  inversion Hlt as [|? ? Ha Hts]; subst.
  destruct ts as [|b ts]; cbn.
  - split; [exact Ha | exact I].
  - destruct Hinc as [Hab Hinc]. split; [exact Hab|].
    apply IH; assumption.
Qed.

Lemma tenth_step (n : nat) :
  (((n + 1) mod 10 =? 0)%nat = true -> ((n + 1) / 10 = S (n / 10))%nat)
  /\ (((n + 1) mod 10 =? 0)%nat = false -> ((n + 1) / 10 = n / 10)%nat).
Proof.
  pose proof (Nat.div_mod_eq (n + 1) 10) as H1.
  pose proof (Nat.div_mod_eq n 10) as H2.
  pose proof (Nat.mod_upper_bound (n + 1) 10 ltac:(lia)) as B1.
  pose proof (Nat.mod_upper_bound n 10 ltac:(lia)) as B2.
  split; intros Hm.
  - apply Nat.eqb_eq in Hm. lia.
  - apply Nat.eqb_neq in Hm. lia.
Qed.

Lemma animate_keeps_run_state (d0 : nat)
  (w : world SimUpdated.ParticleSimulation) (samples : list (R * (R * R))) :
  run_state d0 w samples ->
  exists w' more,
    SimUpdated.animate w = (Ok tt, w')
    /\ run_state d0 w' (samples ++ more)
    /\ SimUpdated.update_counter (self w')
       = (SimUpdated.update_counter (self w) + 1)%nat
    /\ (SimUpdated.width (self w') = SimUpdated.width (self w)
        /\ SimUpdated.height (self w') = SimUpdated.height (self w)
        /\ SimUpdated.dt (self w') = SimUpdated.dt (self w)
        /\ SimUpdated.v (self w') = SimUpdated.v (self w)
        /\ SimUpdated.eta (self w') = SimUpdated.eta (self w)
        /\ SimUpdated.epsilon (self w') = SimUpdated.epsilon (self w)).
Proof.
  intros (Hrun & Hdt & Hrec & Hnin & (pv & Epv & Hdom) & Hsdom & Hinc & Hle
          & Hhd & Hct & Hlen & Hnnu & Hd0).
  destruct (animate_run w pv Hrun Epv)
    as (w' & Ew & (Hw & Hh & Hdt' & Hv & Heta & Heps & _ & Hp & Hr & Hu)
        & _ & Hct' & Huc & Hpos & Hge & Hlt).
  destruct (animate_effect w pv Hrun Epv)
    as (w2 & pv' & c & Ew2 & Hpos2 & Hframe & Hc & Hrecd & Hnrec).
  rewrite Ew in Ew2. injection Ew2 as <-.
  rewrite Hpos in Hpos2. injection Hpos2 as Hpv'.
  assert (Hpos' : nth_error (heap w') (SimUpdated.position (self w'))
                  = Some pv') by (rewrite Hp, Hpos; now f_equal).
  destruct Hrec as [Ht Hh0].
  pose proof (holds_valid _ _ _ Hh0) as Hvalid.
  assert (Hold : holds (heap w') (SimUpdated.positions_history (self w))
                   (map snd samples))
    by (eapply holds_frame; eassumption).
  assert (Lp : (SimUpdated.position (self w) < length (heap w))%nat)
    by (apply nth_error_Some; congruence).
  assert (Hdom' : modest_step (self w') -> in_domain (self w') pv').
  { unfold modest_step, in_domain. rewrite Hw, Hh, Hdt', Hv.
    intros [Mx My]. destruct (Hdom (conj Mx My)) as [Dx Dy].
    rewrite <- Hpv'. cbn [fst snd]. split.
    - apply step_lands_in_domain; [exact Dx | exact Mx | apply COS_bound].
    - apply step_lands_in_domain; [exact Dy | exact My | apply SIN_bound]. }
  assert (Hsdom' : modest_step (self w') ->
                   Forall (in_domain (self w')) (map snd samples)).
  { intros M. unfold modest_step in M. rewrite Hw, Hh, Hdt', Hv in M.
    specialize (Hsdom M). eapply Forall_impl; [|exact Hsdom].
    intros p. unfold in_domain. now rewrite Hw, Hh. }
  assert (Hcount : SimUpdated.current_time (self w')
                   = INR (SimUpdated.update_counter (self w')) * SimUpdated.dt (self w')).
  { rewrite Hct', Huc, Hdt', Hct, plus_INR. cbn [INR]. ring. }
  assert (Hnoise : SimUpdated.next_noise_update (self w')
                   = INR (drawn w' - d0) * SimUpdated.epsilon (self w')
                   /\ (d0 < drawn w')%nat).
  { rewrite Heps.
    destruct (Rge_dec ((SimUpdated.current_time (self w) + SimUpdated.dt (self w)) * 1000)
                (SimUpdated.next_noise_update (self w))) as [G|G].
    - destruct (Hge G) as (_ & -> & ->). split; [|lia].
      replace (S (drawn w) - d0)%nat with (S (drawn w - d0)) by lia.
      rewrite S_INR, Hnnu. ring.
    - destruct (Hlt G) as (_ & -> & ->). split; [exact Hnnu | exact Hd0]. }
  destruct Hnoise as [Hnnu' Hd0'].
  destruct (tenth_step (SimUpdated.update_counter (self w))) as [T1 T0].
  destruct ((SimUpdated.update_counter (self w) + 1) mod 10 =? 0)%nat eqn:B.
  - destruct (Hrecd eq_refl) as (Hph & Htp & Hcv).
    exists w'. eexists [(_, pv')]. split; [exact Ew|].
    split; [|split; [exact Huc | repeat split; assumption]].
    unfold run_state. cbv zeta. rewrite !map_app. cbn [map fst snd].
    split; [exact Hr|]. split; [now rewrite Hdt'|].
    split.
    { split.
      - rewrite Htp, Ht, map_app. reflexivity.
      - rewrite Hph, map_app. apply holds_snoc; assumption. }
    split.
    { rewrite Hp, Hph. intros Hin. apply in_app_or in Hin.
      destruct Hin as [Hin|[Hin|[]]]; [contradiction | lia]. }
    split; [exists pv'; split; [exact Hpos' | exact Hdom']|].
    split.
    { intros M. apply Forall_app. split; [now apply Hsdom'|].
      constructor; [now apply Hdom' | constructor]. }
    split.
    { apply increasing_snoc; [exact Hinc|].
      eapply Forall_impl; [|exact Hle]. intros t Ht'. cbv beta in Ht'. lra. }
    split.
    { rewrite Hct'. apply Forall_app. split.
      - eapply Forall_impl; [|exact Hle]. intros t Ht'. cbv beta in Ht'. lra.
      - constructor; [lra | constructor]. }
    split.
    { destruct samples; [discriminate Hhd | exact Hhd]. }
    split; [exact Hcount|].
    split; [rewrite length_app, Hlen, Huc, (T1 eq_refl); cbn; lia|].
    split; assumption.
  - destruct (Hnrec eq_refl) as (Hph & Htp).
    exists w', []. rewrite app_nil_r. split; [exact Ew|].
    split; [|split; [exact Huc | repeat split; assumption]].
    unfold run_state. cbv zeta.
    split; [exact Hr|]. split; [now rewrite Hdt'|].
    split; [split; [now rewrite Htp | now rewrite Hph]|].
    split; [now rewrite Hp, Hph|].
    split; [exists pv'; split; [exact Hpos' | exact Hdom']|].
    split; [exact Hsdom'|].
    split; [exact Hinc|].
    split.
    { rewrite Hct'. eapply Forall_impl; [|exact Hle].
      intros t Ht'. cbv beta in Ht'. lra. }
    split; [exact Hhd|].
    split; [exact Hcount|].
    split; [now rewrite Hlen, Huc, (T0 eq_refl)|].
    split; assumption.
Qed.

Lemma animate_loop_run_state (d0 : nat) (l : list nat) :
  forall (w : world SimUpdated.ParticleSimulation)
         (samples : list (R * (R * R))),
  run_state d0 w samples ->
  exists w' more,
    for_ l (fun _ _ => SimUpdated.animate) tt w = (Ok tt, w')
    /\ run_state d0 w' (samples ++ more)
    /\ SimUpdated.update_counter (self w')
       = (SimUpdated.update_counter (self w) + length l)%nat
    /\ (SimUpdated.width (self w') = SimUpdated.width (self w)
        /\ SimUpdated.height (self w') = SimUpdated.height (self w)
        /\ SimUpdated.dt (self w') = SimUpdated.dt (self w)
        /\ SimUpdated.v (self w') = SimUpdated.v (self w)
        /\ SimUpdated.eta (self w') = SimUpdated.eta (self w)
        /\ SimUpdated.epsilon (self w') = SimUpdated.epsilon (self w)).
Proof.
  induction l as [|a l IH]; intros w samples H.
  - exists w, []. rewrite app_nil_r. cbn [for_ length].
    rewrite Nat.add_0_r. split; [reflexivity|]. split; [exact H|].
    split; [reflexivity|]. repeat split; reflexivity.
  - destruct (animate_keeps_run_state d0 w samples H)
      as (w1 & m1 & E1 & H1 & U1 & (W1 & H1' & D1 & V1 & N1 & P1)).
    destruct (IH w1 _ H1)
      as (w2 & m2 & E2 & H2 & U2 & (W2 & H2' & D2 & V2 & N2 & P2)).
    exists w2, (m1 ++ m2). rewrite app_assoc.
    cbn [for_ length]. rewrite (bind_ok _ _ _ _ _ E1).
    split; [exact E2|]. split; [exact H2|].
    split; [lia|]. repeat split; congruence.
Qed.

Lemma start_simulation_run_state (w : world SimUpdated.ParticleSimulation)
  (v0 eta0 delay0 : R) :
  0 < SimUpdated.dt (self w) ->
  exists w',
    SimUpdated.start_simulation (Some v0) (Some eta0) (Some delay0) w
    = (Ok tt, w')
    /\ run_state (drawn w) w'
         [(0, (SimUpdated.width (self w) / 2, SimUpdated.height (self w) / 2))]
    /\ SimUpdated.update_counter (self w') = 1%nat
    /\ (SimUpdated.width (self w') = SimUpdated.width (self w)
        /\ SimUpdated.height (self w') = SimUpdated.height (self w)
        /\ SimUpdated.dt (self w') = SimUpdated.dt (self w)
        /\ SimUpdated.v (self w') = v0
        /\ SimUpdated.eta (self w') = eta0
        /\ SimUpdated.epsilon (self w') = delay0 * 1000).
Proof.
  intros Hdt.
  unfold SimUpdated.start_simulation, try_except. unfold float_.
  cbn -[SimUpdated.animate nth_error pow].
  erewrite bind_ok;
    [ | apply ndarray_copy_ok; cbn [heap]; apply nth_error_snoc ].
  cbn -[SimUpdated.animate nth_error pow].
  match goal with
  | |- context [SimUpdated.animate ?w1] =>
      destruct (animate_keeps_run_state (drawn w) w1
                  [(0, (SimUpdated.width (self w) / 2,
                        SimUpdated.height (self w) / 2))])
        as (w' & more & E & Hst & Huc & (Hw & Hh & Hd & Hv & He & Hp))
  end.
  - unfold run_state. cbn -[nth_error INR Nat.div Nat.sub Rabs].
    split; [reflexivity|]. split; [exact Hdt|].
    split.
    { split; [reflexivity|]. constructor; [|constructor].
      cbn [heap]. apply nth_error_snoc. }
    split.
    { intros [Hin|[]]. rewrite length_app in Hin. cbn in Hin. lia. }
    split.
    { eexists. split; [rewrite <- app_assoc; apply nth_error_fresh|].
      unfold modest_step, in_domain. cbn -[Rabs].
      intros [Mx My].
      pose proof (Rabs_pos (v0 * SimUpdated.dt (self w))). lra. }
    split.
    { unfold modest_step, in_domain. cbn -[Rabs]. intros [Mx My].
      constructor; [|constructor]. cbn [fst snd].
      pose proof (Rabs_pos (v0 * SimUpdated.dt (self w))). lra. }
    split; [exact I|].
    split; [constructor; [lra | constructor]|].
    split; [reflexivity|].
    split; [cbn [INR]; ring|].
    split; [reflexivity|].
    split; [|lia].
    replace (S (drawn w) - drawn w)%nat with 1%nat by lia. cbn [INR]. ring.
  - rewrite E. exists w'.
    assert (more = []).
    { destruct Hst as (_ & _ & _ & _ & _ & _ & _ & _ & _ & _ & Hlen & _).
      rewrite Huc in Hlen. cbn in Hlen.
      destruct more; [reflexivity | cbn in Hlen; lia]. }
    subst more. cbn [app] in Hst.
    split; [reflexivity|]. split; [exact Hst|]. split; [exact Huc|].
    cbn in Hw, Hh, Hd, Hv, He, Hp. repeat split; assumption.
Qed.

Lemma run_reaches_state (w : world SimUpdated.ParticleSimulation)
  (v0 eta0 delay0 : R) (n : nat) :
  0 < SimUpdated.dt (self w) ->
  exists w' samples,
    (SimUpdated.start_simulation (Some v0) (Some eta0) (Some delay0) ;;;
     animate_times n) w = (Ok tt, w')
    /\ run_state (drawn w) w' samples
    /\ nth_error samples 0
       = Some (0, (SimUpdated.width (self w) / 2,
                   SimUpdated.height (self w) / 2))
    /\ SimUpdated.update_counter (self w') = (n + 1)%nat
    /\ (SimUpdated.width (self w') = SimUpdated.width (self w)
        /\ SimUpdated.height (self w') = SimUpdated.height (self w)
        /\ SimUpdated.dt (self w') = SimUpdated.dt (self w)
        /\ SimUpdated.v (self w') = v0
        /\ SimUpdated.eta (self w') = eta0
        /\ SimUpdated.epsilon (self w') = delay0 * 1000).
Proof.
  intros Hdt.
  destruct (start_simulation_run_state w v0 eta0 delay0 Hdt)
    as (w1 & E1 & H1 & U1 & (W1 & H1' & D1 & V1 & N1 & P1)).
  destruct (animate_loop_run_state (drawn w) (seq 0 n) w1 _ H1)
    as (w2 & more & E2 & H2 & U2 & (W2 & H2' & D2 & V2 & N2 & P2)).
  exists w2. eexists. rewrite (bind_ok _ _ _ _ _ E1).
  split; [exact E2|]. split; [exact H2|]. split; [reflexivity|].
  rewrite length_seq in U2. split; [lia|]. repeat split; congruence.
Qed.

(** ** A run of [sim_updated.py]: start, then steps *)

(** After [start_simulation] and [n] further firings of [animate]:
    [update_counter] is [n + 1], [current_time] is [(n + 1) * dt], and one
    sample has been recorded at the start plus one for every tenth step --
    [time_points] and [positions_history] both have [1 + (n + 1) / 10]
    entries. *)
Theorem run_bookkeeping (w : world SimUpdated.ParticleSimulation)
  (v0 eta0 delay0 : R) (n : nat) :
  0 < SimUpdated.dt (self w) ->
  exists w',
    (SimUpdated.start_simulation (Some v0) (Some eta0) (Some delay0) ;;;
     animate_times n) w = (Ok tt, w')
    /\ SimUpdated.update_counter (self w') = (n + 1)%nat
    /\ SimUpdated.current_time (self w')
       = INR (n + 1) * SimUpdated.dt (self w)
    /\ length (SimUpdated.time_points (self w')) = (1 + (n + 1) / 10)%nat
    /\ length (SimUpdated.positions_history (self w'))
       = (1 + (n + 1) / 10)%nat.
Proof.
  intros Hdt.
  destruct (run_reaches_state w v0 eta0 delay0 n Hdt)
    as (w' & samples & E & Hst & _ & Huc & (_ & _ & Hd & _)).
  destruct Hst as (_ & _ & [Ht Hh] & _ & _ & _ & _ & _ & _ & Hct & Hlen & _).
  exists w'. split; [exact E|]. split; [exact Huc|].
  split; [now rewrite Hct, Huc, Hd|].
  apply holds_length in Hh. rewrite length_map in Hh.
  rewrite Hh, Ht, length_map, Hlen, Huc. split; reflexivity.
Qed.

Lemma run_bookkeeping_witness :
  exists w',
    (SimUpdated.start_simulation (Some 3) (Some 3) (Some (1 / 2)) ;;;
     animate_times 25) fresh_world = (Ok tt, w')
    /\ SimUpdated.update_counter (self w') = 26%nat
    /\ SimUpdated.current_time (self w') = INR 26 * (1 / 100)
    /\ length (SimUpdated.time_points (self w')) = 3%nat
    /\ length (SimUpdated.positions_history (self w')) = 3%nat.
Proof.
  apply (run_bookkeeping fresh_world 3 3 (1 / 2) 25). cbn. lra.
Defined.

(** The refresh threshold is always a whole number of re-orientation
    intervals: after [start_simulation] and any number of steps,
    [next_noise_update] is [k * epsilon], [k] being the number of angular
    velocities drawn since the call began (the initial one included). *)
Theorem run_noise_threshold (w : world SimUpdated.ParticleSimulation)
  (v0 eta0 delay0 : R) (n : nat) :
  0 < SimUpdated.dt (self w) ->
  exists w',
    (SimUpdated.start_simulation (Some v0) (Some eta0) (Some delay0) ;;;
     animate_times n) w = (Ok tt, w')
    /\ (drawn w < drawn w')%nat
    /\ SimUpdated.next_noise_update (self w')
       = INR (drawn w' - drawn w) * (delay0 * 1000).
Proof.
  intros Hdt.
  destruct (run_reaches_state w v0 eta0 delay0 n Hdt)
    as (w' & samples & E & Hst & _ & _ & (_ & _ & _ & _ & _ & He)).
  destruct Hst as (_ & _ & _ & _ & _ & _ & _ & _ & _ & _ & _ & Hn & Hd).
  exists w'. split; [exact E|]. split; [exact Hd|].
  now rewrite Hn, He.
Qed.

Lemma run_noise_threshold_witness :
  exists w',
    (SimUpdated.start_simulation (Some 3) (Some 3) (Some (1 / 2)) ;;;
     animate_times 25) fresh_world = (Ok tt, w')
    /\ (0 < drawn w')%nat
    /\ SimUpdated.next_noise_update (self w')
       = INR (drawn w' - 0) * (1 / 2 * 1000).
Proof.
  apply (run_noise_threshold fresh_world 3 3 (1 / 2) 25). cbn. lra.
Defined.

(** With a step no longer than the domain ([|v * dt|] at most the width and
    the height), the particle is inside the domain after [start_simulation]
    and after every later step, and so is every recorded position. *)
Theorem run_stays_in_domain (w : world SimUpdated.ParticleSimulation)
  (v0 eta0 delay0 : R) (n : nat) :
  let W := SimUpdated.width (self w) in
  let H := SimUpdated.height (self w) in
  0 < SimUpdated.dt (self w) ->
  Rabs (v0 * SimUpdated.dt (self w)) <= W ->
  Rabs (v0 * SimUpdated.dt (self w)) <= H ->
  exists w' samples p,
    (SimUpdated.start_simulation (Some v0) (Some eta0) (Some delay0) ;;;
     animate_times n) w = (Ok tt, w')
    /\ nth_error (heap w') (SimUpdated.position (self w')) = Some p
    /\ (0 <= fst p <= W /\ 0 <= snd p <= H)
    /\ records w' samples
    /\ Forall (fun q => 0 <= fst q <= W /\ 0 <= snd q <= H) (map snd samples).
Proof.
  intros W H Hdt Mx My.
  destruct (run_reaches_state w v0 eta0 delay0 n Hdt)
    as (w' & samples & E & Hst & _ & _ & (Hw & Hh & Hd & Hv & _)).
  destruct Hst as (_ & _ & Hrec & _ & (p & Ep & Hp) & Hs & _).
  assert (M : modest_step (self w')).
  { unfold modest_step. rewrite Hw, Hh, Hd, Hv. now split. }
  exists w', samples, p. split; [exact E|]. split; [exact Ep|].
  specialize (Hp M). specialize (Hs M). unfold in_domain in Hp.
  rewrite Hw, Hh in Hp. split; [exact Hp|]. split; [exact Hrec|].
  eapply Forall_impl; [|exact Hs]. intros q. unfold in_domain.
  now rewrite Hw, Hh.
Qed.

Lemma run_stays_in_domain_witness :
  exists w' samples p,
    (SimUpdated.start_simulation (Some 3) (Some 3) (Some (1 / 2)) ;;;
     animate_times 25) fresh_world = (Ok tt, w')
    /\ nth_error (heap w') (SimUpdated.position (self w')) = Some p
    /\ (0 <= fst p <= 800 /\ 0 <= snd p <= 600)
    /\ records w' samples
    /\ Forall (fun q => 0 <= fst q <= 800 /\ 0 <= snd q <= 600)
         (map snd samples).
Proof.
  apply (run_stays_in_domain fresh_world 3 3 (1 / 2) 25);
    cbn; try (rewrite Rabs_pos_eq; lra); lra.
Defined.

(** The generator feeds the estimator what it needs.  After
    [start_simulation] and [n] steps, [calculate_msd] returns normally; the
    recorded times start at 0 and increase strictly, so the lag times are
    positive and strictly increasing; there are
    [min (1 + (n + 1) / 10) 1000 - 1] of them, and as many MSD values, none
    negative. *)
Theorem run_then_calculate_msd (w : world SimUpdated.ParticleSimulation)
  (v0 eta0 delay0 : R) (n : nat) :
  0 < SimUpdated.dt (self w) ->
  exists w' tau_values msd_values w'',
    (SimUpdated.start_simulation (Some v0) (Some eta0) (Some delay0) ;;;
     animate_times n) w = (Ok tt, w')
    /\ nth_error (SimUpdated.time_points (self w')) 0 = Some 0
    /\ increasing (SimUpdated.time_points (self w'))
    /\ SimUpdated.calculate_msd w' = (Ok (tau_values, msd_values), w'')
    /\ length tau_values = (Nat.min (1 + (n + 1) / 10) 1000 - 1)%nat
    /\ length msd_values = length tau_values
    /\ increasing tau_values
    /\ Forall (fun tau => 0 < tau) tau_values
    /\ Forall (fun msd => 0 <= msd) msd_values.
Proof.
  intros Hdt.
  destruct (run_reaches_state w v0 eta0 delay0 n Hdt)
    as (w' & samples & E & Hst & _ & Huc & _).
  destruct Hst as (_ & _ & Hrec & _ & _ & _ & Hinc & _ & Hhd & _ & Hlen & _).
  destruct (calculate_msd_run w' samples Hrec) as [ext Ec].
  rewrite Huc in Hlen.
  exists w'. do 3 eexists. split; [exact E|].
  destruct Hrec as [Ht Hh]. rewrite Ht.
  split; [exact Hhd|]. split; [exact Hinc|]. split; [exact Ec|].
  set (m := Nat.min (length samples) 1000).
  assert (Hm : (m <= length samples)%nat) by (unfold m; lia).
  split; [rewrite length_map; unfold range; rewrite length_seq;
          unfold m; now rewrite Hlen|].
  split; [now rewrite !length_map|].
  split.
  { unfold range, EstimateSpec.lag_time.
    apply increasing_lags; [exact Hinc | rewrite length_map; lia]. }
  split.
  - apply Forall_forall. intros tau Htau.
    apply in_map_iff in Htau. destruct Htau as (k & <- & Hk).
    unfold range in Hk. apply in_seq in Hk.
    unfold EstimateSpec.lag_time.
    apply Rlt_0_minus. apply increasing_nth; [exact Hinc|].
    rewrite length_map. lia.
  - apply Forall_forall. intros msd Hmsd.
    apply in_map_iff in Hmsd. destruct Hmsd as (k & <- & Hk).
    unfold range in Hk. apply in_seq in Hk.
    apply msd_value_nonneg. rewrite length_map. lia.
Qed.

Lemma run_then_calculate_msd_witness :
  exists w' tau_values msd_values w'',
    (SimUpdated.start_simulation (Some 3) (Some 3) (Some (1 / 2)) ;;;
     animate_times 25) fresh_world = (Ok tt, w')
    /\ nth_error (SimUpdated.time_points (self w')) 0 = Some 0
    /\ increasing (SimUpdated.time_points (self w'))
    /\ SimUpdated.calculate_msd w' = (Ok (tau_values, msd_values), w'')
    /\ length tau_values = 2%nat
    /\ length msd_values = length tau_values
    /\ increasing tau_values
    /\ Forall (fun tau => 0 < tau) tau_values
    /\ Forall (fun msd => 0 <= msd) msd_values.
Proof.
  apply (run_then_calculate_msd fresh_world 3 3 (1 / 2) 25). cbn. lra.
Defined.

(** [start_simulation] forgets the previous run: whatever was recorded
    before, the world afterwards records exactly one sample, the centre of
    the domain at time 0 -- a copy that the first step, taken inside the
    call, has not moved. *)
Theorem start_simulation_resets_samples
  (w : world SimUpdated.ParticleSimulation) (v0 eta0 delay0 : R) :
  0 < SimUpdated.dt (self w) ->
  exists w',
    SimUpdated.start_simulation (Some v0) (Some eta0) (Some delay0) w
    = (Ok tt, w')
    /\ records w'
         [(0, (SimUpdated.width (self w) / 2,
               SimUpdated.height (self w) / 2))]
    /\ SimUpdated.update_counter (self w') = 1%nat
    /\ ~ In (SimUpdated.position (self w'))
         (SimUpdated.positions_history (self w')).
Proof.
  intros Hdt.
  destruct (start_simulation_run_state w v0 eta0 delay0 Hdt)
    as (w' & E & Hst & Huc & _).
  destruct Hst as (_ & _ & Hrec & Hnin & _).
  exists w'. auto.
Qed.

Lemma start_simulation_resets_samples_witness :
  exists w',
    SimUpdated.start_simulation (Some 3) (Some 3) (Some (1 / 2)) example_world
    = (Ok tt, w')
    /\ records w' [(0, (800 / 2, 600 / 2))]
    /\ SimUpdated.update_counter (self w') = 1%nat
    /\ ~ In (SimUpdated.position (self w'))
         (SimUpdated.positions_history (self w')).
Proof.
  apply (start_simulation_resets_samples example_world 3 3 (1 / 2)).
  cbn. lra.
Defined.

(** A recorded sample is a snapshot.  One firing of [animate] moves the
    particle by writing into the array [self.position], yet every sample
    recorded so far stays what it was, because each was stored as a copy;
    on every tenth step, and only then, one sample is appended: the new
    time and a copy of the new position. *)
Theorem animate_keeps_recorded_samples
  (w : world SimUpdated.ParticleSimulation) (pv : R * R)
  (samples : list (R * (R * R))) :
  let s := self w in
  SimUpdated.running s = true ->
  nth_error (heap w) (SimUpdated.position s) = Some pv ->
  records w samples ->
  ~ In (SimUpdated.position s) (SimUpdated.positions_history s) ->
  exists w' pv',
    SimUpdated.animate w = (Ok tt, w')
    /\ nth_error (heap w') (SimUpdated.position (self w')) = Some pv'
    /\ ((SimUpdated.update_counter s + 1) mod 10 = 0%nat ->
        records w'
          (samples ++ [(SimUpdated.current_time s + SimUpdated.dt s, pv')]))
    /\ ((SimUpdated.update_counter s + 1) mod 10 <> 0%nat ->
        records w' samples)
    /\ ~ In (SimUpdated.position (self w'))
         (SimUpdated.positions_history (self w')).
Proof.
  intros s Hrun Epv [Ht Hh] Hnin. subst s.
  destruct (animate_run w pv Hrun Epv)
    as (w' & Ew & (_ & _ & _ & _ & _ & _ & _ & Hp & _) & _).
  destruct (animate_effect w pv Hrun Epv)
    as (w2 & pv' & c & Ew2 & Hpos & Hframe & Hc & Hrecd & Hnrec).
  rewrite Ew in Ew2. injection Ew2 as <-.
  assert (Hold : holds (heap w') (SimUpdated.positions_history (self w))
                   (map snd samples))
    by (eapply holds_frame; eassumption).
  assert (Lp : (SimUpdated.position (self w) < length (heap w))%nat)
    by (apply nth_error_Some; congruence).
  exists w', pv'. split; [exact Ew|]. rewrite Hp. split; [exact Hpos|].
  destruct ((SimUpdated.update_counter (self w) + 1) mod 10 =? 0)%nat eqn:B.
  - destruct (Hrecd eq_refl) as (Hph & Htp & Hcv).
    apply Nat.eqb_eq in B. split; [|split; [congruence|]].
    + intros _. split.
      * rewrite Htp, Ht, map_app. reflexivity.
      * rewrite Hph, map_app. apply holds_snoc; assumption.
    + rewrite Hph. intros Hin. apply in_app_or in Hin.
      destruct Hin as [Hin|[Hin|[]]]; [contradiction | lia].
  - destruct (Hnrec eq_refl) as (Hph & Htp).
    apply Nat.eqb_neq in B. split; [contradiction|]. split.
    + intros _. split; [now rewrite Htp | now rewrite Hph].
    + now rewrite Hph.
Qed.

Lemma animate_keeps_recorded_samples_witness :
  exists w' pv',
    SimUpdated.animate example_world = (Ok tt, w')
    /\ nth_error (heap w') (SimUpdated.position (self w')) = Some pv'
    /\ ((20 + 1) mod 10 = 0%nat ->
        records w' (example_samples ++ [(2 / 10 + 1 / 100, pv')]))
    /\ ((20 + 1) mod 10 <> 0%nat -> records w' example_samples)
    /\ ~ In (SimUpdated.position (self w'))
         (SimUpdated.positions_history (self w')).
Proof.
  apply (animate_keeps_recorded_samples example_world (1, 5) example_samples).
  - reflexivity.
  - reflexivity.
  - split; [reflexivity | repeat constructor].
  - cbn. lia.
Defined.

(** Stop means stop: after [stop_simulation], firings of [animate] that are
    still scheduled change nothing -- no position update, no sample, no
    draw. *)
Theorem stopped_animate_is_idle (w : world SimUpdated.ParticleSimulation)
  (n : nat) :
  (SimUpdated.stop_simulation ;;; animate_times n) w
  = SimUpdated.stop_simulation w.
Proof.
  unfold SimUpdated.stop_simulation, set_self, bind, animate_times.
  generalize (seq 0 n). intros l.
  induction l as [|a l IH]; [reflexivity|].
  cbn [for_]. unfold bind at 1. unfold SimUpdated.animate at 1.
  unfold get_self at 1. unfold bind at 1.
  cbn [self SimUpdated.running SimUpdated.set_running negb]. unfold ret at 1.
  exact IH.
Qed.

Lemma calculate_msd_translation_invariant_witness :
  exists curve w1' w2',
    SimUpdated.calculate_msd example_world = (Ok curve, w1')
    /\ SimUpdated.calculate_msd example_world_shifted = (Ok curve, w2').
Proof.
  apply (calculate_msd_translation_invariant example_world
           example_world_shifted example_samples (1 / 2) 1).
  - split; [reflexivity | repeat constructor].
  - split; [reflexivity | repeat constructor].
  - reflexivity.
  - reflexivity.
Defined.

Lemma calculate_msd_uniform_motion_witness :
  exists tau_values msd_values w' msd,
    SimUpdated.calculate_msd uniform_world = (Ok (tau_values, msd_values), w')
    /\ nth_error msd_values 1 = Some msd
    /\ msd = INR 2 ^ 2 * (3 ^ 2 + 4 ^ 2).
Proof.
  apply (calculate_msd_uniform_motion uniform_world uniform_samples
           100 100 3 4 2).
  - split; [reflexivity | repeat constructor].
  - intros [|[|[|i]]] Hi; try reflexivity. cbn in Hi. lia.
  - cbn. lia.
  - cbn. rewrite Rabs_pos_eq; lra.
  - cbn. rewrite Rabs_pos_eq; lra.
Defined.

Lemma periodic_correction_is_minimum_image_witness :
  exists sd w' d,
    SimUpdated.squared_displacement [1; 2; 3]%nat 1 0 example_world
    = (Ok sd, w')
    /\ nth_error (heap w') 4 = Some d
    /\ Rabs (fst d) = Rmin (Rabs (799 - 400)) (800 - Rabs (799 - 400))
    /\ Rabs (snd d) = Rmin (Rabs (598 - 300)) (600 - Rabs (598 - 300)).
Proof.
  apply (periodic_correction_is_minimum_image example_world [1; 2; 3]%nat
           1 0 2 1 (799, 598) (400, 300));
    try reflexivity; cbn; lra.
Defined.

(** ** The plot of [sim_updated.py] *)

Lemma calculate_theoretical_msd_run (w : world SimUpdated.ParticleSimulation)
  (times : list R) :
  let v := SimUpdated.v (self w) in
  let Dr := SimUpdated.Dr_theoretical (self w) in
  SimUpdated.calculate_theoretical_msd times w
  = if Req_dec_T Dr 0 then (Raise ZeroDivisionError, w)
    else (Ok (map (fun t => 2 * (v ^ 2 / Dr)
                            * (t + (1 / Dr) * (exp (- Dr * t) - 1))) times),
          w).
Proof.
  intros v Dr. unfold SimUpdated.calculate_theoretical_msd.
  rewrite (bind_ok _ _ _ _ _ (get_self_ok _)). cbv zeta. fold v Dr.
  unfold py_div, lift, bind.
  destruct (Req_dec_T Dr 0); reflexivity.
Qed.

Lemma index_last_ret {Obj A : Type} (xs : list A) (d : A) :
  xs <> [] -> @SimUpdatedPlot.index_last Obj A xs = ret (last xs d).
Proof.
  intros N. unfold SimUpdatedPlot.index_last.
  apply index_ret. now apply nth_error_last.
Qed.

Lemma ln_10_pos : 0 < ln 10.
Proof. rewrite <- ln_1. apply ln_increasing; lra. Qed.

Lemma pow10_log10 (t : R) :
  0 < t -> Rpower 10 (SimUpdatedPlot.np_log10 t) = t.
Proof.
  intros Ht. unfold Rpower, SimUpdatedPlot.np_log10.
  pose proof ln_10_pos.
  replace (ln t / ln 10 * ln 10) with (ln t) by (field; lra).
  now apply exp_ln.
Qed.

Lemma logspace_ends (a b : R) :
  let ts := SimUpdatedPlot.np_logspace
              (SimUpdatedPlot.np_log10 a) (SimUpdatedPlot.np_log10 b) 100 in
  0 < a -> 0 < b ->
  length ts = 100%nat /\ nth_error ts 0 = Some a /\ nth_error ts 99 = Some b.
Proof.
  intros ts Ha Hb. unfold ts, SimUpdatedPlot.np_logspace.
  split; [|split].
  - rewrite length_map. reflexivity.
  - cbn -[Rpower SimUpdatedPlot.np_log10 INR]. f_equal.
    replace (SimUpdatedPlot.np_log10 a + INR 0 * _)
      with (SimUpdatedPlot.np_log10 a) by (cbn [INR]; ring).
    now apply pow10_log10.
  - rewrite nth_error_map.
    cbn -[Rpower SimUpdatedPlot.np_log10 INR]. f_equal.
    now apply pow10_log10.
Qed.

Lemma nth_error_head {A : Type} (xs : list A) (d : A) :
  xs <> [] -> nth_error xs 0 = Some (hd d xs).
Proof. destruct xs; [congruence | reflexivity]. Qed.

Lemma plot_curves_empty (w : world SimUpdated.ParticleSimulation) :
  SimUpdated.Dr_theoretical (self w) <> 0 ->
  SimUpdatedPlot.plot_curves [] [] w = (Raise IndexError, w).
Proof.
  intros HDr. unfold SimUpdatedPlot.plot_curves.
  cbn [length Nat.ltb Nat.leb].
  unfold bind, ret, get_self, lift, py_div.
  destruct (Req_dec_T (SimUpdated.Dr_theoretical (self w)) 0);
    [contradiction | reflexivity].
Qed.

Lemma plot_curves_zero_Dr (w : world SimUpdated.ParticleSimulation)
  (taus msds : list R) :
  SimUpdated.Dr_theoretical (self w) = 0 ->
  SimUpdatedPlot.plot_curves taus msds w = (Raise ZeroDivisionError, w).
Proof.
  intros HDr. unfold SimUpdatedPlot.plot_curves.
  destruct taus as [|t taus].
  - cbn [length Nat.ltb Nat.leb].
    unfold bind, ret, get_self, lift, py_div. rewrite HDr.
    destruct (Req_dec_T 0 0); [reflexivity | contradiction].
  - rewrite (index_ret _ _ _ (nth_error_head (t :: taus) 0 ltac:(discriminate))).
    rewrite (index_last_ret (t :: taus) 0 ltac:(discriminate)).
    change (0 <? length (t :: taus))%nat with true. cbv iota.
    unfold bind at 1 2 3 4. unfold ret at 1 2.
    rewrite calculate_theoretical_msd_run. rewrite HDr.
    destruct (Req_dec_T 0 0); [reflexivity | contradiction].
Qed.

Lemma plot_curves_ok (w : world SimUpdated.ParticleSimulation)
  (taus msds : list R) :
  let v := SimUpdated.v (self w) in
  let Dr := SimUpdated.Dr_theoretical (self w) in
  let ts := SimUpdatedPlot.np_logspace
              (SimUpdatedPlot.np_log10 (hd 0 taus))
              (SimUpdatedPlot.np_log10 (last taus 0)) 100 in
  taus <> [] -> length msds = length taus -> Dr <> 0 ->
  exists rest,
    SimUpdatedPlot.plot_curves taus msds w
    = (Ok (SimUpdatedPlot.Loglog taus msds
           :: SimUpdatedPlot.Loglog ts
                (map (fun t => 2 * (v ^ 2 / Dr)
                               * (t + (1 / Dr) * (exp (- Dr * t) - 1))) ts)
           :: rest),
       w).
Proof.
  intros v Dr ts Hne Hlen HDr.
  assert (Hm : msds <> []) by (destruct msds, taus; cbn in *; congruence).
  unfold SimUpdatedPlot.plot_curves.
  rewrite !(index_ret _ _ _ (nth_error_head taus 0 Hne)).
  rewrite !(index_last_ret taus 0 Hne).
  rewrite !(index_last_ret msds 0 Hm).
  replace (0 <? length taus)%nat with true
    by (destruct taus; [congruence | reflexivity]).
  fold ts.
  unfold bind at 1 2 3 4. unfold ret at 1 2.
  rewrite calculate_theoretical_msd_run. fold v Dr.
  destruct (Req_dec_T Dr 0) as [Z|_]; [contradiction|].
  unfold ret at 1. unfold get_self at 1. unfold bind at 1.
  unfold lift at 1, py_div. fold Dr.
  destruct (Req_dec_T Dr 0) as [Z|_]; [contradiction|].
  unfold bind at 1. unfold bind at 1. unfold ret at 1.
  destruct (2 <? length msds)%nat eqn:B2.
  - apply Nat.ltb_lt in B2.
    rewrite (index_ret _ _ _ (nth_error_within msds 1 0 ltac:(lia))).
    rewrite (index_ret _ _ _ (nth_error_within taus 1 0 ltac:(lia))).
    repeat first
      [ match goal with
        | |- context [if ?b then _ else _] => destruct b
        end
      | progress unfold bind, ret
      | progress cbn [app] ];
      eexists; reflexivity.
  - repeat first
      [ match goal with
        | |- context [if ?b then _ else _] => destruct b
        end
      | progress unfold bind, ret
      | progress cbn [app] ];
      eexists; reflexivity.
Qed.

(** Plotting needs two samples.  When fewer than two samples have been
    recorded (the run was stopped before its tenth step) and
    [Dr_theoretical] is not zero, [plot_msd] raises [IndexError]: the curve
    is empty and [tau_values[0]] does not exist.  The object is left as it
    was. *)
Theorem plot_msd_needs_two_samples
  (w : world SimUpdated.ParticleSimulation) (samples : list (R * (R * R))) :
  records w samples ->
  (length samples < 2)%nat ->
  SimUpdated.Dr_theoretical (self w) <> 0 ->
  exists w',
    SimUpdatedPlot.plot_msd w = (Raise IndexError, w')
    /\ self w' = self w.
Proof.
  intros Hrec Hlen HDr.
  destruct (calculate_msd_run w samples Hrec) as [ext E].
  unfold SimUpdatedPlot.plot_msd. rewrite (bind_ok _ _ _ _ _ E).
  cbn [fst snd]. unfold range.
  replace (Nat.min (length samples) 1000 - 1)%nat with 0%nat by lia.
  cbn [seq map]. eexists. split; [now apply plot_curves_empty|].
  reflexivity.
Qed.

Lemma plot_msd_needs_two_samples_witness :
  exists w',
    SimUpdatedPlot.plot_msd one_sample_world = (Raise IndexError, w')
    /\ self w' = self one_sample_world.
Proof.
  apply (plot_msd_needs_two_samples one_sample_world [(0, (400, 300))]).
  - split; [reflexivity | repeat constructor].
  - cbn. lia.
  - cbn. lra.
Defined.

(** A run started with noise 0 cannot be plotted.  With
    [Dr_theoretical = 0], [plot_msd] raises [ZeroDivisionError] however many
    samples were recorded: in the closed-form curve when there is a lag to
    overlay, in [1 / Dr] for the transition line when there is none. *)
Theorem plot_msd_zero_noise
  (w : world SimUpdated.ParticleSimulation) (samples : list (R * (R * R))) :
  records w samples ->
  SimUpdated.Dr_theoretical (self w) = 0 ->
  exists w', SimUpdatedPlot.plot_msd w = (Raise ZeroDivisionError, w').
Proof.
  intros Hrec HDr.
  destruct (calculate_msd_run w samples Hrec) as [ext E].
  unfold SimUpdatedPlot.plot_msd. rewrite (bind_ok _ _ _ _ _ E).
  eexists. now apply plot_curves_zero_Dr.
Qed.

Lemma plot_msd_zero_noise_witness :
  exists w',
    SimUpdatedPlot.plot_msd zero_noise_world = (Raise ZeroDivisionError, w').
Proof.
  apply (plot_msd_zero_noise zero_noise_world example_samples).
  - split; [reflexivity | repeat constructor].
  - reflexivity.
Defined.

(** The theory overlay spans the simulated lags.  With at least two
    samples, strictly increasing times and [Dr_theoretical] not zero,
    [plot_msd] returns normally; it draws first the curve that
    [calculate_msd] returns, then a second curve on 100 abscissae of which
    the first is the smallest lag and the last is the largest, whose
    ordinates are the closed form
    [2 * (v^2 / Dr) * (t + (1 / Dr) * (exp (- Dr * t) - 1))] of the
    abscissae; and the recorded samples are what they were. *)
Theorem plot_msd_overlay_spans_lags
  (w : world SimUpdated.ParticleSimulation) (samples : list (R * (R * R))) :
  let v := SimUpdated.v (self w) in
  let Dr := SimUpdated.Dr_theoretical (self w) in
  records w samples ->
  (2 <= length samples)%nat ->
  increasing (map fst samples) ->
  Dr <> 0 ->
  exists tau_values msd_values ts th rest w',
    SimUpdated.calculate_msd w = (Ok (tau_values, msd_values), w')
    /\ SimUpdatedPlot.plot_msd w
       = (Ok (SimUpdatedPlot.Loglog tau_values msd_values
              :: SimUpdatedPlot.Loglog ts th :: rest), w')
    /\ length ts = 100%nat
    /\ length th = 100%nat
    /\ th = map (fun t => 2 * (v ^ 2 / Dr)
                          * (t + (1 / Dr) * (exp (- Dr * t) - 1))) ts
    /\ nth_error ts 0 = nth_error tau_values 0
    /\ nth_error ts 99 = nth_error tau_values (length tau_values - 1)
    /\ records w' samples.
Proof.
  intros v Dr Hrec Hlen Hinc HDr.
  destruct (calculate_msd_run w samples Hrec) as [ext E].
  set (m := Nat.min (length samples) 1000) in *.
  set (taus := map (EstimateSpec.lag_time (map fst samples)) (range 1 m))
    in *.
  assert (Hm : (2 <= m <= length samples)%nat) by (unfold m; lia).
  assert (Hne : taus <> []).
  { unfold taus, range. replace (m - 1)%nat with (S (m - 2)) by lia.
    discriminate. }
  assert (Hpos : Forall (fun tau => 0 < tau) taus).
  { apply Forall_forall. intros tau Htau.
    apply in_map_iff in Htau. destruct Htau as (k & <- & Hk).
    unfold range in Hk. apply in_seq in Hk.
    unfold EstimateSpec.lag_time.
    apply Rlt_0_minus. apply increasing_nth; [exact Hinc|].
    rewrite length_map. lia. }
  rewrite Forall_forall in Hpos.
  assert (Hhd : 0 < hd 0 taus).
  { apply Hpos. destruct taus; [congruence | now left]. }
  assert (Hla : 0 < last taus 0).
  { apply Hpos. destruct (exists_last Hne) as (l & a & ->).
    rewrite last_last. apply in_or_app. right. now left. }
  destruct (plot_curves_ok (with_heap w (heap w ++ ext)) taus
              (map (EstimateSpec.msd_value (SimUpdated.width (self w))
                      (SimUpdated.height (self w)) (map snd samples))
                 (range 1 m)) Hne)
    as [rest Ep].
  { unfold taus. now rewrite !length_map. }
  { exact HDr. }
  destruct (logspace_ends (hd 0 taus) (last taus 0) Hhd Hla)
    as (L1 & L2 & L3).
  do 6 eexists. split; [exact E|].
  split.
  { unfold SimUpdatedPlot.plot_msd. rewrite (bind_ok _ _ _ _ _ E).
    exact Ep. }
  split; [exact L1|]. split; [now rewrite length_map|].
  split; [reflexivity|].
  split; [rewrite L2; symmetry; now apply nth_error_head|].
  split; [rewrite L3; symmetry; now apply nth_error_last|].
  cbn [heap with_heap self]. split; [apply Hrec|].
  apply holds_ext. apply Hrec.
Qed.

Lemma plot_msd_overlay_spans_lags_witness :
  exists tau_values msd_values ts th rest w',
    SimUpdated.calculate_msd example_world = (Ok (tau_values, msd_values), w')
    /\ SimUpdatedPlot.plot_msd example_world
       = (Ok (SimUpdatedPlot.Loglog tau_values msd_values
              :: SimUpdatedPlot.Loglog ts th :: rest), w')
    /\ length ts = 100%nat
    /\ length th = 100%nat
    /\ th = map (fun t => 2 * (3 ^ 2 / (3 ^ 2 / 6))
                          * (t + (1 / (3 ^ 2 / 6))
                                 * (exp (- (3 ^ 2 / 6) * t) - 1))) ts
    /\ nth_error ts 0 = nth_error tau_values 0
    /\ nth_error ts 99 = nth_error tau_values (length tau_values - 1)
    /\ records w' example_samples.
Proof.
  apply (plot_msd_overlay_spans_lags example_world example_samples).
  - split; [reflexivity | repeat constructor].
  - cbn. lia.
  - cbn. lra.
  - cbn. lra.
Defined.

(** ** The loop of [script.py] *)

Lemma py_mod_epsilon_total (t : R) :
  Script.py_mod t Script.epsilon
  = Ok (t - Script.epsilon * IZR (Int_part (t / Script.epsilon))).
Proof.
  unfold Script.py_mod.
  destruct (Req_dec_T Script.epsilon 0) as [Z|_]; [|reflexivity].
  unfold Script.epsilon in Z. lra.
Qed.

Lemma np_mean_nonneg (xs : list R) :
  xs <> [] -> Forall (fun x => 0 <= x) xs -> 0 <= np_mean xs.
Proof.
  intros Hne Hxs. unfold np_mean. apply Rmult_le_pos.
  - now apply sum_nonneg.
  - left. apply Rinv_0_lt_compat. apply lt_0_INR.
    destruct xs; [congruence | cbn; lia].
Qed.

Lemma script_step_effect (w : world Script.Globals) (t : R) :
  Script.x (self w) <> [] -> Script.y (self w) <> [] ->
  exists w' m,
    Script.step t w = (Ok tt, w')
    /\ length (Script.x (self w')) = S (length (Script.x (self w)))
    /\ length (Script.y (self w')) = S (length (Script.y (self w)))
    /\ Script.msd (self w') = Script.msd (self w) ++ [m]
    /\ 0 <= m
    /\ Script.prevTime (self w') = t
    /\ Script.theta (self w')
       = Script.theta (self w)
         + Script.angluar_velocity (self w') * (t - Script.prevTime (self w))
    /\ (drawn w <= drawn w' <= S (drawn w))%nat.
Proof.
  intros Hx Hy. unfold Script.step.
  rewrite (bind_ok _ _ _ _ _ (get_self_ok _)).
  unfold lift at 1. unfold bind at 1. rewrite py_mod_epsilon_total.
  assert (Hmean : forall (x' y' : list R) (x0 y0 : R),
             x' <> [] -> y' <> [] ->
             0 <= np_mean (map (fun p => (fst p - x0) ^ 2 + (snd p - y0) ^ 2)
                             (combine x' y'))).
  { intros x' y' x0 y0 Hx' Hy'. apply np_mean_nonneg.
    - destruct x', y'; try congruence. discriminate.
    - apply Forall_forall. intros v Hv. apply in_map_iff in Hv.
      destruct Hv as (p & <- & _).
      pose proof (pow2_ge_0 (fst p - x0)).
      pose proof (pow2_ge_0 (snd p - y0)). lra. }
  destruct (Req_dec_T _ 0) as [Z|NZ]; unfold when;
    cbn -[index np_mean];
    rewrite (index_ret _ _ _ (nth_error_last _ 0 Hx));
    rewrite (index_ret _ _ _ (nth_error_last _ 0 Hy));
    cbn -[index np_mean];
    rewrite (index_ret _ _ _ (nth_error_head_app _ _ 0 Hx));
    rewrite (index_ret _ _ _ (nth_error_head_app _ _ 0 Hy));
    cbn -[np_mean]; do 2 eexists; (split; [reflexivity|]);
    cbn -[np_mean]; rewrite !length_app; cbn [length];
    (split; [lia|]); (split; [lia|]); (split; [reflexivity|]);
    (split; [apply Hmean; intros E; now apply app_eq_nil in E|]);
    (split; [reflexivity|]); (split; [reflexivity|]); lia.
Qed.

Lemma script_loop_effect (times : list R) :
  forall w : world Script.Globals,
  Script.x (self w) <> [] -> Script.y (self w) <> [] ->
  exists w' ms,
    Script.loop times w = (Ok tt, w')
    /\ length (Script.x (self w'))
       = (length (Script.x (self w)) + length times)%nat
    /\ length (Script.y (self w'))
       = (length (Script.y (self w)) + length times)%nat
    /\ Script.msd (self w') = Script.msd (self w) ++ ms
    /\ length ms = length times
    /\ Forall (fun m => 0 <= m) ms
    /\ (drawn w <= drawn w' <= drawn w + length times)%nat.
Proof.
  unfold Script.loop.
  induction times as [|t times IH]; intros w Hx Hy.
  - exists w, []. cbn [for_ length]. rewrite app_nil_r, !Nat.add_0_r.
    repeat split; try reflexivity; try constructor; lia.
  - destruct (script_step_effect w t Hx Hy)
      as (w1 & m & E1 & Lx & Ly & Hm & Hm0 & _ & _ & Hd).
    destruct (IH w1) as (w2 & ms & E2 & Lx2 & Ly2 & Hms & Lms & Hms0 & Hd2).
    { intros E. rewrite E in Lx. discriminate. }
    { intros E. rewrite E in Ly. discriminate. }
    exists w2, (m :: ms). cbn [for_ length].
    rewrite (bind_ok _ _ _ _ _ E1).
    split; [exact E2|]. split; [lia|]. split; [lia|].
    split; [rewrite Hms, Hm, <- app_assoc; reflexivity|].
    split; [now rewrite Lms|]. split; [now constructor|]. lia.
Qed.

(** The second loop of [script.py] never raises, whatever the time points
    are, and leaves arrays that can be plotted against one another: [msd]
    has one entry per time point, none of them negative, [x] and [y] have
    one entry more (the origin), and at most one angular velocity is drawn
    per time point on top of the initial one. *)
Theorem script_loop_fills_arrays (times : list R)
  (w : world Script.Globals) :
  exists w',
    (Script.init ;;; Script.loop times) w = (Ok tt, w')
    /\ length (Script.msd (self w')) = length times
    /\ length (Script.x (self w')) = S (length times)
    /\ length (Script.y (self w')) = S (length times)
    /\ Forall (fun m => 0 <= m) (Script.msd (self w'))
    /\ (S (drawn w) <= drawn w' <= S (drawn w) + length times)%nat.
Proof.
  unfold Script.init.
  unfold bind at 1 2. unfold np_random_uniform at 1. unfold set_self at 1.
  match goal with
  | |- context [Script.loop times ?w0] =>
      destruct (script_loop_effect times w0)
        as (w' & ms & E & Lx & Ly & Hm & Lm & Hm0 & Hd)
  end; try discriminate.
  cbn in Lx, Ly, Hm, Hd.
  exists w'. split; [exact E|]. rewrite Hm, Lx, Ly. cbn [app].
  repeat split; try assumption; lia.
Qed.

Lemma Int_part_IZR (z : Z) : Int_part (IZR z) = z.
Proof. apply Int_part_eq. lra. Qed.

(** The loop of [script.py] draws a new angular velocity at a time point
    exactly when the time point is a whole multiple of [epsilon]: no
    tolerance, and no memory of multiples that the grid has stepped
    over. *)
Theorem script_step_draws_iff_exact_multiple (t : R) (g : Script.Globals)
  (x0 y0 : R) (xs ys : list R) (h : list (R * R)) (n : nat) (u : nat -> R) :
  let w := World {| Script.theta := Script.theta g;
                    Script.angluar_velocity := Script.angluar_velocity g;
                    Script.x := x0 :: xs; Script.y := y0 :: ys;
                    Script.msd := Script.msd g;
                    Script.prevTime := Script.prevTime g |} h n u in
  exists w',
    Script.step t w = (Ok tt, w')
    /\ (drawn w' = S n <-> exists z : Z, t = IZR z * Script.epsilon)
    /\ (drawn w' = n <-> ~ exists z : Z, t = IZR z * Script.epsilon).
Proof.
  intros w.
  destruct (script_step_run w t _ (py_mod_epsilon_total t))
    as (w' & E & Hz & Hnz); try discriminate.
  exists w'. split; [exact E|].
  set (r := t - Script.epsilon * IZR (Int_part (t / Script.epsilon))) in *.
  assert (Hr : r = 0 <-> exists z : Z, t = IZR z * Script.epsilon).
  { split.
    - intros Hr0. exists (Int_part (t / Script.epsilon)). unfold r in Hr0. lra.
    - intros [z Hzt]. unfold r. rewrite Hzt.
      replace (IZR z * Script.epsilon / Script.epsilon) with (IZR z)
        by (unfold Script.epsilon; field).
      rewrite Int_part_IZR. ring. }
  cbn [drawn] in Hz, Hnz. fold w in Hz, Hnz.
  destruct (Req_dec_T r 0) as [Z|NZ].
  - destruct (Hz Z) as [Hd _]. change (drawn w) with n in Hd.
    split; split; intros H.
    + now apply Hr.
    + exact Hd.
    + lia.
    + exfalso. apply H. now apply Hr.
  - destruct (Hnz NZ) as [Hd _]. change (drawn w) with n in Hd.
    split; split; intros H.
    + lia.
    + exfalso. apply NZ. now apply Hr.
    + intros Hex. apply NZ. now apply Hr.
    + exact Hd.
Qed.

(** ** The records of [sim.py] *)

Lemma record_step_effect (w : world Sim.ParticleSimulation) (pv iv : R * R) :
  nth_error (heap w) (Sim.position (self w)) = Some pv ->
  nth_error (heap w) (Sim.initial_position (self w)) = Some iv ->
  let s := self w in
  let d := (fst pv - fst iv, snd pv - snd iv) in
  Sim.record_step w
  = (Ok tt,
     World
       (Sim.set_msd_values (Sim.msd_values s ++ [fst d ^ 2 + snd d ^ 2])
          (Sim.set_time_steps
             (Sim.time_steps s ++ [(Sim.current_time s + 1)%nat])
             (Sim.set_positions_history
                (Sim.positions_history s ++ [length (heap w)])
                (Sim.set_current_time (Sim.current_time s + 1) s))))
       (heap w ++ [pv; d; (fst d ^ 2, snd d ^ 2)])
       (drawn w) (unit_samples w)).
Proof.
  intros E Ei s d. unfold Sim.record_step.
  unfold set_self at 1. unfold bind at 1.
  rewrite (bind_ok _ _ _ _ _ (get_self_ok _)).
  erewrite bind_ok; [ | apply ndarray_copy_ok; cbn; exact E ].
  unfold set_self at 1 2. unfold bind at 1 2.
  rewrite (bind_ok _ _ _ _ _ (get_self_ok _)).
  erewrite bind_ok;
    [ | apply np_sub_ok; cbn; apply nth_error_old; eassumption ].
  erewrite bind_ok; [ | apply np_square_ok; cbn; apply nth_error_snoc ].
  erewrite bind_ok; [ | apply np_sum_ok; cbn; apply nth_error_snoc ].
  unfold set_self. cbn. rewrite <- !app_assoc. reflexivity.
Qed.

Lemma sim_update_position_effect (w : world Sim.ParticleSimulation)
  (pv iv : R * R) :
  nth_error (heap w) (Sim.position (self w)) = Some pv ->
  nth_error (heap w) (Sim.initial_position (self w)) = Some iv ->
  Sim.position (self w) <> Sim.initial_position (self w) ->
  let s := self w in
  let th := Sim.theta s + Sim.angular_velocity s in
  let pv' := (fst pv + Sim.speed s * cos th, snd pv + Sim.speed s * sin th) in
  exists w' c,
    Sim.update_position w = (Ok tt, w')
    /\ (forall l, (l < length (heap w))%nat -> l <> Sim.position s ->
          nth_error (heap w') l = nth_error (heap w) l)
    /\ nth_error (heap w') (Sim.position s) = Some pv'
    /\ (length (heap w) <= c)%nat
    /\ nth_error (heap w') c = Some pv'
    /\ Sim.position (self w') = Sim.position s
    /\ Sim.initial_position (self w') = Sim.initial_position s
    /\ Sim.current_time (self w') = (Sim.current_time s + 1)%nat
    /\ Sim.positions_history (self w') = Sim.positions_history s ++ [c]
    /\ Sim.time_steps (self w')
       = Sim.time_steps s ++ [(Sim.current_time s + 1)%nat]
    /\ Sim.msd_values (self w')
       = Sim.msd_values s
         ++ [(fst pv' - fst iv) ^ 2 + (snd pv' - snd iv) ^ 2].
Proof.
  intros E Ei Hne s th pv'.
  assert (L : (Sim.position (self w) < length (heap w))%nat)
    by (apply nth_error_Some; congruence).
  assert (Li : (Sim.initial_position (self w) < length (heap w))%nat)
    by (apply nth_error_Some; congruence).
  unfold Sim.update_position.
  rewrite (bind_ok _ _ _ _ _ (get_self_ok _)).
  rewrite (bind_ok _ _ _ _ _ (ndarray_copy_ok _ _ _ E)).
  unfold set_self at 1. unfold bind at 1.
  rewrite (bind_ok _ _ _ _ _ (get_self_ok _)).
  unfold np_array2. rewrite (bind_ok _ _ _ _ _ (alloc_ok _ _)).
  unfold set_self at 1. unfold bind at 1.
  cbn [self heap with_heap drawn unit_samples Sim.set_theta Sim.set_velocity
       Sim.speed Sim.theta Sim.position].
  fold s. fold th.
  set (vel := (Sim.speed s * cos th, Sim.speed s * sin th)).
  set (lv := length (heap w ++ [pv])).
  assert (Hlv : lv = S (length (heap w)))
    by (unfold lv; rewrite length_app; cbn; lia).
  erewrite bind_ok;
    [ | apply np_iadd_ok; cbn [heap];
        [ rewrite <- app_assoc; apply nth_error_old; exact E
        | unfold lv; apply nth_error_snoc ] ].
  cbn [heap with_heap self fst snd].
  change (fst pv + fst vel, snd pv + snd vel) with pv'.
  set (h1 := update ((heap w ++ [pv]) ++ [vel]) (Sim.position s) pv').
  assert (Hp1 : nth_error h1 (Sim.position s) = Some pv').
  { unfold h1. apply update_same. rewrite !length_app. unfold s. lia. }
  assert (Hv1 : nth_error h1 lv = Some vel).
  { unfold h1. rewrite update_other by (unfold s; lia). unfold lv.
    apply nth_error_snoc. }
  assert (Hl1 : length h1 = S (S (length (heap w)))).
  { unfold h1. rewrite update_length, !length_app. cbn. lia. }
  assert (Hf1 : forall l, (l < length (heap w))%nat -> l <> Sim.position s ->
                nth_error h1 l = nth_error (heap w) l).
  { intros l Hl Hn. unfold h1. rewrite update_other by congruence.
    rewrite <- app_assoc. now apply nth_error_app1. }
  clearbody lv h1.
  erewrite bind_ok; [ | apply getitem_ok; [cbn [heap]; exact Hp1 | lia] ].
  erewrite bind_ok; [ | apply getitem_ok; [cbn [heap]; exact Hp1 | lia] ].
  cbn [Nat.eqb fst snd].
  change (Sim.at_wall (Sim.set_theta th s) (fst pv') (snd pv'))
    with (Sim.at_wall s (fst pv') (snd pv')).
  destruct (Sim.at_wall s (fst pv') (snd pv')); unfold when.
  - erewrite bind_ok.
    2:{ erewrite bind_ok;
          [ | apply setitem_ok; [cbn [heap with_heap]; exact Hv1 | lia] ].
        erewrite bind_ok;
          [ | apply setitem_ok;
              [ cbn [heap with_heap]; apply update_same; lia | lia ] ].
        unfold set_self, bind. cbn [Nat.eqb fst snd self heap with_heap
                                    drawn unit_samples].
        rewrite update_update. reflexivity. }
    set (h2 := update h1 lv (0, 0)).
    assert (Hp2 : nth_error h2 (Sim.position s) = Some pv').
    { unfold h2. rewrite update_other by (unfold s; lia). exact Hp1. }
    assert (Hi2 : nth_error h2 (Sim.initial_position s) = Some iv).
    { unfold h2. rewrite update_other by (unfold s; lia).
      rewrite Hf1; [exact Ei | exact Li | unfold s; congruence]. }
    erewrite record_step_effect; [ | exact Hp2 | exact Hi2 ].
    eexists. exists (length h2). split; [reflexivity|].
    cbn [self heap]. cbn -[h2 nth_error length app].
    split.
    { intros l Hl Hn. rewrite nth_error_app1
        by (unfold h2; rewrite update_length; lia).
      unfold h2. rewrite update_other by lia. now apply Hf1. }
    split; [apply nth_error_old; exact Hp2|].
    split; [unfold h2; rewrite update_length; lia|].
    split; [apply nth_error_fresh|].
    repeat split; reflexivity.
  - rewrite (bind_ok _ _ _ _ _ (ret_ok _ _)).
    assert (Hi1 : nth_error h1 (Sim.initial_position s) = Some iv).
    { rewrite Hf1; [exact Ei | exact Li | unfold s; congruence]. }
    erewrite record_step_effect; [ | exact Hp1 | exact Hi1 ].
    eexists. exists (length h1). split; [reflexivity|].
    cbn -[nth_error length app].
    split.
    { intros l Hl Hn. rewrite nth_error_app1 by lia. now apply Hf1. }
    split; [apply nth_error_old; exact Hp1|].
    split; [lia|].
    split; [apply nth_error_fresh|].
    repeat split; reflexivity.
Qed.

Lemma sim_update_position_history (w : world Sim.ParticleSimulation)
  (v0 : R * R) (vs : list (R * R)) :
  sim_history w v0 vs ->
  exists w' v,
    Sim.update_position w = (Ok tt, w') /\ sim_history w' v0 (vs ++ [v]).
Proof.
  intros (Hh & Hn & Hne & Hp & Hi & Ht & Hc & Hm).
  destruct (nth_error (heap w) (Sim.position (self w))) as [pv|] eqn:E.
  2:{ apply nth_error_None in E. lia. }
  destruct (sim_update_position_effect w pv v0 E Hi Hne)
    as (w' & c & Hrun & Hf & Hp' & Hc1 & Hc2 & Ep & Ei & Ect & Eh & Ets & Em).
  eexists w', _. split; [exact Hrun|].
  unfold sim_history. cbn zeta. rewrite Ep, Ei, Ect, Eh, Ets, Em.
  split.
  { change (v0 :: vs ++ [?v]) with ((v0 :: vs) ++ [v]).
    apply holds_snoc; [|exact Hc2].
    eapply holds_frame; [exact Hh | exact Hn | exact Hf]. }
  split.
  { intros Hin. apply in_app_or in Hin. destruct Hin as [Hin|[Hin|[]]].
    - now apply Hn.
    - lia. }
  split; [exact Hne|].
  split; [apply nth_error_Some; congruence|].
  split.
  { rewrite Hf; [exact Hi | apply nth_error_Some; congruence | congruence]. }
  rewrite last_length.
  split.
  { rewrite Ht, Hc. rewrite (seq_S (S (length vs)) 0). cbn [Nat.add].
    rewrite Nat.add_1_r. reflexivity. }
  split; [lia|].
  rewrite Hm, map_app. reflexivity.
Qed.

Lemma sim_handle_history (e : Sim.event) (w : world Sim.ParticleSimulation)
  (v0 : R * R) (vs : list (R * R)) :
  sim_history w v0 vs ->
  exists w' vs',
    Sim.handle e w = (Ok tt, w') /\ sim_history w' v0 (vs ++ vs')
    /\ (length vs' <= 1)%nat.
Proof.
  intros H.
  assert (Idle : forall w0, sim_history w0 v0 vs ->
             exists w' vs',
               (Ok tt, w0) = (Ok tt, w') /\ sim_history w' v0 (vs ++ vs')
               /\ (length vs' <= 1)%nat).
  { intros w0 H0. exists w0, []. rewrite app_nil_r.
    split; [reflexivity|]. split; [exact H0 | cbn; lia]. }
  assert (Step : forall w0, sim_history w0 v0 vs ->
             exists w' vs',
               Sim.update_position w0 = (Ok tt, w')
               /\ sim_history w' v0 (vs ++ vs') /\ (length vs' <= 1)%nat).
  { intros w0 H0.
    destruct (sim_update_position_history w0 v0 vs H0) as (w' & v & E & H').
    exists w', [v]. split; [exact E|]. split; [exact H' | cbn; lia]. }
  destruct e; cbn [Sim.handle].
  - unfold Sim.animate. rewrite (bind_ok _ _ _ _ _ (get_self_ok _)).
    destruct (Sim.running (self w)); [now apply Step | now apply Idle].
  - unfold Sim.update_angular_velocity.
    rewrite (bind_ok _ _ _ _ _ (get_self_ok _)).
    destruct (Sim.running (self w)); [|now apply Idle].
    apply Idle. exact H.
  - unfold Sim.toggle_simulation.
    unfold set_self at 1. unfold bind at 1.
    rewrite (bind_ok _ _ _ _ _ (get_self_ok _)).
    cbn [self Sim.running Sim.set_running].
    destruct (negb (Sim.running (self w))) eqn:R.
    + unfold Sim.animate. rewrite (bind_ok _ _ _ _ _ (get_self_ok _)).
      cbn [self Sim.running Sim.set_running].
      apply Step. exact H.
    + apply Idle. exact H.
Qed.

Lemma sim_run_history (es : list Sim.event) :
  forall (w : world Sim.ParticleSimulation) (v0 : R * R) (vs : list (R * R)),
  sim_history w v0 vs ->
  exists w' vs',
    Sim.run es w = (Ok tt, w') /\ sim_history w' v0 (vs ++ vs')
    /\ (length vs' <= length es)%nat.
Proof.
  unfold Sim.run. induction es as [|e es IH]; intros w v0 vs H.
  - exists w, []. rewrite app_nil_r. cbn.
    split; [reflexivity|]. split; [exact H | lia].
  - destruct (sim_handle_history e w v0 vs H) as (w1 & vs1 & E1 & H1 & L1).
    destruct (IH w1 v0 _ H1) as (w2 & vs2 & E2 & H2 & L2).
    exists w2, (vs1 ++ vs2). rewrite app_assoc. split; [|split; [exact H2|]].
    + cbn [for_]. rewrite (bind_ok _ _ _ _ _ E1). exact E2.
    + rewrite length_app. cbn [length]. lia.
Qed.

Lemma sim_new_history (w : world Sim.ParticleSimulation) :
  exists w' v,
    Sim.new w = (Ok tt, w') /\ sim_history w' (600 / 2, 400 / 2) [v].
Proof.
  unfold Sim.new, np_array2.
  rewrite (bind_ok _ _ _ _ _ (alloc_ok _ _)).
  erewrite bind_ok;
    [ | apply ndarray_copy_ok; cbn [heap]; apply nth_error_snoc ].
  erewrite bind_ok;
    [ | apply ndarray_copy_ok; cbn [heap with_heap];
        apply nth_error_old, nth_error_snoc ].
  unfold np_random_uniform at 1. unfold bind at 1.
  cbn [heap with_heap self drawn unit_samples].
  rewrite (bind_ok _ _ _ _ _ (alloc_ok _ _)).
  unfold set_self at 1. unfold bind at 1.
  cbn [heap with_heap self drawn unit_samples].
  unfold Sim.animate. rewrite (bind_ok _ _ _ _ _ (get_self_ok _)).
  cbn [self Sim.running].
  match goal with
  | |- context [Sim.update_position ?w1] =>
      destruct (sim_update_position_history w1 (600 / 2, 400 / 2) [])
        as (w' & v & E & H')
  end.
  2:{ exists w', v. split; [exact E | exact H']. }
  unfold sim_history.
  cbn [self heap Sim.positions_history Sim.position Sim.initial_position
       Sim.time_steps Sim.current_time Sim.msd_values length seq map].
  rewrite !length_app. cbn [length].
  split.
  { constructor; [|constructor].
    rewrite <- !app_assoc. cbn [app].
    rewrite nth_error_app2 by lia.
    replace (length (heap w) + 1 + 1 - length (heap w))%nat with 2%nat
      by lia.
    reflexivity. }
  split; [cbn [In]; lia|].
  split; [lia|].
  split; [lia|].
  split.
  { rewrite <- !app_assoc. cbn [app].
    rewrite nth_error_app2 by lia.
    replace (length (heap w) + 1 - length (heap w))%nat with 1%nat by lia.
    reflexivity. }
  repeat split; reflexivity.
Qed.

(** ** [calculate_msd] of [sim.py] *)

Lemma set_nth_app (xs ys : list R) (y v : R) :
  set_nth (xs ++ y :: ys) (length xs) v = xs ++ v :: ys.
Proof. induction xs as [|x xs IH]; cbn; [reflexivity | now rewrite IH]. Qed.

Lemma setitem1d_app {Obj : Type} (xs ys : list R) (y v : R) (w : world Obj) :
  setitem1d (xs ++ y :: ys) (length xs) v w = (Ok (xs ++ v :: ys), w).
Proof.
  unfold setitem1d.
  replace (length xs <? length (xs ++ y :: ys))%nat with true.
  - now rewrite set_nth_app.
  - symmetry. apply Nat.ltb_lt. rewrite length_app. cbn. lia.
Qed.

Lemma sim_msd_loop (positions : list nat) (v0 : R * R) (vs : list (R * R)) :
  forall (ts : list nat) (k : nat) (w : world Sim.ParticleSimulation),
  holds (heap w) positions (v0 :: vs) ->
  (k + length ts = S (length vs))%nat ->
  exists w',
    for_ (combine (seq k (length ts)) ts)
      (fun it msd =>
         let '(i, t) := it in
         if (i =? 0)%nat
         then setitem1d msd i 0
         else
           a <- index positions i ;;
           b <- index positions 0 ;;
           displacement <- np_sub a b ;;
           sq <- np_square displacement ;;
           sd <- np_sum sq ;;
           setitem1d msd i sd)
      (map (fun i => if (i =? 0)%nat then 0
                     else sq_dist (nth i (v0 :: vs) (0, 0)) v0) (seq 0 k)
       ++ repeat 0 (length ts)) w
    = (Ok (map (fun i => if (i =? 0)%nat then 0
                         else sq_dist (nth i (v0 :: vs) (0, 0)) v0)
             (seq 0 (k + length ts))), w')
    /\ self w' = self w.
Proof.
  induction ts as [|t ts IH]; intros k w Hh Hk.
  - exists w. cbn. rewrite Nat.add_0_r, app_nil_r. now split.
  - cbn [length] in *. cbn [seq combine for_ repeat].
    set (f := fun i : nat => if (i =? 0)%nat then 0
                    else sq_dist (nth i (v0 :: vs) (0, 0)) v0) in *.
    assert (Lk : length (map f (seq 0 k)) = k)
      by now rewrite length_map, length_seq.
    assert (Tail : forall w1 : world Sim.ParticleSimulation,
               holds (heap w1) positions (v0 :: vs) -> self w1 = self w ->
               exists w',
                 for_ (combine (seq (S k) (length ts)) ts)
                   (fun it msd =>
                      let '(i, t) := it in
                      if (i =? 0)%nat
                      then setitem1d msd i 0
                      else
                        a <- index positions i ;;
                        b <- index positions 0 ;;
                        displacement <- np_sub a b ;;
                        sq <- np_square displacement ;;
                        sd <- np_sum sq ;;
                        setitem1d msd i sd)
                   (map f (seq 0 k) ++ f k :: repeat 0 (length ts)) w1
                 = (Ok (map f (seq 0 (k + S (length ts)))), w')
                 /\ self w' = self w).
    { intros w1 H1 S1.
      destruct (IH (S k) w1 H1 ltac:(lia)) as (w' & E & S').
      exists w'. split; [|congruence].
      replace (k + S (length ts))%nat with (S k + length ts)%nat by lia.
      rewrite <- E. f_equal.
      rewrite seq_S, map_app, <- app_assoc. reflexivity. }
    assert (Set_k : forall (w1 : world Sim.ParticleSimulation) (v : R),
               setitem1d (map f (seq 0 k) ++ 0 :: repeat 0 (length ts)) k v w1
               = (Ok (map f (seq 0 k) ++ v :: repeat 0 (length ts)), w1)).
    { intros w1 v.
      pose proof (setitem1d_app (map f (seq 0 k)) (repeat 0 (length ts))
                    0 v w1) as Es.
      now rewrite Lk in Es. }
    destruct k as [|k].
    + cbn [Nat.eqb]. rewrite (bind_ok _ _ _ _ _ (Set_k w 0)).
      apply (Tail w Hh eq_refl).
    + cbn [Nat.eqb].
      pose proof (holds_length _ _ _ Hh) as Hl. cbn [length] in Hl.
      destruct (nth_error positions (S k)) as [a|] eqn:Ea.
      2:{ apply nth_error_None in Ea. lia. }
      destruct (nth_error positions 0) as [b|] eqn:Eb.
      2:{ apply nth_error_None in Eb. lia. }
      pose proof (holds_nth _ _ _ _ _ Hh Ea) as Ha.
      pose proof (holds_nth _ _ _ _ _ Hh Eb) as Hb.
      cbn [nth] in Hb.
      erewrite bind_ok.
      2:{ rewrite (index_ret _ _ _ Ea), (index_ret _ _ _ Eb).
          rewrite !(bind_ok _ _ _ _ _ (ret_ok _ _)).
          rewrite (bind_ok _ _ _ _ _ (np_sub_ok _ _ _ _ _ Ha Hb)).
          erewrite bind_ok;
            [ | apply np_square_ok; cbn [heap with_heap];
                apply nth_error_snoc ].
          erewrite bind_ok;
            [ | apply np_sum_ok; cbn [heap with_heap];
                apply nth_error_snoc ].
          apply Set_k. }
      apply Tail; [|reflexivity].
      cbn [heap with_heap]. now do 2 apply holds_ext.
Qed.

Lemma map_nth_seq {A B : Type} (g : A -> B) (d : A) (vs : list A) :
  map (fun i => g (nth i vs d)) (seq 0 (length vs)) = map g vs.
Proof.
  induction vs as [|v vs IH]; [reflexivity|].
  cbn [length seq map nth]. f_equal.
  rewrite <- seq_shift, map_map. exact IH.
Qed.

Lemma sim_calculate_msd_run (w : world Sim.ParticleSimulation)
  (v0 : R * R) (vs : list (R * R)) :
  sim_history w v0 vs ->
  exists w',
    Sim.calculate_msd w
    = (Ok (Sim.time_steps (self w), Sim.msd_values (self w)), w')
    /\ self w' = self w.
Proof.
  intros (Hh & _ & _ & _ & _ & Ht & _ & Hm).
  unfold Sim.calculate_msd.
  rewrite (bind_ok _ _ _ _ _ (get_self_ok _)).
  rewrite (bind_ok _ _ _ _ _ (np_array_run _ _ w Hh)).
  rewrite (holds_length _ _ _ Hh).
  destruct (sim_msd_loop (seq (length (heap w)) (length (v0 :: vs))) v0 vs
              (Sim.time_steps (self w)) 0
              (with_heap w (heap w ++ v0 :: vs)))
    as (w' & E & S').
  { cbn [heap with_heap]. apply holds_fresh. }
  { rewrite Ht, length_seq. lia. }
  exists w'. split; [|exact S'].
  cbn [seq map app Nat.add] in E.
  rewrite (bind_ok _ _ _ _ _ E). unfold ret. do 2 f_equal.
  f_equal. rewrite Hm, Ht, length_seq.
  cbn [seq map Nat.eqb]. f_equal.
  rewrite <- seq_shift, map_map. cbn [Nat.eqb nth].
  apply (map_nth_seq (fun v => sq_dist v v0)).
Qed.

Lemma sim_session_history (es : list Sim.event)
  (w : world Sim.ParticleSimulation) :
  exists w' vs,
    sim_session es w = (Ok tt, w')
    /\ sim_history w' (600 / 2, 400 / 2) vs
    /\ (1 <= length vs <= 1 + length es)%nat.
Proof.
  destruct (sim_new_history w) as (w1 & v & E1 & H1).
  destruct (sim_run_history es w1 _ _ H1) as (w2 & vs & E2 & H2 & L2).
  exists w2, ([v] ++ vs). split; [|split; [exact H2|]].
  - unfold sim_session. rewrite (bind_ok _ _ _ _ _ E1). exact E2.
  - rewrite length_app. cbn [length]. lia.
Qed.

(** [sim.py], [__init__] followed by any events of the event loop: no call
    raises; the step numbers recorded are 0, 1, ..., [current_time]; there
    is one recorded position and one MSD value per step number; and
    at least one step and at most one step per event, beyond the
    constructor's own, has been taken. *)
Theorem sim_session_bookkeeping (es : list Sim.event)
  (w : world Sim.ParticleSimulation) :
  exists w',
    sim_session es w = (Ok tt, w')
    /\ Sim.time_steps (self w') = seq 0 (S (Sim.current_time (self w')))
    /\ length (Sim.positions_history (self w'))
       = S (Sim.current_time (self w'))
    /\ length (Sim.msd_values (self w')) = S (Sim.current_time (self w'))
    /\ (1 <= Sim.current_time (self w') <= 1 + length es)%nat.
Proof.
  destruct (sim_session_history es w)
    as (w' & vs & E & (Hh & _ & _ & _ & _ & Ht & Hc & Hm) & L).
  exists w'. split; [exact E|].
  rewrite Hc, Ht, Hm, (holds_length _ _ _ Hh). cbn [length].
  rewrite length_map. repeat split; lia.
Qed.

(** [sim.py], [__init__] followed by any events: every entry of
    [msd_values] is the squared distance from the centre of the canvas,
    (300, 200), of the position recorded at the same index of
    [positions_history]. *)
Theorem sim_session_msd_from_centre (es : list Sim.event)
  (w : world Sim.ParticleSimulation) :
  exists w',
    sim_session es w = (Ok tt, w')
    /\ forall i l,
         nth_error (Sim.positions_history (self w')) i = Some l ->
         exists v,
           nth_error (heap w') l = Some v
           /\ nth_error (Sim.msd_values (self w')) i
              = Some (sq_dist v (300, 200)).
Proof.
  destruct (sim_session_history es w)
    as (w' & vs & E & (Hh & _ & _ & _ & _ & _ & _ & Hm) & _).
  exists w'. split; [exact E|]. intros i l El.
  exists (nth i ((600 / 2, 400 / 2) :: vs) (0, 0)).
  split; [exact (holds_nth _ _ _ _ _ Hh El)|].
  assert (Li : (i < S (length vs))%nat).
  { pose proof (holds_length _ _ _ Hh) as HL. cbn [length] in HL.
    rewrite <- HL. apply nth_error_Some. congruence. }
  rewrite Hm. destruct i as [|i]; cbn [nth nth_error].
  - f_equal. unfold sq_dist. cbn [fst snd]. field.
  - rewrite nth_error_map.
    rewrite (nth_error_nth' vs (0, 0)) by lia. cbn [option_map].
    f_equal. unfold sq_dist. cbn [fst snd]. field.
Qed.

(** [sim.py], [__init__] followed by any events: [calculate_msd] raises
    nothing, leaves the object as it is, and returns the recorded step
    numbers with exactly the MSD values that [update_position] has stored
    step by step. *)
Theorem sim_session_calculate_msd_agrees (es : list Sim.event)
  (w : world Sim.ParticleSimulation) :
  exists w1 w2,
    sim_session es w = (Ok tt, w1)
    /\ Sim.calculate_msd w1
       = (Ok (Sim.time_steps (self w1), Sim.msd_values (self w1)), w2)
    /\ self w2 = self w1.
Proof.
  destruct (sim_session_history es w) as (w1 & vs & E & H & _).
  destruct (sim_calculate_msd_run w1 _ _ H) as (w2 & E2 & S2).
  exists w1, w2. now repeat split.
Qed.
